(** * Starred-repository export: Link-header parsing, page aggregation, CSV

    A shallow embedding of the pagination and export logic of the
    stars-dashboard application:

    - [parseLinkHeader] (app/page.tsx, the same in both page variants),
    - [parseNextFromLink], [csvEscape], [toCSV] and the [POST] handler of
      the export route (POST /api/export),
    - [toCSVFromRepos] (stars-dashboard/app/page.tsx),
    - the record normalisation of the [GET] handler (GET /api/starred).

    JavaScript strings are modelled by Rocq strings, one character per
    code unit; header values are byte strings, so their code units are
    below 256, and the text functions of the serializer treat every code
    unit other than CR, LF, comma and double quote alike.  JavaScript
    numbers are IEEE-754 binary64 values ([spec_float]).  Exceptions are
    explicit: a computation that may throw returns a [completion]. *)

From Stdlib Require Import ZArith Ascii Floats.SpecFloat.
From stdpp Require Import base list strings gmap pretty.

Local Open Scope Z_scope.
Set Warnings "-register-all".

(** ** Completions: normal return or thrown error *)

Record exn := Error { message : string }.

Inductive completion (A : Type) : Type :=
| Normal (a : A)
| Throw (e : exn).
Arguments Normal {A} a.
Arguments Throw {A} e.

Definition cbind {A B} (c : completion A) (k : A → completion B) : completion B :=
  match c with
  | Normal a => k a
  | Throw e => Throw e
  end.

Notation "x ← c ;;; k" := (cbind c (λ x, k))
  (at level 20, c at level 100, k at level 200, right associativity,
   only parsing).

(** [try { c } catch (e) { h e }] *)
Definition try_catch {A} (c : completion A) (h : exn → completion A) : completion A :=
  match c with
  | Normal a => Normal a
  | Throw e => h e
  end.

(** ** Text primitives of the host language *)

Module Text.

Definition comma : ascii := ","%char.
Definition semicolon : ascii := ";"%char.
Definition dquote : ascii := Ascii.ascii_of_nat 34.
Definition LF : ascii := Ascii.ascii_of_nat 10.
Definition CR : ascii := Ascii.ascii_of_nat 13.
Definition space : ascii := " "%char.

Definition char_eqb (a b : ascii) : bool := Ascii.eqb a b.

Fixpoint chars (s : string) : list ascii :=
  match s with
  | EmptyString => []
  | String c r => c :: chars r
  end.

Fixpoint of_chars (l : list ascii) : string :=
  match l with
  | [] => EmptyString
  | c :: r => String c (of_chars r)
  end.

(** [s.includes(c)] for a one-character needle. *)
Fixpoint includes (c : ascii) (s : string) : bool :=
  match s with
  | EmptyString => false
  | String a r => char_eqb a c || includes c r
  end.

(** [s.split(c)] for a one-character separator: never empty, and
    [split c ""] is the one-element list holding the empty string. *)
Fixpoint split (sep : ascii) (s : string) : list string :=
  match s with
  | EmptyString => [EmptyString]
  | String a r =>
      if char_eqb a sep then EmptyString :: split sep r
      else match split sep r with
           | h :: t => String a h :: t
           | [] => [String a EmptyString]
           end
  end.

(** [l.join(sep)] on an array of strings. *)
Fixpoint join (sep : string) (l : list string) : string :=
  match l with
  | [] => EmptyString
  | [x] => x
  | x :: r => x +:+ sep +:+ join sep r
  end.

(** White space and line terminators among the code units below 256:
    TAB, LF, VT, FF, CR, SP and NBSP. *)
Definition is_space (c : ascii) : bool :=
  let n := Ascii.N_of_ascii c in
  ((9 <=? n) && (n <=? 13) || (n =? 32) || (n =? 160))%N.

Fixpoint trimStart (s : string) : string :=
  match s with
  | EmptyString => EmptyString
  | String a r => if is_space a then trimStart r else s
  end.

(** Dropping trailing white space: a character is kept when it is not
    white space or something is kept after it. *)
Fixpoint trimEnd (s : string) : string :=
  match s with
  | EmptyString => EmptyString
  | String a r =>
      match trimEnd r with
      | EmptyString => if is_space a then EmptyString else String a EmptyString
      | r' => String a r'
      end
  end.

(** [s.trim()] *)
Definition trim (s : string) : string := trimEnd (trimStart s).

(** Replacing every match of the character class [<>] by the empty
    string. *)
Fixpoint strip_angles (s : string) : string :=
  match s with
  | EmptyString => EmptyString
  | String a r =>
      if char_eqb a "<"%char || char_eqb a ">"%char then strip_angles r
      else String a (strip_angles r)
  end.

(** Replacing every match of CR? LF | CR by one space: scanning left to
    right, CR LF and a lone LF or CR each become one space. *)
Fixpoint collapse_newlines (s : string) : string :=
  match s with
  | EmptyString => EmptyString
  | String a r =>
      if char_eqb a CR then
        match r with
        | String b r' =>
            if char_eqb b LF then String space (collapse_newlines r')
            else String space (collapse_newlines r)
        | EmptyString => String space EmptyString
        end
      else if char_eqb a LF then String space (collapse_newlines r)
      else String a (collapse_newlines r)
  end.

(** Replacing every double quote by two double quotes. *)
Fixpoint double_quotes (s : string) : string :=
  match s with
  | EmptyString => EmptyString
  | String a r =>
      if char_eqb a dquote then String dquote (String dquote (double_quotes r))
      else String a (double_quotes r)
  end.

(** The regular expression: rel= , a double quote, a greedy captured
    dot-star, a double quote.  The dot matches every code unit except
    the line terminators LF and CR, and the star is greedy: from a
    position where the opening rel= and quote start, the capture runs to
    the last double quote of the current line.  [line_prefix] is the longest run
    the dot-star can cover; [upto_last_quote] backtracks to its last
    double quote. *)
Fixpoint line_prefix (s : string) : string :=
  match s with
  | EmptyString => EmptyString
  | String a r =>
      if char_eqb a LF || char_eqb a CR then EmptyString
      else String a (line_prefix r)
  end.

Fixpoint upto_last_quote (s : string) : option string :=
  match s with
  | EmptyString => None
  | String a r =>
      match upto_last_quote r with
      | Some t => Some (String a t)
      | None => if char_eqb a dquote then Some EmptyString else None
      end
  end.

Definition rel_open : string := String "r" (String "e" (String "l" (String "=" (String dquote EmptyString)))).

Fixpoint strip_prefix (p s : string) : option string :=
  match p, s with
  | EmptyString, _ => Some s
  | String a p', String b s' => if char_eqb a b then strip_prefix p' s' else None
  | String _ _, EmptyString => None
  end.

(** The first capture group of the leftmost match, if any. *)
Fixpoint match_rel (s : string) : option string :=
  let here :=
    match strip_prefix rel_open s with
    | Some rest => upto_last_quote (line_prefix rest)
    | None => None
    end in
  match here with
  | Some cap => Some cap
  | None =>
      match s with
      | EmptyString => None
      | String _ r => match_rel r
      end
  end.

End Text.

(** ** Numbers and values of the host language *)

Abbreviation number := spec_float.

(** The binary64 value of an integer (round to nearest, ties to even). *)
Definition num_of_Z (z : Z) : number := binary_normalize 53 1024 z 0 false.

(** [ToBoolean] on a number: zero and NaN are falsy. *)
Definition truthy_number (n : number) : bool :=
  match n with
  | S754_zero _ | S754_nan => false
  | S754_infinity _ | S754_finite _ _ _ => true
  end.

(** [Number.isFinite] *)
Definition Number_isFinite (n : number) : bool :=
  match n with
  | S754_zero _ | S754_finite _ _ _ => true
  | S754_infinity _ | S754_nan => false
  end.

(** Strictly greater than zero. *)
Definition positive_number (n : number) : bool :=
  match n with
  | S754_finite false _ _ | S754_infinity false => true
  | _ => false
  end.

(** [ToBoolean] on a string: only the empty string is falsy. *)
Definition truthy_string (s : string) : bool :=
  match s with
  | EmptyString => false
  | String _ _ => true
  end.

(** Values as they come out of [JSON.parse], plus [undefined], which
    reading an absent property yields.  The properties of an object are
    kept in order; a name occurs at most once. *)
Inductive value : Type :=
| Undefined
| Null
| Bool (b : bool)
| Num (n : number)
| Str (s : string)
| Arr (elems : list value)
| Obj (props : list (string * value)).

Definition nullish (v : value) : bool :=
  match v with
  | Undefined | Null => true
  | _ => false
  end.

Fixpoint assoc (k : string) (props : list (string * value)) : value :=
  match props with
  | [] => Undefined
  | (k', v) :: r => if decide (k = k') then v else assoc k r
  end.

(** Whether an object has an own property of the given name. *)
Fixpoint has_own (k : string) (props : list (string * value)) : bool :=
  match props with
  | [] => false
  | (k', _) :: r => if decide (k = k') then true else has_own k r
  end.

(** The TypeError of a conversion to a primitive that finds no method
    to call. *)
Definition not_primitive : exn := Error "Cannot convert object to primitive value".

(** [v?.k], for the property names this program reads (none of them is an
    index, [length] or a name found on a prototype). *)
Definition get_opt (v : value) (k : string) : value :=
  match v with
  | Obj props => assoc k props
  | _ => Undefined
  end.

(** [v.k]: reading a property of [undefined] or [null] throws. *)
Definition get (v : value) (k : string) : completion value :=
  match v with
  | Undefined =>
      Throw (Error ("Cannot read properties of undefined (reading '" +:+ k +:+ "')"))
  | Null =>
      Throw (Error ("Cannot read properties of null (reading '" +:+ k +:+ "')"))
  | _ => Normal (get_opt v k)
  end.

(** [a ?? b] *)
Definition coalesce (a b : value) : value := if nullish a then b else a.

(** The interface [RepoItem] of the pages, with its nested owner. *)
Module Owner.
Record t := { login : string; avatarUrl : string; url : string }.
End Owner.

Module RepoItem.
Record t := {
  id : number;
  name : string;
  fullName : string;
  url : string;
  description : option string;
  stars : number;
  language : option string;
  owner : Owner.t;
}.
End RepoItem.

(** A parsed URL; only its query parameters are consulted. *)
Record URL := { searchParams : list (string * string) }.

(** [url.searchParams.get(name)]: the value of the first parameter with
    that name, or [null]. *)
Fixpoint searchParams_get (ps : list (string * string)) (name : string) : option string :=
  match ps with
  | [] => None
  | (k, v) :: r => if decide (k = name) then Some v else searchParams_get r name
  end.

(** Functions of the host platform that the program calls and whose
    definitions are not part of it. *)
Record Builtins := {
  (** [Number(s)] on a string *)
  Number_of_string : string → number;
  (** [String(n)] on a number *)
  Number_toString : number → string;
  (** [new URL(s)]: throws on a string that is not an absolute URL *)
  URL_new : string → completion URL;
  (** [path.resolve(process.cwd(), "..", name)] *)
  resolve_above_cwd : string → string;
  (** the error that building a response with a body throws for a status
      it refuses *)
  Response_error : Z → exn;
}.

Section Program.

Context (js : Builtins).

(** [String(v)].  An array is joined with commas, its elements converted
    in order, [null] and [undefined] giving the empty text.  An object
    is converted by its [toString] method: the inherited one gives
    [object Object]; an own property of that name, which in parsed JSON
    is never a function, hides it, and then neither [toString] nor
    [valueOf] yields a primitive and the conversion throws. *)
Fixpoint String_of (v : value) : completion string :=
  match v with
  | Undefined => Normal "undefined"
  | Null => Normal "null"
  | Bool true => Normal "true"
  | Bool false => Normal "false"
  | Num n => Normal (Number_toString js n)
  | Str s => Normal s
  | Arr elems =>
      parts ← (fix each (l : list value) : completion (list string) :=
                 match l with
                 | [] => Normal []
                 | e :: r =>
                     s ← (if nullish e then Normal EmptyString else String_of e) ;;;
                     rest ← each r ;;;
                     Normal (s :: rest)
                 end) elems ;;;
      Normal (Text.join "," parts)
  | Obj props =>
      if has_own "toString" props then Throw not_primitive
      else Normal "[object Object]"
  end.

(** *** The Link-header parsers *)

(** The cursor object [info]: property name to page number. *)
Abbreviation PageInfo := (gmap string number).

(** [info[rel] = n] on an object created by a literal: an own property
    is written, except for the name [__proto__], whose inherited setter
    ignores a number. *)
Definition set_prop (info : PageInfo) (rel : string) (n : number) : PageInfo :=
  if decide (rel = "__proto__") then info else <[rel := n]> info.

(** [const pageNum = pageStr ? Number(pageStr) : undefined] *)
Definition page_number (pageStr : option string) : option number :=
  match pageStr with
  | Some s => if truthy_string s then Some (Number_of_string js s) else None
  | None => None
  end.

(** [!pageNum] is false *)
Definition truthy_page (pageNum : option number) : bool :=
  match pageNum with
  | Some n => truthy_number n
  | None => false
  end.

(** [for (const x of l) body], threading the loop state. *)
Fixpoint for_of {S A} (body : S → A → completion S) (s : S) (l : list A) : completion S :=
  match l with
  | [] => Normal s
  | x :: r => s' ← body s x ;;; for_of body s' r
  end.

(** One iteration of the loop of [parseLinkHeader]. *)
Definition parseLinkHeader_entry (info : PageInfo) (p : string) : completion PageInfo :=
  let section := Text.split Text.semicolon p in
  if (length section <? 2)%nat then Normal info
  else
    let urlPart := Text.strip_angles (Text.trim (nth 0 section EmptyString)) in
    let relMatch := Text.match_rel (Text.trim (nth 1 section EmptyString)) in
    try_catch
      (url ← URL_new js urlPart ;;;
       let pageStr := searchParams_get (searchParams url) "page" in
       let pageNum := page_number pageStr in
       match relMatch, pageNum with
       | Some rel, Some n =>
           if truthy_number n then Normal (set_prop info rel n) else Normal info
       | _, _ => Normal info
       end)
      (λ _, Normal info).

Definition parseLinkHeader (link : option string) : completion PageInfo :=
  match link with
  | None => Normal ∅
  | Some l =>
      if truthy_string l then for_of parseLinkHeader_entry ∅ (Text.split Text.comma l)
      else Normal ∅
  end.

(** A loop whose body may [return]: [Some v] leaves the function with
    [v], [None] goes on with the next element. *)
Fixpoint for_of_return {A R} (body : A → completion (option R)) (l : list A)
  : completion (option R) :=
  match l with
  | [] => Normal None
  | x :: r =>
      o ← body x ;;;
      match o with
      | Some v => Normal (Some v)
      | None => for_of_return body r
      end
  end.

(** One iteration of the loop of [parseNextFromLink]. *)
Definition parseNextFromLink_entry (p : string) : completion (option number) :=
  let section := Text.split Text.semicolon p in
  if (length section <? 2)%nat then Normal None
  else
    let urlPart := Text.strip_angles (Text.trim (nth 0 section EmptyString)) in
    let relMatch := Text.match_rel (Text.trim (nth 1 section EmptyString)) in
    match relMatch with
    | None => Normal None
    | Some rel =>
        if negb (bool_decide (rel = "next")) then Normal None
        else
          try_catch
            (url ← URL_new js urlPart ;;;
             let pageStr := searchParams_get (searchParams url) "page" in
             let pageNum := page_number pageStr in
             match pageNum with
             | Some n =>
                 if truthy_number n && Number_isFinite n then Normal (Some n)
                 else Normal None
             | None => Normal None
             end)
            (λ _, Normal None)
    end.

(** The result [None] is [undefined]. *)
Definition parseNextFromLink (link : option string) : completion (option number) :=
  match link with
  | None => Normal None
  | Some l =>
      if truthy_string l then for_of_return parseNextFromLink_entry (Text.split Text.comma l)
      else Normal None
  end.

(** *** The CSV serializers *)

Definition quoted (s : string) : string :=
  String Text.dquote (Text.double_quotes s +:+ String Text.dquote EmptyString).

(** [csvEscape] of the export route. *)
Definition csvEscape (val : value) : completion string :=
  if nullish val then Normal EmptyString
  else
    s ← String_of val ;;;
    let s := Text.collapse_newlines s in
    if Text.includes Text.dquote s || Text.includes Text.comma s
       || Text.includes Text.LF s
    then Normal (quoted s)
    else Normal s.

Definition toCSV_headers : list string :=
  [ "id"; "full_name"; "html_url"; "description"; "stargazers_count";
    "language"; "owner_login"; "owner_html_url" ].

(** The array literal [row]: its eight elements are computed in order,
    and the first conversion that throws ends it. *)
Definition toCSV_row (r : value) : completion (list string) :=
  c1 ← csvEscape (get_opt r "id") ;;;
  c2 ← csvEscape (coalesce (coalesce (get_opt r "full_name") (get_opt r "name"))
                    (Str EmptyString)) ;;;
  c3 ← csvEscape (coalesce (get_opt r "html_url") (Str EmptyString)) ;;;
  c4 ← csvEscape (coalesce (get_opt r "description") (Str EmptyString)) ;;;
  c5 ← csvEscape (coalesce (get_opt r "stargazers_count") (Str EmptyString)) ;;;
  c6 ← csvEscape (coalesce (get_opt r "language") (Str EmptyString)) ;;;
  c7 ← csvEscape (coalesce (get_opt (get_opt r "owner") "login") (Str EmptyString)) ;;;
  c8 ← csvEscape (coalesce (get_opt (get_opt r "owner") "html_url") (Str EmptyString)) ;;;
  Normal [c1; c2; c3; c4; c5; c6; c7; c8].

Definition newline : string := String Text.LF EmptyString.

(** [toCSV] of the export route, over raw remote records: the loop
    pushes one line per record, and the lines are joined at the end. *)
Definition toCSV (all : list value) : completion string :=
  lines ← for_of (λ lines r,
                    row ← toCSV_row r ;;;
                    Normal (lines ++ [Text.join "," row]))
             [Text.join "," toCSV_headers] all ;;;
  Normal (Text.join newline lines +:+ newline).

(** [toCSVFromRepos] of the dashboard page, over normalized items. *)
Definition toCSVFromRepos_headers : list string :=
  [ "id"; "full_name"; "url"; "description"; "stars"; "language";
    "owner_login"; "owner_url" ].

(** The local function [esc] of [toCSVFromRepos]. *)
Definition esc (val : value) : completion string :=
  if nullish val then Normal EmptyString
  else
    s ← String_of val ;;;
    let s := Text.collapse_newlines s in
    if Text.includes Text.dquote s || Text.includes Text.comma s
       || Text.includes Text.LF s
    then Normal (quoted s)
    else Normal s.

(** A [string | null] field as a value. *)
Definition nullable (o : option string) : value :=
  match o with
  | Some s => Str s
  | None => Null
  end.

Definition toCSVFromRepos_row (r : RepoItem.t) : completion (list string) :=
  c1 ← esc (Num (RepoItem.id r)) ;;;
  c2 ← esc (Str (RepoItem.fullName r)) ;;;
  c3 ← esc (Str (RepoItem.url r)) ;;;
  c4 ← esc (coalesce (nullable (RepoItem.description r)) (Str EmptyString)) ;;;
  c5 ← esc (Num (RepoItem.stars r)) ;;;
  c6 ← esc (coalesce (nullable (RepoItem.language r)) (Str EmptyString)) ;;;
  c7 ← esc (Str (Owner.login (RepoItem.owner r))) ;;;
  c8 ← esc (Str (Owner.url (RepoItem.owner r))) ;;;
  Normal [c1; c2; c3; c4; c5; c6; c7; c8].

Definition toCSVFromRepos (repos : list RepoItem.t) : completion string :=
  lines ← for_of (λ lines r,
                    row ← toCSVFromRepos_row r ;;;
                    Normal (lines ++ [Text.join "," row]))
             [Text.join "," toCSVFromRepos_headers] repos ;;;
  Normal (Text.join newline lines +:+ newline).

(** *** Normalisation of a raw record (the [GET] handler) *)

(** The arrow function mapped over the response body.  Reading
    [r.owner.login] throws when [r.owner] is absent. *)
Definition normalize (r : value) : completion value :=
  id ← get r "id" ;;;
  name ← get r "name" ;;;
  full_name ← get r "full_name" ;;;
  html_url ← get r "html_url" ;;;
  description ← get r "description" ;;;
  stargazers_count ← get r "stargazers_count" ;;;
  language ← get r "language" ;;;
  owner ← get r "owner" ;;;
  login ← get owner "login" ;;;
  avatar_url ← get owner "avatar_url" ;;;
  owner_html_url ← get owner "html_url" ;;;
  Normal (Obj [ ("id", id);
                ("name", name);
                ("fullName", full_name);
                ("url", html_url);
                ("description", description);
                ("stars", stargazers_count);
                ("language", language);
                ("owner", Obj [ ("login", login);
                                ("avatarUrl", avatar_url);
                                ("url", owner_html_url) ]) ]).

(** What [JSON.stringify] keeps of a value: a property whose value is
    [undefined] is left out, an [undefined] array element becomes
    [null]. *)
Fixpoint serialized (v : value) : value :=
  match v with
  | Arr elems =>
      Arr ((fix each (l : list value) : list value :=
              match l with
              | [] => []
              | Undefined :: r => Null :: each r
              | e :: r => serialized e :: each r
              end) elems)
  | Obj props =>
      Obj ((fix each (l : list (string * value)) : list (string * value) :=
              match l with
              | [] => []
              | (_, Undefined) :: r => each r
              | (k, e) :: r => (k, serialized e) :: each r
              end) props)
  | Num n => if Number_isFinite n then v else Null
  | _ => v
  end.

(** *** The export route *)

Inductive Format := json | csv.

Definition Format_string (f : Format) : string :=
  match f with
  | json => "json"
  | csv => "csv"
  end.

(** The three values the request URL is built from:
    [.../users/<username>/starred?page=<page>&per_page=<per_page>]. *)
Record request := {
  req_username : string;
  req_page : number;
  req_per_page : Z;
}.

(** What the handler reads of a fetched response: [res.status],
    [await res.text()], [await res.json()] (which throws on a body that
    is not JSON) and [res.headers.get("link")]. *)
Record response := {
  status : Z;
  text : string;
  body_json : completion value;
  link : option string;
}.

(** [res.ok] *)
Definition ok (res : response) : bool :=
  (200 <=? status res) && (status res <=? 299).

(** The remote source: a state, and [fetch], which answers a request,
    may change the state, and may fail (a rejected promise). *)
Context {World : Type} (fetch : World → request → World * completion response).

(** A reply built by [NextResponse.json]: the body and the status
    handed over (200 when none is given). *)
Record NextResponse := { reply_body : value; reply_status : Z }.

(** The statuses of a response that has no body. *)
Definition null_body_status (status : Z) : bool :=
  (status =? 101) || (status =? 103) || (status =? 204) || (status =? 205)
  || (status =? 304).

(** [NextResponse.json(body, { status })]: the response is built with the
    JSON text of the body, and building it throws for a status outside
    200 to 599 and for a status of a response without body. *)
Definition NextResponse_json (body : value) (status : Z) : completion NextResponse :=
  if (200 <=? status) && (status <=? 599) && negb (null_body_status status)
  then Normal {| reply_body := body; reply_status := status |}
  else Throw (Response_error js status).

(** The text handed to [fs.writeFile]: the CSV text, or
    [JSON.stringify(all)], which is kept as the array it serializes. *)
Inductive file_text :=
| CsvText (s : string)
| JsonText (all : list value).

(** How the loop is left: by the [return] of the error branch, or by
    [break] or the end of the counting with the accumulated array. *)
Inductive loop_exit :=
| Returned (r : NextResponse)
| Finished (all : list value).

(** The reply of the branch [if (!res.ok)], with the status of the
    page handed on. *)
Definition api_error (res : response) : completion NextResponse :=
  NextResponse_json
    (Obj [ ("error",
            Str ("GitHub API error (" +:+ pretty (status res) +:+ "): "
                 +:+ text res)) ])
    (status res).

(** [if (Array.isArray(chunk) && chunk.length > 0) all.push(...chunk)] *)
Definition push_chunk (all : list value) (chunk : value) : list value :=
  match chunk with
  | Arr elems => if (0 <? length elems)%nat then all ++ elems else all
  | _ => all
  end.

(** The loop [for (let i = 0; i < 100; i++)], with [left] the number of
    iterations still allowed, [100 - i].  The log collects the requests
    in the order they are made. *)
Fixpoint pages_loop (username : string) (left : nat) (w : World)
    (log : list request) (page : number) (all : list value)
  : World * list request * completion loop_exit :=
  match left with
  | O => (w, log, Normal (Finished all))
  | S left' =>
      let rq := {| req_username := username; req_page := page;
                   req_per_page := 100 |} in
      let '(w1, fetched) := fetch w rq in
      let log1 := log ++ [rq] in
      match fetched with
      | Throw e => (w1, log1, Throw e)
      | Normal res =>
          if negb (ok res)
          then (w1, log1, r ← api_error res ;;; Normal (Returned r))
          else
            match body_json res with
            | Throw e => (w1, log1, Throw e)
            | Normal chunk =>
                let all1 := push_chunk all chunk in
                match parseNextFromLink (link res) with
                | Throw e => (w1, log1, Throw e)
                | Normal nextPage =>
                    match nextPage with
                    | Some n =>
                        if truthy_number n
                        then pages_loop username left' w1 log1 n all1
                        else (w1, log1, Normal (Finished all1))
                    | None => (w1, log1, Normal (Finished all1))
                    end
                end
            end
      end
  end.

(** What a run of the handler leaves behind. *)
Record outcome := {
  reply : NextResponse;
  requests : list request;
  written : list (string * file_text);
  world_after : World;
}.

(** [error?.issues?.[0]?.message || error?.message || "Unknown error"]
    for an error thrown after validation (it has no [issues]). *)
Definition error_message (e : exn) : string :=
  if truthy_string (message e) then message e else "Unknown error".

(** The [POST] handler, from the point where the request body has been
    validated into [username] and [format]: what the body of [try]
    returns, with the files it has written by then, or throws, and the
    reply of [catch]. *)
Definition POST (username : string) (format : Format) (w : World) : outcome :=
  let '(w1, log, exit) := pages_loop username 100 w [] (num_of_Z 1) [] in
  let tried : completion (NextResponse * list (string * file_text)) :=
    x ← exit ;;;
    match x with
    | Returned r => Normal (r, [])
    | Finished all =>
        saved ← match format with
                | csv =>
                    text ← toCSV all ;;;
                    Normal (resolve_above_cwd js "stars.csv", CsvText text)
                | json => Normal (resolve_above_cwd js "stars.json", JsonText all)
                end ;;;
        Normal ({| reply_body :=
                     Obj [ ("ok", Bool true);
                           ("count", Num (num_of_Z (Z.of_nat (length all))));
                           ("path", Str saved.1);
                           ("format", Str (Format_string format)) ];
                   reply_status := 200 |},
                [saved])
    end in
  match tried with
  | Normal (r, files) =>
      {| reply := r; requests := log; written := files; world_after := w1 |}
  | Throw e =>
      {| reply := {| reply_body := Obj [ ("error", Str (error_message e)) ];
                     reply_status := 400 |};
         requests := log; written := []; world_after := w1 |}
  end.

End Program.

(** ** A reference host

    Executable definitions of the platform functions, used to run the
    program on concrete inputs; the properties below hold for every
    platform.  [Number] follows the StringToNumber grammar and rounds
    to the nearest binary64 value; [toString] prints the shortest
    decimal that reads back as the same number.  [URL] accepts the
    absolute addresses with scheme http, https, ws, wss or ftp whose
    authority is a plain host name with an optional port, and reads their
    query as the platform does; every other string is rejected here,
    although the platform accepts some of them (other schemes,
    credentials, IP literals, international names). *)

Module Host.

Definition code (c : ascii) : Z := Z.of_N (Ascii.N_of_ascii c).

(** The value of a digit in the given base, letters in either case. *)
Definition digit (base : Z) (c : ascii) : option Z :=
  let n := code c in
  let v := if (48 <=? n) && (n <=? 57) then n - 48
           else if (97 <=? n) && (n <=? 122) then n - 87
           else if (65 <=? n) && (n <=? 90) then n - 55
           else base in
  if v <? base then Some v else None.

Fixpoint digits_from (base acc : Z) (l : list ascii) : option Z :=
  match l with
  | [] => Some acc
  | c :: r =>
      match digit base c with
      | Some v => digits_from base (acc * base + v) r
      | None => None
      end
  end.

(** A non-empty run of digits. *)
Definition numeral (base : Z) (l : list ascii) : option Z :=
  match l with
  | [] => None
  | _ => digits_from base 0 l
  end.

(** A possibly empty run of decimal digits. *)
Definition digits_opt (l : list ascii) : option Z := digits_from 10 0 l.

(** The binary64 value nearest to [n / d], for [0 <= n] and [0 < d]:
    the quotient is taken with more than 53 bits and one sticky bit. *)
Definition round_ratio (neg : bool) (n d : Z) : number :=
  if n =? 0 then S754_zero neg
  else
    let s := Z.max 0 (64 + Z.log2 d - Z.log2 n) in
    let q := (n * 2 ^ s) / d in
    let r := (n * 2 ^ s) mod d in
    let m := 2 * q + (if r =? 0 then 0 else 1) in
    binary_normalize 53 1024 (if neg then - m else m) (- s - 1) neg.

(** The binary64 value nearest to [m * 10 ^ e]. *)
Definition round_decimal (neg : bool) (m e : Z) : number :=
  if 0 <=? e then round_ratio neg (m * 10 ^ e) 1
  else round_ratio neg m (10 ^ (- e)).

(** Splitting a list at the first element satisfying [p]. *)
Fixpoint break_at (p : ascii → bool) (l : list ascii) : list ascii * option (list ascii) :=
  match l with
  | [] => ([], None)
  | c :: r =>
      if p c then ([], Some r)
      else let '(a, b) := break_at p r in (c :: a, b)
  end.

Definition is_char (x : ascii) (c : ascii) : bool := Text.char_eqb c x.

Definition take_sign (l : list ascii) : bool * list ascii :=
  match l with
  | c :: r =>
      if is_char "-" c then (true, r)
      else if is_char "+" c then (false, r)
      else (false, l)
  | [] => (false, l)
  end.

(** An exponent part: an optional sign and at least one digit. *)
Definition exponent (l : list ascii) : option Z :=
  let '(neg, ds) := take_sign l in
  match numeral 10 ds with
  | Some v => Some (if neg then - v else v)
  | None => None
  end.

(** An unsigned decimal literal: digits, an optional fraction and an
    optional exponent; at least one digit before or after the point. *)
Definition unsigned_decimal (neg : bool) (l : list ascii) : number :=
  let '(mant, ex) := break_at (λ c, is_char "e" c || is_char "E" c) l in
  let '(int, fr) := break_at (is_char ".") mant in
  let frac := default [] fr in
  match ex with
  | Some [] => S754_nan
  | _ =>
      match digits_opt int, digits_opt frac,
            (match ex with Some x => exponent x | None => Some 0 end) with
      | Some _, Some _, Some e =>
          match int, frac with
          | [], [] => S754_nan
          | _, _ =>
              match digits_opt (int ++ frac) with
              | Some m => round_decimal neg m (e - Z.of_nat (length frac))
              | None => S754_nan
              end
          end
      | _, _, _ => S754_nan
      end
  end.

Definition Infinity_text : list ascii := Text.chars "Infinity".

(** [Number(s)] *)
Definition Number (s : string) : number :=
  let l := Text.chars (Text.trim s) in
  match l with
  | [] => S754_zero false
  | c0 :: c1 :: r =>
      if is_char "0" c0 && (is_char "x" c1 || is_char "X" c1)
      then from_option (λ v, round_ratio false v 1) S754_nan (numeral 16 r)
      else if is_char "0" c0 && (is_char "o" c1 || is_char "O" c1)
      then from_option (λ v, round_ratio false v 1) S754_nan (numeral 8 r)
      else if is_char "0" c0 && (is_char "b" c1 || is_char "B" c1)
      then from_option (λ v, round_ratio false v 1) S754_nan (numeral 2 r)
      else
        let '(neg, u) := take_sign l in
        if bool_decide (u = Infinity_text) then S754_infinity neg
        else unsigned_decimal neg u
  | _ =>
      let '(neg, u) := take_sign l in
      unsigned_decimal neg u
  end.

(** *** Printing a number *)

(** A positive finite number [m * 2 ^ e] as a ratio of integers. *)
Definition ratio_of (m : positive) (e : Z) : Z * Z :=
  if 0 <=? e then (Z.pos m * 2 ^ e, 1) else (Z.pos m, 2 ^ (- e)).

(** [N / D < 10 ^ n] *)
Definition below_pow10 (N D n : Z) : bool :=
  if 0 <=? n then N <? 10 ^ n * D else N * 10 ^ (- n) <? D.

Fixpoint first_pow10_above (fuel : nat) (N D n : Z) : Z :=
  match fuel with
  | O => n
  | S fuel' => if below_pow10 N D n then n else first_pow10_above fuel' N D (n + 1)
  end.

(** The least [n] with [N / D < 10 ^ n], searched upwards from an
    estimate taken from the binary logarithms. *)
Definition decimal_exponent (N D : Z) : Z :=
  let lg := Z.log2 N - Z.log2 D in
  first_pow10_above 8 N D ((lg * 30103) / 100000 - 2).

(** [N / D] scaled by [10 ^ (- p)], as a ratio. *)
Definition scaled (N D p : Z) : Z * Z :=
  if 0 <=? p then (N, D * 10 ^ p) else (N * 10 ^ (- p), D).

Definition same_number (a b : number) : bool :=
  match a, b with
  | S754_finite sa ma ea, S754_finite sb mb eb =>
      Bool.eqb sa sb && (Z.pos ma =? Z.pos mb) && (ea =? eb)
  | _, _ => false
  end.

(** The [k]-digit decimal [s * 10 ^ p] nearest to [x = N / D] among
    those that read back as [x], if there is one. *)
Definition candidate (x : number) (N D n k : Z) : option (Z * Z) :=
  let p := n - k in
  let '(A, B) := scaled N D p in
  let lo := A / B in
  let fr := A mod B in
  let hi := lo + 1 in
  let ok_lo := same_number (round_decimal false lo p) x in
  let ok_hi := same_number (round_decimal false hi p) x in
  let prefer_lo := (2 * fr <? B) || ((2 * fr =? B) && Z.even lo) in
  if ok_lo && ok_hi then Some (if prefer_lo then lo else hi, p)
  else if ok_lo then Some (lo, p)
  else if ok_hi then Some (hi, p)
  else None.

Fixpoint shortest (fuel : nat) (x : number) (N D n k : Z) : Z * Z :=
  match fuel with
  | O => (0, 0)
  | S fuel' =>
      match candidate x N D n k with
      | Some sp => sp
      | None => shortest fuel' x N D n (k + 1)
      end
  end.

Fixpoint strip_zeros (fuel : nat) (s p : Z) : Z * Z :=
  match fuel with
  | O => (s, p)
  | S fuel' =>
      if (s mod 10 =? 0) && negb (s =? 0) then strip_zeros fuel' (s / 10) (p + 1)
      else (s, p)
  end.

Fixpoint zeros (n : nat) : string :=
  match n with
  | O => EmptyString
  | S n' => String "0" (zeros n')
  end.

Fixpoint take_str (n : nat) (s : string) : string :=
  match n, s with
  | S n', String c r => String c (take_str n' r)
  | _, _ => EmptyString
  end.

Fixpoint drop_str (n : nat) (s : string) : string :=
  match n, s with
  | S n', String _ r => drop_str n' r
  | _, _ => s
  end.

(** The decimal digits [ds] with the point after [n] of them. *)
Definition layout (ds : string) (n : Z) : string :=
  let k := Z.of_nat (String.length ds) in
  if (k <=? n) && (n <=? 21) then ds +:+ zeros (Z.to_nat (n - k))
  else if (0 <? n) && (n <=? 21)
  then take_str (Z.to_nat n) ds +:+ "." +:+ drop_str (Z.to_nat n) ds
  else if (-6 <? n) && (n <=? 0) then "0." +:+ zeros (Z.to_nat (- n)) +:+ ds
  else
    let e := n - 1 in
    let ex := (if e <? 0 then "-" else "+") +:+ pretty (Z.abs e) in
    if k =? 1 then ds +:+ "e" +:+ ex
    else take_str 1 ds +:+ "." +:+ drop_str 1 ds +:+ "e" +:+ ex.

(** [String(x)] on a number *)
Definition toString (x : number) : string :=
  match x with
  | S754_nan => "NaN"
  | S754_zero _ => "0"
  | S754_infinity false => "Infinity"
  | S754_infinity true => "-Infinity"
  | S754_finite neg m e =>
      let '(N, D) := ratio_of m e in
      let x' := binary_normalize 53 1024 (Z.pos m) e false in
      let n := decimal_exponent N D in
      let '(s0, p0) := shortest 17 x' N D n 1 in
      let '(s, p) := strip_zeros 400 s0 p0 in
      let ds := pretty s in
      (if neg then "-" else EmptyString)
      +:+ layout ds (Z.of_nat (String.length ds) + p)
  end.

(** *** Parsing an address *)

Definition is_alpha (c : ascii) : bool :=
  let n := code c in
  ((97 <=? n) && (n <=? 122)) || ((65 <=? n) && (n <=? 90)).

Definition is_digit (c : ascii) : bool :=
  let n := code c in (48 <=? n) && (n <=? 57).

Definition lower (c : ascii) : ascii :=
  let n := code c in
  if (65 <=? n) && (n <=? 90) then Ascii.ascii_of_N (Z.to_N (n + 32)) else c.

Definition C0_or_space (c : ascii) : bool := code c <=? 32.

Definition tab_or_newline (c : ascii) : bool :=
  let n := code c in (n =? 9) || (n =? 10) || (n =? 13).

Fixpoint drop_while (p : ascii → bool) (l : list ascii) : list ascii :=
  match l with
  | c :: r => if p c then drop_while p r else l
  | [] => []
  end.

Fixpoint take_while (p : ascii → bool) (l : list ascii) : list ascii :=
  match l with
  | c :: r => if p c then c :: take_while p r else []
  | [] => []
  end.

Definition drop_while_end (p : ascii → bool) (l : list ascii) : list ascii :=
  rev (drop_while p (rev l)).

Definition special_schemes : list string := ["http"; "https"; "ws"; "wss"; "ftp"].

Definition scheme_char (c : ascii) : bool :=
  is_alpha c || is_digit c || is_char "+" c || is_char "-" c || is_char "." c.

Definition slash (c : ascii) : bool := is_char "/" c || is_char "\" c.

Definition ends_authority (c : ascii) : bool :=
  slash c || is_char "?" c || is_char "#" c.

Definition name_char (c : ascii) : bool :=
  is_alpha c || is_digit c || is_char "-" c || is_char "." c.

(** The last label of a host name, a final dot set aside. *)
Definition last_label (h : list ascii) : list ascii :=
  let h' := match rev h with
            | c :: r => if is_char "." c then r else c :: r
            | [] => []
            end in
  rev (take_while (λ c, negb (is_char "." c)) h').

(** Some label of the host name starts with [xn--]: an encoded
    international name, which the platform decodes and may refuse. *)
Fixpoint encoded_label (at_start : bool) (h : list ascii) : bool :=
  match h with
  | [] => false
  | c :: r =>
      (at_start
       && match map lower (take 4 h) with
          | [x; n; d1; d2] =>
              is_char "x" x && is_char "n" n && is_char "-" d1 && is_char "-" d2
          | _ => false
          end)
      || encoded_label (is_char "." c) r
  end.

(** A plain host name: letters, digits, hyphens and dots, its last
    label starting with a letter (so that it is not read as an IPv4
    address) and no label being an encoded international name. *)
Definition plain_host (h : list ascii) : bool :=
  forallb name_char h
  && negb (encoded_label true h)
  && match last_label h with
     | c :: _ => is_alpha c
     | [] => false
     end.

Definition valid_port (p : list ascii) : bool :=
  match digits_opt p with
  | Some v => v <=? 65535
  | None => false
  end.

Definition valid_authority (a : list ascii) : bool :=
  let '(h, p) := break_at (is_char ":") a in
  plain_host h && from_option valid_port true p.

(** Decoding the percent escapes of a query component; a plus sign is
    a space.  An escaped byte above 127 is read with the escaped byte
    after it when the pair encodes a code unit below 256; every other
    escaped byte above 127 stands for text outside the alphabet of the
    model (or for the replacement character) and is rendered as a
    question mark. *)
Fixpoint percent_decode (l : list ascii) : list ascii :=
  match l with
  | [] => []
  | c :: r =>
      if is_char "+" c then " "%char :: percent_decode r
      else if is_char "%" c then
        match r with
        | h1 :: h2 :: r2 =>
            match numeral 16 [h1; h2] with
            | Some b =>
                if b <? 128 then Ascii.ascii_of_N (Z.to_N b) :: percent_decode r2
                else
                  match r2 with
                  | p :: g1 :: g2 :: r3 =>
                      match numeral 16 [g1; g2] with
                      | Some b2 =>
                          if is_char "%" p && ((b =? 194) || (b =? 195))
                             && (128 <=? b2) && (b2 <? 192)
                          then Ascii.ascii_of_N (Z.to_N ((b - 192) * 64 + (b2 - 128)))
                               :: percent_decode r3
                          else "?"%char :: percent_decode r2
                      | None => "?"%char :: percent_decode r2
                      end
                  | _ => "?"%char :: percent_decode r2
                  end
            | None => c :: percent_decode r
            end
        | _ => c :: percent_decode r
        end
      else c :: percent_decode r
  end.

Definition decode_component (l : list ascii) : string :=
  Text.of_chars (percent_decode l).

(** The name and value pairs of a query string. *)
Definition query_pairs (q : string) : list (string * string) :=
  omap (λ piece : string,
          match piece with
          | EmptyString => None
          | _ =>
              let '(k, v) := break_at (is_char "=") (Text.chars piece) in
              Some (decode_component k, decode_component (default [] v))
          end)
       (Text.split "&"%char q).

Definition invalid_url : exn := Error "Invalid URL".

(** [new URL(s)] *)
Definition URL (s : string) : completion URL :=
  let l := filter (λ c, negb (tab_or_newline c))
             (drop_while_end C0_or_space (drop_while C0_or_space (Text.chars s))) in
  let '(sch, after) := break_at (is_char ":") l in
  match sch, after with
  | c :: _, Some rest =>
      if is_alpha c && forallb scheme_char sch
         && bool_decide (Text.of_chars (map lower sch) ∈ special_schemes)
      then
        let rest1 := drop_while slash rest in
        let authority := take_while (λ c, negb (ends_authority c)) rest1 in
        let tail := drop_while (λ c, negb (ends_authority c)) rest1 in
        if valid_authority authority then
          let before_fragment := take_while (λ c, negb (is_char "#" c)) tail in
          let '(_, q) := break_at (is_char "?") before_fragment in
          Normal {| searchParams := query_pairs (Text.of_chars (default [] q)) |}
        else Throw invalid_url
      else Throw invalid_url
  | _, _ => Throw invalid_url
  end.

(** The errors of the response constructor, with the messages of Node:
    a TypeError for a status of a response without body, a RangeError for
    a status outside 200 to 599. *)
Definition Response_error (status : Z) : exn :=
  if (200 <=? status) && (status <=? 599)
  then Error ("Response constructor: Invalid response status code " +:+ pretty status)
  else Error ("init[" +:+ String Text.dquote
                ("status" +:+ String Text.dquote
                   "] must be in the range of 200 to 599, inclusive.")).

End Host.

(** The reference host as an instance of the platform interface; the
    working directory is taken to be [/srv/stars/app]. *)
Definition host : Builtins := {|
  Number_of_string := Host.Number;
  Number_toString := Host.toString;
  URL_new := Host.URL;
  resolve_above_cwd := λ name, "/srv/stars/" +:+ name;
  Response_error := Host.Response_error;
|}.

(** ** Vocabulary of the statements *)

(** The text before the first line feed. *)
Fixpoint first_row (s : string) : string :=
  match s with
  | EmptyString => EmptyString
  | String a r => if Text.char_eqb a Text.LF then EmptyString else String a (first_row r)
  end.

(** A string literal between double quotes. *)
Definition in_quotes (s : string) : string :=
  String Text.dquote (s +:+ String Text.dquote EmptyString).

Section Vocabulary.

Context (js : Builtins).

(** The entry [p] of a Link header offers the relation name [rel] with
    the page number [n]: it has at least two segments, the second one
    matches the [rel] pattern, the first one is an address the platform
    accepts, and its [page] parameter is a non-empty string that
    [Number] converts to [n]. *)
Definition link_entry_yields (p rel : string) (n : number) : Prop :=
  ∃ s0 s1 rest url pageStr,
    Text.split Text.semicolon p = s0 :: s1 :: rest
    ∧ Text.match_rel (Text.trim s1) = Some rel
    ∧ URL_new js (Text.strip_angles (Text.trim s0)) = Normal url
    ∧ searchParams_get (searchParams url) "page" = Some pageStr
    ∧ pageStr ≠ EmptyString
    ∧ Number_of_string js pageStr = n.

(** The property that one iteration of [parseLinkHeader] writes, as a
    value: relation name and page number. *)
Definition link_entry (p : string) : option (string * number) :=
  match Text.split Text.semicolon p with
  | s0 :: s1 :: _ =>
      match Text.match_rel (Text.trim s1),
            URL_new js (Text.strip_angles (Text.trim s0)) with
      | Some rel, Normal url =>
          match page_number js (searchParams_get (searchParams url) "page") with
          | Some n => if truthy_number n then Some (rel, n) else None
          | None => None
          end
      | _, _ => None
      end
  | _ => None
  end.

Definition write_entry (info : gmap string number) (p : string) : gmap string number :=
  match link_entry p with
  | Some (rel, n) => set_prop info rel n
  | None => info
  end.

(** What one iteration of [parseNextFromLink] returns: the page number
    of an entry whose relation is next and whose number is finite. *)
Definition next_of_entry (p : string) : option number :=
  match link_entry p with
  | Some (rel, n) =>
      if bool_decide (rel = "next") && Number_isFinite n then Some n else None
  | None => None
  end.

(** The first entry, in header order, that yields a next page. *)
Fixpoint first_next (parts : list string) : option number :=
  match parts with
  | [] => None
  | p :: r =>
      match next_of_entry p with
      | Some n => Some n
      | None => first_next r
      end
  end.

(** No two of the entries write one property with different numbers. *)
Definition consistent_entries (parts : list string) : Prop :=
  ∀ p1 p2 rel n1 n2,
    p1 ∈ parts → p2 ∈ parts →
    link_entry p1 = Some (rel, n1) → link_entry p2 = Some (rel, n2) → n1 = n2.

Context {World : Type} (fetch : World → request → World * completion response).

Definition page_request (username : string) (page : number) : request :=
  {| req_username := username; req_page := page; req_per_page := 100 |}.

(** The records a page adds to the accumulated array. *)
Definition page_items (res : response) : list value :=
  match body_json res with
  | Normal (Arr elems) => elems
  | _ => []
  end.

(** A successful page that points on: success status, a JSON body, and
    a Link header in which the parser finds the next page [n]. *)
Definition page_with_next (res : response) (n : number) : Prop :=
  ok res = true
  ∧ (∃ chunk, body_json res = Normal chunk)
  ∧ parseNextFromLink js (link res) = Normal (Some n)
  ∧ truthy_number n = true.

(** A successful page that ends the chain: no next page is found. *)
Definition last_page (res : response) : Prop :=
  ok res = true
  ∧ (∃ chunk, body_json res = Normal chunk)
  ∧ ∃ o, parseNextFromLink js (link res) = Normal o
         ∧ truthy_page o = false.

(** [walk username w page rs w' page']: from the state [w], asking for
    [page] and then for each page pointed to, the remote answers with
    the pages [rs], each pointing on, and is left in the state [w'] with
    [page'] the page to ask for next. *)
Inductive walk (username : string)
  : World → number → list response → World → number → Prop :=
| walk_nil w page : walk username w page [] w page
| walk_cons w page w1 res n rs w2 page2 :
    fetch w (page_request username page) = (w1, Normal res) →
    page_with_next res n →
    walk username w1 n rs w2 page2 →
    walk username w page (res :: rs) w2 page2.

(** The chain of next pointers never runs out from [(w, page)]: some
    set of states contains it and every fetch from a state of the set
    answers with a page that points on into the set. *)
Definition endless (username : string) (w : World) (page : number) : Prop :=
  ∃ Inv : World → number → Prop,
    Inv w page
    ∧ ∀ w0 page0, Inv w0 page0 →
        ∃ w1 res n,
          fetch w0 (page_request username page0) = (w1, Normal res)
          ∧ page_with_next res n
          ∧ Inv w1 n.

(** The reply of a completed export. *)
Definition export_reply (format : Format) (all : list value) : NextResponse :=
  {| reply_body :=
       Obj [ ("ok", Bool true);
             ("count", Num (num_of_Z (Z.of_nat (length all))));
             ("path", Str (resolve_above_cwd js
                             (match format with
                              | csv => "stars.csv"
                              | json => "stars.json"
                              end)));
             ("format", Str (Format_string format)) ];
     reply_status := 200 |}.

(** The file an export of the records [all] writes, when their text can
    be made. *)
Definition export_file (format : Format) (all : list value)
  : completion (string * file_text) :=
  match format with
  | csv =>
      text ← toCSV js all ;;;
      Normal (resolve_above_cwd js "stars.csv", CsvText text)
  | json => Normal (resolve_above_cwd js "stars.json", JsonText all)
  end.

(** The reply of the [catch] block. *)
Definition caught_reply (e : exn) : NextResponse :=
  {| reply_body := Obj [ ("error", Str (error_message e)) ]; reply_status := 400 |}.

(** A value has a string form: no object reached through arrays has a
    property of its own named toString. *)
Fixpoint stringable (v : value) : bool :=
  match v with
  | Arr elems =>
      (fix each (l : list value) : bool :=
         match l with
         | [] => true
         | e :: r => stringable e && each r
         end) elems
  | Obj props => negb (has_own "toString" props)
  | _ => true
  end.

End Vocabulary.

(** ** Concrete inputs *)

Module Sample.

(** The raw record of the normalisation example. *)
Definition raw : value :=
  Obj [ ("id", Num (num_of_Z 7));
        ("full_name", Str "a/b");
        ("stargazers_count", Num (num_of_Z 42));
        ("language", Null);
        ("owner", Obj [ ("login", Str "a");
                        ("avatar_url", Str "u");
                        ("html_url", Str "p") ]) ].

(** An entry of a Link header. *)
Definition entry (page rel : string) : string :=
  "<https://x/y?page=" +:+ page +:+ ">; rel=" +:+ in_quotes rel.

(** The header of the specification's example, and the same entries in
    the other order. *)
Definition next_then_last : string :=
  entry "2" "next" +:+ "," +:+ entry "5" "last".

Definition last_then_next : string :=
  entry "5" "last" +:+ "," +:+ entry "2" "next".

(** Two entries with the relation name next, in either order. *)
Definition next2_next3 : string :=
  entry "2" "next" +:+ "," +:+ entry "3" "next".

Definition next3_next2 : string :=
  entry "3" "next" +:+ "," +:+ entry "2" "next".

(** The integer a page number stands for. *)
Definition page_index (n : number) : Z :=
  match n with
  | S754_finite neg m e =>
      let v := if 0 <=? e then Z.pos m * 2 ^ e else Z.pos m / 2 ^ (- e) in
      if neg then - v else v
  | _ => 0
  end.

(** Page [k] of a numbered remote holds one record and points to page
    [k + 1] as long as [k] is below [last]. *)
Definition numbered_page (last k : Z) : response :=
  {| status := 200;
     text := EmptyString;
     body_json := Normal (Arr [Obj [("id", Num (num_of_Z k))]]);
     link := if k <? last then Some (entry (pretty (k + 1)) "next") else None |}.

(** A remote with [last] numbered pages; its state counts the requests
    served. *)
Definition numbered (last : Z) (w : nat) (rq : request) : nat * completion response :=
  (S w, Normal (numbered_page last (page_index (req_page rq)))).

(** The pages [k], [k + 1], ... of a numbered remote, [n] of them. *)
Fixpoint pages_from (last k : Z) (n : nat) : list response :=
  match n with
  | O => []
  | S n' => numbered_page last k :: pages_from last (k + 1) n'
  end.

(** A check, by evaluation on the reference host, that each of these
    pages is below [last] and that the parser reads its next pointer back
    as the following page number. *)
Fixpoint points_on (last k : Z) (n : nat) : bool :=
  match n with
  | O => true
  | S n' =>
      (k <? last)
      && match parseNextFromLink host (Some (entry (pretty (k + 1)) "next")) with
         | Normal (Some m) => Host.same_number m (num_of_Z (k + 1))
         | _ => false
         end
      && truthy_number (num_of_Z (k + 1))
      && (page_index (num_of_Z k) =? k)
      && points_on last (k + 1) n'
  end.

(** A remote whose every page points to page 2: a cycle. *)
Definition cyclic (w : nat) (rq : request) : nat * completion response :=
  (S w,
   Normal {| status := 200;
             text := EmptyString;
             body_json := Normal (Arr [Obj [("id", Num (req_page rq))]]);
             link := Some (entry "2" "next") |}).



(** A remote that answers every request with 304 and no body. *)
Definition not_modified : response :=
  {| status := 304;
     text := EmptyString;
     body_json := Throw (Error "Unexpected end of JSON input");
     link := None |}.


(** A record whose id is an object with a property named toString, and
    a remote whose only page holds it. *)
Definition unprintable : value :=
  Obj [ ("id", Obj [("toString", Num (num_of_Z 1))]); ("full_name", Str "a/b") ].

Definition awkward (w : nat) (rq : request) : nat * completion response :=
  (S w,
   Normal {| status := 200;
             text := EmptyString;
             body_json := Normal (Arr [unprintable]);
             link := None |}).

(** A remote whose only page holds the raw record of the example. *)
Definition single (w : nat) (rq : request) : nat * completion response :=
  (S w,
   Normal {| status := 200;
             text := EmptyString;
             body_json := Normal (Arr [raw]);
             link := None |}).

(** A remote whose only page is a JSON object, not an array. *)
Definition not_an_array : response :=
  {| status := 200;
     text := EmptyString;
     body_json := Normal (Obj [("message", Str "ok")]);
     link := None |}.

Definition odd (w : nat) (rq : request) : nat * completion response :=
  (S w, Normal not_an_array).

End Sample.

(** ** Reading a table back *)

(** A reader of one line of comma-separated fields, after RFC 4180: a
    field that opens with a double quote runs to the closing one, two
    double quotes inside it standing for one; the other fields run to the
    next comma.  [in_field] tells whether the reader is inside a quoted
    field. *)
Definition push_char (c : ascii) (fields : list string) : list string :=
  match fields with
  | f :: r => String c f :: r
  | [] => [String c EmptyString]
  end.

Fixpoint read_row (in_field : bool) (s : string) : list string :=
  match s with
  | EmptyString => [EmptyString]
  | String a r =>
      if in_field then
        if Text.char_eqb a Text.dquote then
          match r with
          | String b r' =>
              if Text.char_eqb b Text.dquote then push_char Text.dquote (read_row true r')
              else read_row false r
          | EmptyString => read_row false r
          end
        else push_char a (read_row true r)
      else if Text.char_eqb a Text.comma then EmptyString :: read_row false r
      else if Text.char_eqb a Text.dquote then read_row true r
      else push_char a (read_row false r)
  end.

(** What the serializers write for a field, given its text. *)
Definition escape (s : string) : string :=
  if Text.includes Text.dquote s || Text.includes Text.comma s
     || Text.includes Text.LF s
  then quoted s else s.

Section TableVocabulary.

Context (js : Builtins).

(** The text a value stands for in a table: nothing for [null] and
    [undefined], else its string form with the line breaks replaced. *)
Definition field_text (val : value) : completion string :=
  if nullish val then Normal EmptyString
  else s ← String_of js val ;;; Normal (Text.collapse_newlines s).

(** The eight values of a raw record that [toCSV] writes. *)
Definition record_values (r : value) : list value :=
  [ get_opt r "id";
    coalesce (coalesce (get_opt r "full_name") (get_opt r "name")) (Str EmptyString);
    coalesce (get_opt r "html_url") (Str EmptyString);
    coalesce (get_opt r "description") (Str EmptyString);
    coalesce (get_opt r "stargazers_count") (Str EmptyString);
    coalesce (get_opt r "language") (Str EmptyString);
    coalesce (get_opt (get_opt r "owner") "login") (Str EmptyString);
    coalesce (get_opt (get_opt r "owner") "html_url") (Str EmptyString) ].

(** The eight values of a normalized item that [toCSVFromRepos] writes. *)
Definition item_values (r : RepoItem.t) : list value :=
  [ Num (RepoItem.id r);
    Str (RepoItem.fullName r);
    Str (RepoItem.url r);
    coalesce (nullable (RepoItem.description r)) (Str EmptyString);
    Num (RepoItem.stars r);
    coalesce (nullable (RepoItem.language r)) (Str EmptyString);
    Str (Owner.login (RepoItem.owner r));
    Str (Owner.url (RepoItem.owner r)) ].

End TableVocabulary.

(** ** The starred route *)

(** The object a raw record is mapped to. *)
Definition normalized_record (r : value) : value :=
  Obj [ ("id", get_opt r "id");
        ("name", get_opt r "name");
        ("fullName", get_opt r "full_name");
        ("url", get_opt r "html_url");
        ("description", get_opt r "description");
        ("stars", get_opt r "stargazers_count");
        ("language", get_opt r "language");
        ("owner", Obj [ ("login", get_opt (get_opt r "owner") "login");
                        ("avatarUrl", get_opt (get_opt r "owner") "avatar_url");
                        ("url", get_opt (get_opt r "owner") "html_url") ]) ].

(** A record can be normalized: neither it nor its owner is [null] or
    [undefined]. *)
Definition has_owner (r : value) : bool :=
  negb (nullish r) && negb (nullish (get_opt r "owner")).

(** [l.map(f)] with a callback that may throw: the elements are mapped in
    order and the first error ends the mapping. *)
Fixpoint map_completion {A B} (f : A → completion B) (l : list A) : completion (list B) :=
  match l with
  | [] => Normal []
  | x :: r =>
      y ← f x ;;;
      ys ← map_completion f r ;;;
      Normal (y :: ys)
  end.

(** [data.map(normalize)] on the parsed body: only an array has a [map]
    method. *)
Definition normalize_all (data : value) : completion (list value) :=
  match data with
  | Arr elems => map_completion normalize elems
  | _ =>
      _ ← get data "map" ;;;
      Throw (Error "data.map is not a function")
  end.

(** What the handler reads of the upstream response: the response as the
    export route reads it, and the three rate-limit headers. *)
Record upstream := {
  page_response : response;
  limit_header : option string;
  remaining_header : option string;
  reset_header : option string;
}.

Section StarredRoute.

Context (js : Builtins) {World : Type}
        (fetch_upstream : World → request → World * completion upstream).

(** [h ? Number(h) : null] *)
Definition rate_value (h : option string) : value :=
  match h with
  | Some s => if truthy_string s then Num (Number_of_string js s) else Null
  | None => Null
  end.

Definition starred_reply (items : list value) (up : upstream) : NextResponse :=
  {| reply_body :=
       Obj [ ("items", Arr items);
             ("link", nullable (link (page_response up)));
             ("rate", Obj [ ("limit", rate_value (limit_header up));
                            ("remaining", rate_value (remaining_header up));
                            ("reset", rate_value (reset_header up)) ]) ];
     reply_status := 200 |}.

(** The [GET] handler, from the point where the query has been validated
    into [username], [page] and [per_page].  An error thrown on the way
    is an [Error], whose message becomes the reply. *)
Definition GET (username : string) (page : number) (per_page : Z) (w : World)
  : World * NextResponse :=
  let '(w1, fetched) :=
    fetch_upstream w {| req_username := username; req_page := page;
                        req_per_page := per_page |} in
  let result :=
    up ← fetched ;;;
    if negb (ok (page_response up)) then api_error js (page_response up)
    else
      data ← body_json (page_response up) ;;;
      normalized ← normalize_all data ;;;
      Normal (starred_reply normalized up) in
  (w1,
   match result with
   | Normal r => r
   | Throw e => {| reply_body := Obj [ ("error", Str (message e)) ];
                   reply_status := 400 |}
   end).

End StarredRoute.

(** ** The page component *)

(** [ToBoolean] on a value. *)
Definition truthy (v : value) : bool :=
  match v with
  | Undefined | Null => false
  | Bool b => b
  | Num n => truthy_number n
  | Str s => truthy_string s
  | Arr _ | Obj _ => true
  end.

(** [a || b] *)
Definition or_else (a b : value) : value := if truthy a then a else b.

(** The values a spread [...v] yields: the elements of an array, the
    characters of a string; any other value reaching a spread here is not
    iterable. *)
Definition spread (v : value) : completion (list value) :=
  match v with
  | Arr elems => Normal elems
  | Str s => Normal (map (λ c, Str (String c EmptyString)) (Text.chars s))
  | _ => Throw (Error "Spread syntax requires ...iterable[Symbol.iterator] to be a function")
  end.

(** The three values the address of the starred route is built from:
    [/api/starred?username=<username>&page=<page>&per_page=<per_page>]. *)
Record page_query := {
  q_username : string;
  q_page : number;
  q_per_page : number;
}.

Module AppPage.

(** The state of the component [Home]: the values held by its
    [useState] hooks.  [items], [error] and [rate] hold whatever the
    parsed reply gave, [null] at first. *)
Record state := {
  items : value;
  error : value;
  loading : bool;
  loadingAll : bool;
  exporting : bool;
  currentUser : option string;
  page : number;
  perPage : number;
  pageInfo : gmap string number;
  rate : value;
}.

Definition initial : state :=
  {| items := Null; error := Null; loading := false; loadingAll := false;
     exporting := false; currentUser := None; page := num_of_Z 1;
     perPage := num_of_Z 30; pageInfo := ∅; rate := Null |}.

Definition setItems (x : value) (s : state) : state :=
  {| items := x; error := error s; loading := loading s; loadingAll := loadingAll s;
     exporting := exporting s; currentUser := currentUser s; page := page s; perPage := perPage s;
     pageInfo := pageInfo s; rate := rate s |}.

Definition setError (x : value) (s : state) : state :=
  {| items := items s; error := x; loading := loading s; loadingAll := loadingAll s;
     exporting := exporting s; currentUser := currentUser s; page := page s; perPage := perPage s;
     pageInfo := pageInfo s; rate := rate s |}.

Definition setLoading (x : bool) (s : state) : state :=
  {| items := items s; error := error s; loading := x; loadingAll := loadingAll s;
     exporting := exporting s; currentUser := currentUser s; page := page s; perPage := perPage s;
     pageInfo := pageInfo s; rate := rate s |}.

Definition setLoadingAll (x : bool) (s : state) : state :=
  {| items := items s; error := error s; loading := loading s; loadingAll := x;
     exporting := exporting s; currentUser := currentUser s; page := page s; perPage := perPage s;
     pageInfo := pageInfo s; rate := rate s |}.

Definition setExporting (x : bool) (s : state) : state :=
  {| items := items s; error := error s; loading := loading s; loadingAll := loadingAll s;
     exporting := x; currentUser := currentUser s; page := page s; perPage := perPage s;
     pageInfo := pageInfo s; rate := rate s |}.

Definition setCurrentUser (x : option string) (s : state) : state :=
  {| items := items s; error := error s; loading := loading s; loadingAll := loadingAll s;
     exporting := exporting s; currentUser := x; page := page s; perPage := perPage s;
     pageInfo := pageInfo s; rate := rate s |}.

Definition setPage (x : number) (s : state) : state :=
  {| items := items s; error := error s; loading := loading s; loadingAll := loadingAll s;
     exporting := exporting s; currentUser := currentUser s; page := x; perPage := perPage s;
     pageInfo := pageInfo s; rate := rate s |}.

Definition setPerPage (x : number) (s : state) : state :=
  {| items := items s; error := error s; loading := loading s; loadingAll := loadingAll s;
     exporting := exporting s; currentUser := currentUser s; page := page s; perPage := x;
     pageInfo := pageInfo s; rate := rate s |}.

Definition setPageInfo (x : gmap string number) (s : state) : state :=
  {| items := items s; error := error s; loading := loading s; loadingAll := loadingAll s;
     exporting := exporting s; currentUser := currentUser s; page := page s; perPage := perPage s;
     pageInfo := x; rate := rate s |}.

Definition setRate (x : value) (s : state) : state :=
  {| items := items s; error := error s; loading := loading s; loadingAll := loadingAll s;
     exporting := exporting s; currentUser := currentUser s; page := page s; perPage := perPage s;
     pageInfo := pageInfo s; rate := x |}.

Section Handlers.

Context (js : Builtins) {World : Type}
        (api_starred : World → page_query → World * completion response)
        (api_export : World → string → Format → World * completion response).

(** [parseLinkHeader] on a value met at run time: [null] and the falsy
    values return the empty cursor at the first line, a string is parsed,
    any other value has no [split] method. *)
Definition parseLinkHeader_value (l : value) : completion (gmap string number) :=
  match l with
  | Undefined | Null => parseLinkHeader js None
  | Str s => parseLinkHeader js (Some s)
  | _ => if truthy l then Throw (Error "link.split is not a function")
         else Normal ∅
  end.

(** [parseLinkHeader(data.link ?? null)]; on a string, [data.link] is the
    method [String.prototype.link]. *)
Definition parseLinkHeader_of (data : value) : completion (gmap string number) :=
  match data with
  | Str _ => Throw (Error "link.split is not a function")
  | _ =>
      l ← get data "link" ;;;
      parseLinkHeader_value (coalesce l Null)
  end.

(** What a handler acts on: the state of the component, the state of
    the server behind the two routes, and the requests sent so far. *)
Record sys := {
  view : state;
  remote : World;
  starred_log : list page_query;
  export_log : list (string * Format);
}.

(** An action of a handler: it changes the system and returns or
    throws.  State set before a throw stays set. *)
Definition act (A : Type) : Type := sys → sys * completion A.

Definition pure {A} (a : A) : act A := λ σ, (σ, Normal a).

Definition abind {A B} (m : act A) (k : A → act B) : act B :=
  λ σ, let '(σ1, r) := m σ in
       match r with
       | Normal a => k a σ1
       | Throw e => (σ1, Throw e)
       end.

Notation "x ⇐ m ;;; k" := (abind m (λ x, k))
  (at level 20, m at level 100, k at level 200, right associativity,
   only parsing).

(** A call of one of the setters of the hooks. *)
Definition update (f : state → state) : act unit :=
  λ σ, ({| view := f (view σ); remote := remote σ;
           starred_log := starred_log σ; export_log := export_log σ |},
        Normal tt).

Definition lift {A} (c : completion A) : act A := λ σ, (σ, c).

(** [await fetch("/api/starred?...")] *)
Definition fetch_starred (q : page_query) : act response :=
  λ σ, let '(w1, r) := api_starred (remote σ) q in
       ({| view := view σ; remote := w1;
           starred_log := starred_log σ ++ [q]; export_log := export_log σ |}, r).

(** [await fetch("/api/export", ...)] with the body [{ username, format }]. *)
Definition fetch_export (username : string) (format : Format) : act response :=
  λ σ, let '(w1, r) := api_export (remote σ) username format in
       ({| view := view σ; remote := w1; starred_log := starred_log σ;
           export_log := export_log σ ++ [(username, format)] |}, r).

(** [try { body } catch (e) { handler e } finally { fin }], for a handler
    and a final block that do not throw. *)
Definition try_catch_finally (body : act unit) (handler : exn → act unit)
    (fin : act unit) : act unit :=
  λ σ, let '(σ1, r) := body σ in
       let '(σ2, _) := match r with
                       | Normal _ => (σ1, Normal tt)
                       | Throw e => handler e σ1
                       end in
       fin σ2.

Definition fetchPage (username : string) (pg pp : number) : act unit :=
  _ ⇐ update (setError Null) ;;;
  _ ⇐ update (setLoading true) ;;;
  try_catch_finally
    (res ⇐ fetch_starred {| q_username := username; q_page := pg; q_per_page := pp |} ;;;
     data ⇐ lift (body_json res) ;;;
     if negb (ok res) then
       err ⇐ lift (get data "error") ;;;
       _ ⇐ update (setError (or_else err (Str "Failed to fetch"))) ;;;
       _ ⇐ update (setItems (Arr [])) ;;;
       _ ⇐ update (setPageInfo ∅) ;;;
       rt ⇐ lift (get data "rate") ;;;
       update (setRate (coalesce rt Null))
     else
       its ⇐ lift (get data "items") ;;;
       _ ⇐ update (setItems its) ;;;
       info ⇐ lift (parseLinkHeader_of data) ;;;
       _ ⇐ update (setPageInfo info) ;;;
       _ ⇐ update (setPage pg) ;;;
       _ ⇐ update (setPerPage pp) ;;;
       rt ⇐ lift (get data "rate") ;;;
       update (setRate (coalesce rt Null)))
    (λ e,
       _ ⇐ update (setError (Str (error_message e))) ;;;
       _ ⇐ update (setItems (Arr [])) ;;;
       update (setPageInfo ∅))
    (update (setLoading false)).

(** [onSubmit], called with the validated form values. *)
Definition onSubmit (username : string) : act unit :=
  λ σ, (_ ⇐ update (setCurrentUser (Some username)) ;;;
        fetchPage username (num_of_Z 1) (perPage (view σ))) σ.

(** [!currentUser] is false *)
Definition known_user (u : option string) : bool :=
  match u with
  | Some s => truthy_string s
  | None => false
  end.

(** [if (!currentUser || !pageInfo.prev) return;] and then the call with
    the two values, which the guard has shown to be there. *)
Definition handlePrev : act unit :=
  λ σ, if negb (known_user (currentUser (view σ)))
          || negb (truthy_page (pageInfo (view σ) !! "prev"))
       then (σ, Normal tt)
       else fetchPage (default EmptyString (currentUser (view σ)))
              (default S754_nan (pageInfo (view σ) !! "prev"))
              (perPage (view σ)) σ.

Definition handleNext : act unit :=
  λ σ, if negb (known_user (currentUser (view σ)))
          || negb (truthy_page (pageInfo (view σ) !! "next"))
       then (σ, Normal tt)
       else fetchPage (default EmptyString (currentUser (view σ)))
              (default S754_nan (pageInfo (view σ) !! "next"))
              (perPage (view σ)) σ.

(** [handlePerPageChange], with the value of the select element and the
    user name held by the form. *)
Definition handlePerPageChange (selected form_username : string) : act unit :=
  λ σ, let pp := Number_of_string js selected in
       let user := default form_username (currentUser (view σ)) in
       (_ ⇐ update (setPerPage pp) ;;;
        if truthy_string user then fetchPage user (num_of_Z 1) pp
        else pure tt) σ.

(** The loop of [handleFetchAll], with [left] the iterations still
    allowed; it returns the array [all]. *)
Fixpoint starred_loop (user : string) (left : nat) (pg : number) (all : list value)
  : act (list value) :=
  match left with
  | O => pure all
  | S left' =>
      r ⇐ fetch_starred {| q_username := user; q_page := pg;
                           q_per_page := num_of_Z 100 |} ;;;
      j ⇐ lift (body_json r) ;;;
      if negb (ok r) then
        err ⇐ lift (get j "error") ;;;
        _ ⇐ update (setError (or_else err (Str "Failed to fetch"))) ;;;
        pure all
      else
        rt ⇐ lift (get j "rate") ;;;
        _ ⇐ update (setRate (coalesce rt Null)) ;;;
        its ⇐ lift (get j "items") ;;;
        chunk ⇐ lift (spread (or_else its (Arr []))) ;;;
        info ⇐ lift (parseLinkHeader_of j) ;;;
        match info !! "next" with
        | Some n =>
            if truthy_number n then starred_loop user left' n (all ++ chunk)
            else pure (all ++ chunk)
        | None => pure (all ++ chunk)
        end
  end.

(** [handleFetchAll], with the user name held by the form and the format
    chosen in the select element. *)
Definition handleFetchAll (form_username : string) (exportFormat : Format) : act unit :=
  λ σ, let user := default form_username (currentUser (view σ)) in
       if negb (truthy_string user) then (σ, Normal tt)
       else
         (_ ⇐ update (setLoadingAll true) ;;;
          _ ⇐ update (setError Null) ;;;
          try_catch_finally
            (res ⇐ fetch_export user exportFormat ;;;
             data ⇐ lift (body_json res) ;;;
             if negb (ok res) then
               err ⇐ lift (get data "error") ;;;
               update (setError (or_else err (Str "Export failed")))
             else
               all ⇐ starred_loop user 100 (num_of_Z 1) [] ;;;
               _ ⇐ update (setItems (Arr all)) ;;;
               _ ⇐ update (setCurrentUser (Some user)) ;;;
               _ ⇐ update (setPage (num_of_Z 1)) ;;;
               _ ⇐ update (setPerPage (num_of_Z 100)) ;;;
               update (setPageInfo ∅))
            (λ e, update (setError (Str (error_message e))))
            (update (setLoadingAll false))) σ.

Definition handleExport (form_username : string) (format : Format) : act unit :=
  λ σ, let user := default form_username (currentUser (view σ)) in
       if negb (truthy_string user) then (σ, Normal tt)
       else
         (_ ⇐ update (setExporting true) ;;;
          _ ⇐ update (setError Null) ;;;
          try_catch_finally
            (res ⇐ fetch_export user format ;;;
             data ⇐ lift (body_json res) ;;;
             if negb (ok res) then
               err ⇐ lift (get data "error") ;;;
               update (setError (or_else err (Str "Export failed")))
             else pure tt)
            (λ e, update (setError (Str (error_message e))))
            (update (setExporting false))) σ.

(** The system a handler leaves behind. *)
Definition run (h : act unit) (σ : sys) : sys := (h σ).1.

(** *** Vocabulary for the replies of the starred route *)

(** The request of the loop of [handleFetchAll] for a page. *)
Definition all_query (user : string) (pg : number) : page_query :=
  {| q_username := user; q_page := pg; q_per_page := num_of_Z 100 |}.

(** The values a reply adds to the array: [...(j.items || [])]. *)
Definition page_chunk (data : value) : list value :=
  match spread (or_else (get_opt data "items") (Arr [])) with
  | Normal l => l
  | Throw _ => []
  end.

(** A reply the loop can read: a success status, a body that is JSON
    and neither [null] nor a value whose items cannot be spread, and a
    link that [parseLinkHeader] takes, giving the cursor [info]. *)
Definition readable (res : response) (data : value) (info : gmap string number) : Prop :=
  ok res = true
  ∧ body_json res = Normal data
  ∧ nullish data = false
  ∧ (∃ l, spread (or_else (get_opt data "items") (Arr [])) = Normal l)
  ∧ parseLinkHeader_of data = Normal info.

(** [browse user w pg ds w' pg']: from the state [w], asking for [pg]
    and then for each page the cursor points to, the starred route
    answers with readable replies whose bodies are [ds], each pointing
    on, and is left in the state [w'] with [pg'] the page to ask next. *)
Inductive browse (user : string) : World → number → list value → World → number → Prop :=
| browse_nil w pg : browse user w pg [] w pg
| browse_cons w pg w1 res data info n ds w2 pg2 :
    api_starred w (all_query user pg) = (w1, Normal res) →
    readable res data info →
    info !! "next" = Some n →
    browse user w1 n ds w2 pg2 →
    browse user w pg (data :: ds) w2 pg2.

(** The rate shown after the replies [ds]: that of the last one. *)
Definition rate_after (ds : list value) (r0 : value) : value :=
  fold_left (λ _ d, coalesce (get_opt d "rate") Null) ds r0.

End Handlers.

End AppPage.

(** ** The dashboard: the displayed items and their export *)

Module Dashboard.

(** [s.toLowerCase()] on code units below 256: the letters A to Z and
    the capital letters from 192 to 222, the multiplication sign 215
    apart, move up by 32. *)
Definition lower_char (c : ascii) : ascii :=
  let n := Ascii.N_of_ascii c in
  if ((65 <=? n) && (n <=? 90) || (192 <=? n) && (n <=? 222) && negb (n =? 215))%N
  then Ascii.ascii_of_N (n + 32) else c.

Fixpoint toLowerCase (s : string) : string :=
  match s with
  | EmptyString => EmptyString
  | String a r => String (lower_char a) (toLowerCase r)
  end.

(** [s.includes(q)]: [q] occurs in [s]. *)
Fixpoint includes_text (q s : string) : bool :=
  match Text.strip_prefix q s with
  | Some _ => true
  | None =>
      match s with
      | EmptyString => false
      | String _ r => includes_text q r
      end
  end.

Inductive SearchMode := by_username | within.

Inductive SortBy := stars_desc | name_asc.

(** [arr.sort(compare)], where [after a b] tells that [compare(a, b)] is
    above zero: the sort is stable, and for a consistent comparison
    every engine returns the list that inserting the elements from the
    right gives. *)
Fixpoint insert_sorted {A} (after : A → A → bool) (x : A) (l : list A) : list A :=
  match l with
  | [] => [x]
  | y :: r => if after x y then y :: insert_sorted after x r else x :: y :: r
  end.

Definition Array_sort {A} (after : A → A → bool) (l : list A) : list A :=
  foldr (insert_sorted after) [] l.

Section View.

(** [a.localeCompare(b)], which depends on the locale of the browser. *)
Context (localeCompare : string → string → number).

(** The test of the filter, for the query [q] already trimmed and in
    lower case. *)
Definition matches (q : string) (r : RepoItem.t) : bool :=
  includes_text q (toLowerCase (RepoItem.fullName r))
  || includes_text q (toLowerCase (default EmptyString (RepoItem.description r)))
  || includes_text q (toLowerCase (default EmptyString (RepoItem.language r))).

(** The comparisons of the two sort orders are above zero. *)
Definition by_name (a b : RepoItem.t) : bool :=
  positive_number (localeCompare (RepoItem.fullName a) (RepoItem.fullName b)).

Definition by_stars (a b : RepoItem.t) : bool :=
  positive_number (SFsub 53 1024 (RepoItem.stars b) (RepoItem.stars a)).

(** The memoized value [displayedItems]. *)
Definition displayedItems (items : option (list RepoItem.t)) (searchMode : SearchMode)
    (filterQuery : string) (sortBy : SortBy) : list RepoItem.t :=
  let arr := default [] items in
  let arr :=
    match searchMode with
    | within =>
        if truthy_string (Text.trim filterQuery)
        then filter (λ r, matches (toLowerCase (Text.trim filterQuery)) r = true) arr
        else arr
    | by_username => arr
    end in
  match sortBy with
  | name_asc => Array_sort by_name arr
  | stars_desc => Array_sort by_stars arr
  end.

(** The items the view lets through: all of them, unless the search is
    within the results and the trimmed query is not empty. *)
Definition passes (searchMode : SearchMode) (filterQuery : string) (r : RepoItem.t) : bool :=
  match searchMode with
  | by_username => true
  | within =>
      negb (truthy_string (Text.trim filterQuery))
      || matches (toLowerCase (Text.trim filterQuery)) r
  end.

(** The texts of an item that the filter looks at. *)
Definition searched (r : RepoItem.t) : list string :=
  [ RepoItem.fullName r;
    default EmptyString (RepoItem.description r);
    default EmptyString (RepoItem.language r) ].

(** What [exportCurrent] does: it sets the error and stops, or hands a
    file to the browser and sets the success message.  The JSON text
    is kept as the list it serializes. *)
Inductive download_text :=
| CsvDownload (s : string)
| JsonDownload (data : list RepoItem.t).

Inductive export_result :=
| Refused (error : string)
| Downloaded (filename : string) (content : download_text) (mime : string)
    (success : string).

(** [exportCurrent]; an error thrown while the table is made rejects
    the promise of the function. *)
Definition exportCurrent (js : Builtins) (displayed : list RepoItem.t)
    (format : Format) : completion export_result :=
  if (length displayed =? 0)%nat
  then Normal (Refused "Nothing to export in current view")
  else
    match format with
    | csv =>
        text ← toCSVFromRepos js displayed ;;;
        Normal (Downloaded "stars_current.csv" (CsvDownload text)
                  "text/csv;charset=utf-8"
                  ("Exported " +:+ pretty (length displayed) +:+ " repos to CSV"))
    | json =>
        Normal (Downloaded "stars_current.json" (JsonDownload displayed)
                  "application/json;charset=utf-8"
                  ("Exported " +:+ pretty (length displayed) +:+ " repos to JSON"))
    end.

End View.

End Dashboard.

(** ** Further concrete inputs *)

Module Demo.

(** A page whose body is not JSON. *)
Definition garbled : response :=
  {| status := 200;
     text := "<html>";
     body_json := Throw (Error "Unexpected token < in JSON at position 0");
     link := None |}.

(** A remote with five numbered pages whose second page is garbled. *)
Definition broken (w : nat) (rq : request) : nat * completion response :=
  (S w,
   Normal (if Sample.page_index (req_page rq) =? 2 then garbled
           else Sample.numbered_page 5 (Sample.page_index (req_page rq)))).

(** A record like the one of the normalisation example, without owner. *)
Definition orphan : value :=
  Obj [ ("id", Num (num_of_Z 8)); ("full_name", Str "c/d") ].

(** An upstream that answers every request with the one page given. *)
Definition upstream_of (body : value) (w : nat) (rq : request)
  : nat * completion upstream :=
  (S w,
   Normal {| page_response := {| status := 200;
                                 text := EmptyString;
                                 body_json := Normal body;
                                 link := Some (Sample.entry "2" "next") |};
             limit_header := Some "60";
             remaining_header := Some EmptyString;
             reset_header := None |}).

(** An upstream that answers 404. *)
Definition upstream_missing (w : nat) (rq : request) : nat * completion upstream :=
  (S w,
   Normal {| page_response := {| status := 404;
                                 text := "Not Found";
                                 body_json := Throw (Error "Unexpected token N");
                                 link := None |};
             limit_header := None;
             remaining_header := None;
             reset_header := None |}).

(** An upstream that answers 304, without body. *)
Definition upstream_stale (w : nat) (rq : request) : nat * completion upstream :=
  (S w,
   Normal {| page_response := Sample.not_modified;
             limit_header := None;
             remaining_header := None;
             reset_header := None |}).

(** A reply of the starred route: one item, the link to the following
    page as long as [k] is below [last], and a rate. *)
Definition page_body (last k : Z) : value :=
  Obj [ ("items", Arr [Obj [("id", Num (num_of_Z k))]]);
        ("link", if k <? last
                 then Str (Sample.entry (pretty (k + 1)) "next")
                 else Null);
        ("rate", Obj [("remaining", Num (num_of_Z (60 - k)))]) ].

Definition reply_page (last k : Z) : response :=
  {| status := 200;
     text := EmptyString;
     body_json := Normal (page_body last k);
     link := None |}.

Definition reply_error : response :=
  {| status := 500;
     text := EmptyString;
     body_json := Normal (Obj [("error", Str "boom")]);
     link := None |}.

(** A starred route with [last] pages whose page [bad] answers 500. *)
Definition starred_api (last bad : Z) (w : nat) (q : page_query)
  : nat * completion response :=
  (S w,
   Normal (if Sample.page_index (q_page q) =? bad then reply_error
           else reply_page last (Sample.page_index (q_page q)))).

(** A starred route whose every reply points on to page 2. *)
Definition starred_cycle (w : nat) (q : page_query) : nat * completion response :=
  (S w, Normal (reply_page 2 1)).

(** A starred route that rejects every request. *)
Definition starred_down (w : nat) (q : page_query) : nat * completion response :=
  (S w, Throw (Error "Failed to fetch")).

(** An export route that succeeds, and one that refuses. *)
Definition export_ok (w : nat) (u : string) (f : Format) : nat * completion response :=
  (S w,
   Normal {| status := 200; text := EmptyString;
             body_json := Normal (Obj [("ok", Bool true)]); link := None |}).

Definition export_refused (w : nat) (u : string) (f : Format)
  : nat * completion response :=
  (S w,
   Normal {| status := 400; text := EmptyString;
             body_json := Normal (Obj [("error", Str "Username is required")]);
             link := None |}).

(** The component after the user [u] has been entered, nothing fetched. *)
Definition start (u : option string) : @AppPage.sys nat :=
  {| AppPage.view := AppPage.setCurrentUser u AppPage.initial;
     AppPage.remote := 0%nat;
     AppPage.starred_log := [];
     AppPage.export_log := [] |}.

(** Three items for the dashboard. *)
Definition repo (n : Z) (name : string) (lang : option string) : RepoItem.t :=
  {| RepoItem.id := num_of_Z n; RepoItem.name := name; RepoItem.fullName := name;
     RepoItem.url := "https://github.com/" +:+ name;
     RepoItem.description := None; RepoItem.stars := num_of_Z n;
     RepoItem.language := lang;
     RepoItem.owner := {| Owner.login := "o"; Owner.avatarUrl := "a"; Owner.url := "u" |} |}.

Definition repos : list RepoItem.t :=
  [repo 5 "rocq/stdlib" (Some "Rocq"); repo 9 "x/Web" (Some "TypeScript");
   repo 7 "y/rocq-tools" None].

(** A header with an entry that has no semicolon. *)
Definition with_junk : string := Sample.next_then_last +:+ "," +:+ "junk".

End Demo.

(** ** Properties of the text primitives *)

Section TextFacts.

Import Text.

Lemma char_eqb_true (a b : ascii) : char_eqb a b = true ↔ a = b.
Proof. apply Ascii.eqb_eq. Qed.

Lemma char_eqb_false (a b : ascii) : char_eqb a b = false ↔ a ≠ b.
Proof. apply Ascii.eqb_neq. Qed.

Lemma app_cons (a : ascii) (s t : string) : String a s +:+ t = String a (s +:+ t).
Proof. reflexivity. Qed.

Lemma app_empty (t : string) : EmptyString +:+ t = t.
Proof. reflexivity. Qed.




(** After the replacement no carriage return and no line feed is left. *)
Lemma collapse_newlines_clean (s : string) :
  includes CR (collapse_newlines s) = false
  ∧ includes LF (collapse_newlines s) = false.
Proof.
  cut (∀ a, (includes CR (collapse_newlines (String a s)) = false
             ∧ includes LF (collapse_newlines (String a s)) = false)
            ∧ (includes CR (collapse_newlines s) = false
               ∧ includes LF (collapse_newlines s) = false)).
  { intros H. apply (H "a"%char). }
  induction s as [|b s IH]; intros a.
  - simpl. destruct (char_eqb a CR) eqn:Ha; [done|].
    destruct (char_eqb a LF) eqn:Hb; [done|]. simpl. by rewrite Ha, Hb.
  - destruct (IH b) as [Hb Hs]. split; [|done].
    change (collapse_newlines (String a (String b s)))
      with (if char_eqb a CR then
              if char_eqb b LF then String space (collapse_newlines s)
              else String space (collapse_newlines (String b s))
            else if char_eqb a LF then String space (collapse_newlines (String b s))
            else String a (collapse_newlines (String b s))).
    destruct (char_eqb a CR) eqn:Ha.
    + destruct (char_eqb b LF); simpl; [apply Hs | apply Hb].
    + destruct (char_eqb a LF) eqn:Ha'; simpl; [apply Hb|].
      rewrite Ha, Ha'. apply Hb.
Qed.




Lemma first_row_app (h rest : string) :
  includes LF h = false → first_row (h +:+ String LF rest) = h.
Proof.
  induction h as [|a h IH]; intros Hh.
  - by rewrite app_empty.
  - simpl in Hh. apply orb_false_iff in Hh as [Ha Hh]. rewrite app_cons. simpl.
    rewrite Ha. by rewrite IH.
Qed.

Lemma join_cons (sep x : string) (l : list string) :
  l ≠ [] → join sep (x :: l) = x +:+ sep +:+ join sep l.
Proof. by destruct l. Qed.

Lemma app_assoc_str (s t u : string) : (s +:+ t) +:+ u = s +:+ (t +:+ u).
Proof. induction s as [|a s IH]; [done|]. rewrite !app_cons. by rewrite IH. Qed.

(** The lines of a table joined by line feeds start with the first line. *)
Lemma first_row_join (h : string) (rows : list string) :
  includes LF h = false →
  first_row (join newline (h :: rows) +:+ newline) = h.
Proof.
  intros Hh. destruct rows as [|r rows].
  - simpl. by apply first_row_app.
  - rewrite join_cons by done. rewrite !app_assoc_str.
    unfold newline at 1. rewrite app_cons, app_empty. by apply first_row_app.
Qed.

End TextFacts.

(** ** The serializers and the normalisation *)

Section Serializer.

Context (js : Builtins).

Import Text.


(** Induction over values, through the elements of arrays and the
    properties of objects. *)
Lemma value_nested_ind (P : value → Prop) :
  P Undefined → P Null → (∀ b, P (Bool b)) → (∀ n, P (Num n)) → (∀ t, P (Str t)) →
  (∀ elems, Forall P elems → P (Arr elems)) →
  (∀ props, Forall (λ kv, P kv.2) props → P (Obj props)) →
  ∀ v, P v.
Proof.
  intros HU HN HB HNum HS HA HO. fix IH 1. intros [| |b|n|t|elems|props].
  - exact HU.
  - exact HN.
  - apply HB.
  - apply HNum.
  - apply HS.
  - apply HA. revert elems. fix IHl 1. intros [|e r]; constructor; [apply IH | apply IHl].
  - apply HO. revert props. fix IHl 1.
    intros [|[k v] r]; constructor; [apply IH | apply IHl].
Qed.

Lemma String_of_Arr (elems : list value) :
  String_of js (Arr elems)
  = (parts ← map_completion
               (λ e, if nullish e then Normal EmptyString else String_of js e) elems ;;;
     Normal (join "," parts)).
Proof.
  cbn [String_of]. f_equal.
  induction elems as [|e r IH]; [done|].
  cbn [map_completion]. by rewrite <- IH.
Qed.

Lemma stringable_Arr (elems : list value) :
  stringable (Arr elems) = forallb stringable elems.
Proof.
  cbn [stringable]. induction elems as [|e r IH]; [done|].
  cbn [forallb]. by rewrite <- IH.
Qed.

(** [String] returns exactly on the values that have a string form, and
    throws the one TypeError on the others. *)
Lemma String_of_stringable (v : value) :
  if stringable v then ∃ t, String_of js v = Normal t
  else String_of js v = Throw not_primitive.
Proof.
  induction v as [| |b|n|t|elems IH|props _] using value_nested_ind.
  - by eexists.
  - by eexists.
  - destruct b; by eexists.
  - by eexists.
  - by eexists.
  - rewrite stringable_Arr, String_of_Arr.
    induction IH as [|e r He _ IHr]; [by eexists|].
    cbn [forallb map_completion].
    destruct (nullish e) eqn:Hn.
    + assert (stringable e = true) as -> by (by destruct e).
      cbn [andb cbind]. destruct (forallb stringable r).
      * destruct IHr as [t Ht].
        destruct (map_completion _ r) as [parts|e']; [by eexists | done].
      * by destruct (map_completion _ r) as [parts|e'].
    + destruct (stringable e).
      * destruct He as [t ->]. cbn [andb cbind]. destruct (forallb stringable r).
        -- destruct IHr as [t' Ht'].
           destruct (map_completion _ r) as [parts|e']; [by eexists | done].
        -- by destruct (map_completion _ r) as [parts|e'].
      * by rewrite He.
  - cbn [stringable String_of]. destruct (has_own "toString" props); [done | by eexists].
Qed.

(** The text of a field exists exactly for the values that have a string
    form; it holds no line break. *)
Lemma field_text_stringable (v : value) :
  if stringable v then ∃ t, field_text js v = Normal t
  else field_text js v = Throw not_primitive.
Proof.
  unfold field_text. pose proof (String_of_stringable v) as H.
  destruct (nullish v) eqn:Hn.
  - assert (stringable v = true) as -> by (by destruct v). by eexists.
  - destruct (stringable v); [destruct H as [t ->]; by eexists | by rewrite H].
Qed.

Lemma field_text_clean (val : value) (t : string) :
  field_text js val = Normal t →
  includes CR t = false ∧ includes LF t = false.
Proof.
  unfold field_text. destruct (nullish val); [by intros [= <-]|].
  destruct (String_of js val) as [u|e]; [|done].
  intros [= <-]. apply collapse_newlines_clean.
Qed.

(** Both serializers write a field as the escaped text of the value. *)
Lemma csvEscape_field (val : value) :
  csvEscape js val = (t ← field_text js val ;;; Normal (escape t)).
Proof.
  unfold csvEscape, field_text, escape. destruct (nullish val); [done|].
  destruct (String_of js val) as [u|e]; [|done]. cbn [cbind].
  by destruct (includes dquote _ || includes comma _ || includes LF _).
Qed.

Lemma esc_field (val : value) :
  esc js val = (t ← field_text js val ;;; Normal (escape t)).
Proof.
  unfold esc, field_text, escape. destruct (nullish val); [done|].
  destruct (String_of js val) as [u|e]; [|done]. cbn [cbind].
  by destruct (includes dquote _ || includes comma _ || includes LF _).
Qed.


(** The loop of the serializers: one line per row, the first error
    ending it. *)
Lemma for_of_lines {A} (row : A → completion (list string)) (l : list A) :
  ∀ lines,
    for_of (λ lines r, cells ← row r ;;; Normal (lines ++ [join "," cells])) lines l
    = (rows ← map_completion row l ;;; Normal (lines ++ map (join ",") rows)).
Proof.
  induction l as [|x l IH]; intros lines.
  - cbn. by rewrite app_nil_r.
  - cbn [for_of map_completion]. destruct (row x) as [cells|e]; [|done].
    cbn [cbind]. rewrite IH.
    destruct (map_completion row l) as [rows|e]; [|done].
    cbn [cbind map]. by rewrite <- app_assoc.
Qed.

Lemma toCSV_rows (all : list value) :
  toCSV js all
  = (rows ← map_completion (toCSV_row js) all ;;;
     Normal (join newline (join "," toCSV_headers :: map (join ",") rows) +:+ newline)).
Proof.
  unfold toCSV. rewrite for_of_lines.
  by destruct (map_completion (toCSV_row js) all).
Qed.

Lemma toCSVFromRepos_rows (repos : list RepoItem.t) :
  toCSVFromRepos js repos
  = (rows ← map_completion (toCSVFromRepos_row js) repos ;;;
     Normal (join newline (join "," toCSVFromRepos_headers :: map (join ",") rows)
             +:+ newline)).
Proof.
  unfold toCSVFromRepos. rewrite for_of_lines.
  by destruct (map_completion (toCSVFromRepos_row js) repos).
Qed.

(** A row is made of the escaped texts of its eight values, in order. *)
Lemma toCSV_row_fields (r : value) :
  toCSV_row js r
  = (fields ← map_completion (field_text js) (record_values r) ;;;
     Normal (map escape fields)).
Proof.
  unfold toCSV_row, record_values. rewrite !csvEscape_field.
  cbn [map_completion].
  repeat (destruct (field_text js _) as [?|?]; cbn [cbind]; [|done]).
  done.
Qed.

Lemma toCSVFromRepos_row_fields (r : RepoItem.t) :
  toCSVFromRepos_row js r
  = (fields ← map_completion (field_text js) (item_values r) ;;;
     Normal (map escape fields)).
Proof.
  unfold toCSVFromRepos_row, item_values. rewrite !esc_field.
  cbn [map_completion].
  repeat (destruct (field_text js _) as [?|?]; cbn [cbind]; [|done]).
  done.
Qed.

(** Mapping a function that may throw: the results in order, or the
    first error. *)
Lemma map_completion_Normal {A B} (f : A → completion B) (l : list A) (ys : list B) :
  map_completion f l = Normal ys ↔ Forall2 (λ x y, f x = Normal y) l ys.
Proof.
  revert ys. induction l as [|x l IH]; intros ys.
  - cbn. split; [intros [= <-]; constructor | by intros ->%Forall2_nil_inv_l].
  - cbn [map_completion]. split.
    + destruct (f x) as [y|e] eqn:Hx; [|done]. cbn [cbind].
      destruct (map_completion f l) as [zs|e]; [|done].
      intros [= <-]. constructor; [done | by apply IH].
    + intros (y & zs & Hy & Hzs & ->)%Forall2_cons_inv_l.
      rewrite Hy. cbn [cbind]. apply IH in Hzs. by rewrite Hzs.
Qed.

Lemma map_completion_Throw {A B} (f : A → completion B) (l : list A) (e : exn) :
  map_completion f l = Throw e → Exists (λ x, f x = Throw e) l.
Proof.
  induction l as [|x l IH]; [done|]. cbn [map_completion].
  destruct (f x) as [y|e'] eqn:Hx.
  - cbn [cbind]. destruct (map_completion f l) as [zs|e'']; [done|].
    intros [= ->]. right. by apply IH.
  - intros [= ->]. by left.
Qed.

(** The values of an item of the dashboard all have a string form. *)
Lemma item_values_stringable (r : RepoItem.t) :
  Forall (λ v, stringable v = true) (item_values r).
Proof.
  unfold item_values.
  repeat constructor;
    by destruct (RepoItem.description r), (RepoItem.language r).
Qed.

(** A row throws only the TypeError of a value without string form. *)
Lemma toCSV_row_Throw (r : value) (e : exn) :
  toCSV_row js r = Throw e →
  e = not_primitive ∧ Exists (λ v, stringable v = false) (record_values r).
Proof.
  rewrite toCSV_row_fields.
  destruct (map_completion (field_text js) (record_values r)) as [fields|e'] eqn:Hm;
    [done|].
  intros [= ->]. apply map_completion_Throw in Hm.
  apply Exists_exists in Hm as (v & Hv & Hf).
  pose proof (field_text_stringable v) as Hs.
  destruct (stringable v) eqn:Hsv.
  - destruct Hs as [t Ht]. congruence.
  - split; [congruence|]. apply Exists_exists. eauto.
Qed.

Lemma toCSVFromRepos_row_Normal (r : RepoItem.t) :
  ∃ fields, map_completion (field_text js) (item_values r) = Normal fields
            ∧ toCSVFromRepos_row js r = Normal (map escape fields).
Proof.
  rewrite toCSVFromRepos_row_fields.
  destruct (map_completion (field_text js) (item_values r)) as [fields|e] eqn:Hm;
    [by eexists|].
  apply map_completion_Throw in Hm.
  apply Exists_exists in Hm as (v & Hv & Hf).
  pose proof (item_values_stringable r) as Hall.
  rewrite Forall_forall in Hall. specialize (Hall v Hv).
  pose proof (field_text_stringable v) as Hs. rewrite Hall in Hs.
  destruct Hs as [t Ht]. congruence.
Qed.

Lemma toCSVFromRepos_Normal (repos : list RepoItem.t) :
  ∃ rows, map_completion (toCSVFromRepos_row js) repos = Normal rows
          ∧ toCSVFromRepos js repos
            = Normal (join newline (join "," toCSVFromRepos_headers
                                     :: map (join ",") rows) +:+ newline).
Proof.
  rewrite toCSVFromRepos_rows.
  destruct (map_completion (toCSVFromRepos_row js) repos) as [rows|e] eqn:Hm;
    [by eexists|].
  apply map_completion_Throw in Hm.
  apply Exists_exists in Hm as (r & _ & Hr).
  destruct (toCSVFromRepos_row_Normal r) as (fields & _ & Hrow). congruence.
Qed.

(** The table of the export route is made unless a value of a record
    has no string form. *)
Lemma toCSV_Throw (all : list value) (e : exn) :
  toCSV js all = Throw e →
  e = not_primitive
  ∧ Exists (λ r, Exists (λ v, stringable v = false) (record_values r)) all.
Proof.
  rewrite toCSV_rows.
  destruct (map_completion (toCSV_row js) all) as [rows|e'] eqn:Hm; [done|].
  intros [= ->]. apply map_completion_Throw in Hm.
  apply Exists_exists in Hm as (r & Hr & Hrow).
  apply toCSV_row_Throw in Hrow as [-> Hex].
  split; [done|]. apply Exists_exists. eauto.
Qed.

Lemma toCSV_Normal (all : list value) :
  Forall (λ r, Forall (λ v, stringable v = true) (record_values r)) all →
  ∃ text, toCSV js all = Normal text.
Proof.
  intros Hall. destruct (toCSV js all) as [text|e] eqn:Ht; [by eexists|].
  apply toCSV_Throw in Ht as [_ Hex].
  apply Exists_exists in Hex as (r & Hr & Hv).
  apply Exists_exists in Hv as (v & Hv & Hs).
  rewrite Forall_forall in Hall. specialize (Hall r Hr).
  rewrite Forall_forall in Hall. specialize (Hall v Hv). congruence.
Qed.

(** C6, as the code has it: the first row written by [toCSVFromRepos]
    is the header id, full_name, url, description, stars, language,
    owner_login, owner_url; the first row written by [toCSV] of the
    export route names the columns after the remote fields: id,
    full_name, html_url, description, stargazers_count, language,
    owner_login, owner_html_url.  The first serializer always returns
    its text; the second one returns it unless a value of a record has
    no string form. *)
Theorem csv_header_rows (repos : list RepoItem.t) (all : list value) :
  (∃ text, toCSVFromRepos js repos = Normal text
           ∧ first_row text
             = "id,full_name,url,description,stars,language,owner_login,owner_url")
  ∧ match toCSV js all with
    | Normal text =>
        first_row text
        = "id,full_name,html_url,description,stargazers_count,language,owner_login,owner_html_url"
    | Throw e =>
        e = not_primitive
        ∧ Exists (λ r, Exists (λ v, stringable v = false) (record_values r)) all
    end.
Proof.
  split.
  - destruct (toCSVFromRepos_Normal repos) as (rows & _ & ->).
    eexists. split; [done|]. by rewrite first_row_join.
  - destruct (toCSV js all) as [text|e] eqn:Ht; [|by apply toCSV_Throw].
    rewrite toCSV_rows in Ht.
    destruct (map_completion (toCSV_row js) all) as [rows|e]; [|done].
    assert (text = join newline (join "," toCSV_headers :: map (join ",") rows)
                   +:+ newline) as -> by (cbn [cbind] in Ht; congruence).
    by rewrite first_row_join.
Qed.

End Serializer.

(** The header the claim lists is not the first row of the export
    route's table, already for the empty list of records. *)
Lemma toCSV_header_differs :
  ∃ text, toCSV host [] = Normal text
          ∧ first_row text
            ≠ "id,full_name,url,description,stars,language,owner_login,owner_url".
Proof. eexists. split; [reflexivity|]. vm_compute. discriminate. Qed.

(** C7, as the code has it: the raw record of the example is mapped to
    the object with the properties id 7, fullName a/b, stars 42, language
    null and owner (login a, avatarUrl u, url p); the properties name,
    url and description are present with the value undefined and are
    left out when the object is serialized. *)
Theorem normalize_sample :
  ∃ v, normalize Sample.raw = Normal v
       ∧ v = Obj [ ("id", Num (num_of_Z 7));
                   ("name", Undefined);
                   ("fullName", Str "a/b");
                   ("url", Undefined);
                   ("description", Undefined);
                   ("stars", Num (num_of_Z 42));
                   ("language", Null);
                   ("owner", Obj [ ("login", Str "a");
                                   ("avatarUrl", Str "u");
                                   ("url", Str "p") ]) ]
       ∧ serialized v
         = Obj [ ("id", Num (num_of_Z 7));
                 ("fullName", Str "a/b");
                 ("stars", Num (num_of_Z 42));
                 ("language", Null);
                 ("owner", Obj [ ("login", Str "a");
                                 ("avatarUrl", Str "u");
                                 ("url", Str "p") ]) ].
Proof. eexists. split; [reflexivity|]. split; reflexivity. Qed.

(** The object produced for the example has no property starCount and
    no property primaryLanguage, and is not the object of the claim. *)
Lemma normalize_sample_names :
  ∃ v, normalize Sample.raw = Normal v
       ∧ get_opt v "starCount" = Undefined
       ∧ get_opt v "primaryLanguage" = Undefined
       ∧ get_opt v "stars" = Num (num_of_Z 42)
       ∧ serialized v
         ≠ Obj [ ("id", Num (num_of_Z 7));
                 ("fullName", Str "a/b");
                 ("starCount", Num (num_of_Z 42));
                 ("primaryLanguage", Null);
                 ("owner", Obj [ ("login", Str "a");
                                 ("avatarUrl", Str "u");
                                 ("url", Str "p") ]) ].
Proof.
  eexists. split; [reflexivity|]. repeat split; try reflexivity.
  vm_compute. discriminate.
Qed.

(** ** The Link-header parsers *)

Section Parsers.

Context (js : Builtins).

(** One iteration of [parseLinkHeader] returns normally: it writes the
    property the entry offers, or leaves the object as it is. *)
Lemma parseLinkHeader_entry_spec (info : gmap string number) (p : string) :
  parseLinkHeader_entry js info p = Normal (write_entry js info p).
Proof.
  unfold parseLinkHeader_entry, write_entry, link_entry.
  destruct (Text.split Text.semicolon p) as [|s0 [|s1 rest]]; [done..|].
  cbn [length Nat.ltb Nat.leb nth].
  destruct (Text.match_rel (Text.trim s1)) as [rel|];
    destruct (URL_new js (Text.strip_angles (Text.trim s0))) as [url|e];
    simpl; try done.
  destruct (page_number js _) as [n|]; [|done].
  by destruct (truthy_number n).
Qed.

Lemma for_of_entries (parts : list string) (info : gmap string number) :
  for_of (parseLinkHeader_entry js) info parts
  = Normal (fold_left (write_entry js) parts info).
Proof.
  revert info. induction parts as [|p parts IH]; intros info; [done|].
  simpl. rewrite parseLinkHeader_entry_spec. simpl. apply IH.
Qed.

(** The parser is the left fold of the entries over the empty object. *)
Lemma parseLinkHeader_fold (l : string) :
  parseLinkHeader js (Some l)
  = Normal (fold_left (write_entry js) (Text.split Text.comma l) ∅).
Proof.
  unfold parseLinkHeader. destruct l as [|a l]; [done|].
  cbn [truthy_string]. apply for_of_entries.
Qed.

Lemma parseNextFromLink_entry_spec (p : string) :
  parseNextFromLink_entry js p = Normal (next_of_entry js p).
Proof.
  unfold parseNextFromLink_entry, next_of_entry, link_entry.
  destruct (Text.split Text.semicolon p) as [|s0 [|s1 rest]]; [done..|].
  cbn [length Nat.ltb Nat.leb nth].
  destruct (Text.match_rel (Text.trim s1)) as [rel|]; [|done].
  destruct (URL_new js (Text.strip_angles (Text.trim s0))) as [url|e].
  - simpl. destruct (page_number js _) as [n|].
    + destruct (truthy_number n); simpl.
      * by destruct (bool_decide (rel = "next")), (Number_isFinite n).
      * by destruct (bool_decide (rel = "next")).
    + by destruct (bool_decide (rel = "next")).
  - by destruct (bool_decide (rel = "next")).
Qed.

Lemma for_of_return_entries (parts : list string) :
  for_of_return (parseNextFromLink_entry js) parts = Normal (first_next js parts).
Proof.
  induction parts as [|p parts IH]; [done|].
  simpl. rewrite parseNextFromLink_entry_spec. simpl.
  by destruct (next_of_entry js p).
Qed.

Lemma parseNextFromLink_first (l : string) :
  parseNextFromLink js (Some l) = Normal (first_next js (Text.split Text.comma l)).
Proof.
  unfold parseNextFromLink. destruct l as [|a l]; [done|].
  cbn [truthy_string]. apply for_of_return_entries.
Qed.

(** The next-page parser always returns. *)
Lemma parseNextFromLink_total (link : option string) :
  ∃ o, parseNextFromLink js link = Normal o.
Proof.
  destruct link as [l|]; [|by eexists].
  eexists. apply parseNextFromLink_first.
Qed.

(** What [link_entry] yields is offered by the entry, and is truthy. *)
Lemma link_entry_sound (p rel : string) (n : number) :
  link_entry js p = Some (rel, n) →
  link_entry_yields js p rel n ∧ truthy_number n = true.
Proof.
  unfold link_entry, link_entry_yields.
  destruct (Text.split Text.semicolon p) as [|s0 [|s1 rest]]; [done..|].
  destruct (Text.match_rel (Text.trim s1)) as [rel'|] eqn:Hrel; [|done].
  destruct (URL_new js (Text.strip_angles (Text.trim s0))) as [url|e] eqn:Hurl;
    [|done].
  unfold page_number.
  destruct (searchParams_get (searchParams url) "page") as [pageStr|] eqn:Hpage;
    [|done].
  destruct pageStr as [|c pageStr]; [done|]. cbn [truthy_string].
  destruct (truthy_number _) eqn:Ht; [|done].
  intros [= <- <-]. split; [|done].
  by exists s0, s1, rest, url, (String c pageStr).
Qed.

(** A property of the folded object was there before or was written by
    one of the entries. *)
Lemma fold_write_lookup (parts : list string) (info : gmap string number)
    (rel : string) (n : number) :
  fold_left (write_entry js) parts info !! rel = Some n →
  info !! rel = Some n ∨ ∃ p, p ∈ parts ∧ link_entry js p = Some (rel, n).
Proof.
  revert info. induction parts as [|p parts IH]; intros info; [by left|].
  simpl. intros [H|(q & Hq & Hl)]%IH.
  - unfold write_entry in H.
    destruct (link_entry js p) as [[rel' n']|] eqn:Hp; [|by left].
    unfold set_prop in H. case_decide; [by left|].
    destruct (decide (rel' = rel)) as [->|Hne].
    + rewrite lookup_insert_eq in H. injection H as ->.
      right. exists p. split; [apply list_elem_of_here | done].
    + rewrite lookup_insert_ne in H by done. by left.
  - right. exists q. split; [by apply list_elem_of_further | done].
Qed.

Lemma first_next_elem (parts : list string) (n : number) :
  first_next js parts = Some n →
  ∃ p, p ∈ parts ∧ link_entry js p = Some ("next", n)
       ∧ Number_isFinite n = true.
Proof.
  induction parts as [|p parts IH]; [done|]. simpl.
  destruct (next_of_entry js p) as [m|] eqn:Hp.
  - intros [= ->]. exists p. split; [apply list_elem_of_here|].
    unfold next_of_entry in Hp.
    destruct (link_entry js p) as [[rel k]|]; [|done].
    destruct (bool_decide (rel = "next")) eqn:Hrel; [|done].
    apply bool_decide_eq_true in Hrel as ->.
    destruct (Number_isFinite k) eqn:Hk; [|done].
    simpl in Hp. by injection Hp as ->.
  - intros (q & Hq & H)%IH. exists q. split; [by apply list_elem_of_further | done].
Qed.

(** C4, as the code has it: [parseLinkHeader] gives the cursor a
    property only from an entry that has at least two segments, whose
    second segment matches the rel pattern with that property name
    (whatever the name), whose first segment is an address the platform
    accepts, and whose page parameter is a non-empty string converted to
    a number that is neither zero nor NaN; [parseNextFromLink] returns a
    page only from such an entry whose relation name is next and whose
    number is also finite.  The number need not be positive. *)
Theorem link_parsers_record_only_offered_entries (l : string) :
  (∀ info rel n,
      parseLinkHeader js (Some l) = Normal info →
      info !! rel = Some n →
      ∃ p, p ∈ Text.split Text.comma l
           ∧ link_entry_yields js p rel n
           ∧ truthy_number n = true)
  ∧ (∀ n,
      parseNextFromLink js (Some l) = Normal (Some n) →
      ∃ p, p ∈ Text.split Text.comma l
           ∧ link_entry_yields js p "next" n
           ∧ truthy_number n = true
           ∧ Number_isFinite n = true).
Proof.
  split.
  - intros info rel n Hparse Hlook.
    rewrite parseLinkHeader_fold in Hparse. injection Hparse as <-.
    apply fold_write_lookup in Hlook as [Hlook|(p & Hp & Hl)].
    + by rewrite lookup_empty in Hlook.
    + exists p. split; [done|]. by apply link_entry_sound.
  - intros n Hparse.
    rewrite parseNextFromLink_first in Hparse. injection Hparse as Hparse.
    apply first_next_elem in Hparse as (p & Hp & Hl & Hfin).
    exists p. split; [done|].
    apply link_entry_sound in Hl as [Hy Ht]. done.
Qed.

(** C9: both parsers return normally on every input, whatever the
    platform's address parser throws; on [null] and on the empty string
    [parseLinkHeader] returns the empty object and [parseNextFromLink]
    returns [undefined]. *)
Theorem link_parsers_never_throw (link : option string) :
  parseLinkHeader js None = Normal ∅
  ∧ parseLinkHeader js (Some EmptyString) = Normal ∅
  ∧ parseNextFromLink js None = Normal None
  ∧ parseNextFromLink js (Some EmptyString) = Normal None
  ∧ (∃ info, parseLinkHeader js link = Normal info)
  ∧ (∃ o, parseNextFromLink js link = Normal o).
Proof.
  repeat split; try reflexivity.
  - destruct link as [l|]; [|by eexists].
    eexists. apply parseLinkHeader_fold.
  - apply parseNextFromLink_total.
Qed.

End Parsers.

(** ** Order of the entries *)

Section EntryOrder.

Context (js : Builtins).

(** Two entries that do not disagree on a property can be written in
    either order. *)
Lemma write_entry_swap (info : gmap string number) (p1 p2 : string) :
  (∀ rel n1 n2,
      link_entry js p1 = Some (rel, n1) → link_entry js p2 = Some (rel, n2) →
      n1 = n2) →
  write_entry js (write_entry js info p1) p2
  = write_entry js (write_entry js info p2) p1.
Proof.
  intros Hagree. unfold write_entry.
  destruct (link_entry js p1) as [[r1 n1]|]; [|done].
  destruct (link_entry js p2) as [[r2 n2]|]; [|done].
  unfold set_prop. repeat case_decide; try done.
  destruct (decide (r1 = r2)) as [->|Hne].
  - by rewrite (Hagree r2 n1 n2 eq_refl eq_refl).
  - by apply insert_insert_ne.
Qed.

Lemma consistent_entries_perm (parts parts' : list string) :
  parts ≡ₚ parts' → consistent_entries js parts → consistent_entries js parts'.
Proof.
  intros Hperm Hc p1 p2 rel n1 n2 H1 H2.
  apply (Hc p1 p2 rel n1 n2); by rewrite Hperm.
Qed.

Lemma consistent_entries_tail (p : string) (parts : list string) :
  consistent_entries js (p :: parts) → consistent_entries js parts.
Proof.
  intros Hc p1 p2 rel n1 n2 H1 H2.
  apply (Hc p1 p2 rel n1 n2); by apply list_elem_of_further.
Qed.

(** Folding a permutation of consistent entries gives the same object. *)
Lemma fold_write_perm (parts parts' : list string) :
  parts ≡ₚ parts' →
  consistent_entries js parts →
  ∀ info, fold_left (write_entry js) parts info
          = fold_left (write_entry js) parts' info.
Proof.
  induction 1 as [|p l l' Hperm IH|p q l|l1 l2 l3 H12 IH12 H23 IH23];
    intros Hc info.
  - done.
  - simpl. apply IH. by eapply consistent_entries_tail.
  - simpl. f_equal. apply write_entry_swap. intros rel n1 n2 H1 H2.
    apply (Hc q p rel n1 n2); [| |done..].
    + apply list_elem_of_here.
    + apply list_elem_of_further, list_elem_of_here.
  - rewrite IH12 by done. apply IH23. by eapply consistent_entries_perm.
Qed.

(** C8, as the code has it: a string always yields the same cursor,
    and two headers whose comma-separated entries are permutations of
    each other yield the same cursor provided no two entries give one
    relation name different page numbers. *)
Theorem parseLinkHeader_permutation (l l' : string) :
  Text.split Text.comma l ≡ₚ Text.split Text.comma l' →
  consistent_entries js (Text.split Text.comma l) →
  parseLinkHeader js (Some l) = parseLinkHeader js (Some l')
  ∧ (∀ info info',
       parseLinkHeader js (Some l) = Normal info →
       parseLinkHeader js (Some l) = Normal info' → info = info').
Proof.
  intros Hperm Hc. split.
  - rewrite !parseLinkHeader_fold. f_equal. by apply fold_write_perm.
  - intros info info' H1 H2. rewrite H1 in H2. by injection H2.
Qed.

End EntryOrder.

(** *** The parsers on concrete headers *)

(** The example of the specification. *)
Lemma parseLinkHeader_example :
  parseLinkHeader host (Some Sample.next_then_last)
  = Normal {[ "next" := num_of_Z 2; "last" := num_of_Z 5 ]}.
Proof. vm_compute. reflexivity. Qed.

Lemma parseLinkHeader_example_swapped :
  parseLinkHeader host (Some Sample.last_then_next)
  = Normal {[ "next" := num_of_Z 2; "last" := num_of_Z 5 ]}.
Proof. vm_compute. reflexivity. Qed.

(** C8 does not hold as stated: two entries with the relation name next
    are valid entries of a Link header, and the later one wins, so the
    two orders give different cursors. *)
Lemma parseLinkHeader_order_matters :
  Text.split Text.comma Sample.next2_next3 ≡ₚ Text.split Text.comma Sample.next3_next2
  ∧ parseLinkHeader host (Some Sample.next2_next3) = Normal {[ "next" := num_of_Z 3 ]}
  ∧ parseLinkHeader host (Some Sample.next3_next2) = Normal {[ "next" := num_of_Z 2 ]}
  ∧ parseLinkHeader host (Some Sample.next2_next3) ≠ parseLinkHeader host (Some Sample.next3_next2).
Proof.
  split; [vm_compute; apply perm_swap|].
  split; [vm_compute; reflexivity|].
  split; [vm_compute; reflexivity|].
  vm_compute. discriminate.
Qed.

Lemma next_last_consistent :
  consistent_entries host (Text.split Text.comma Sample.next_then_last).
Proof.
  assert (Text.split Text.comma Sample.next_then_last
          = [Sample.entry "2" "next"; Sample.entry "5" "last"]) as ->
    by (vm_compute; reflexivity).
  intros p1 p2 rel n1 n2 H1 H2 E1 E2.
  apply elem_of_cons in H1 as [->|H1]; [|apply list_elem_of_singleton in H1 as ->];
    (apply elem_of_cons in H2 as [->|H2]; [|apply list_elem_of_singleton in H2 as ->]);
    vm_compute in E1, E2; congruence.
Qed.

Lemma parseLinkHeader_permutation_witness :
  Text.split Text.comma Sample.next_then_last ≡ₚ Text.split Text.comma Sample.last_then_next
  ∧ parseLinkHeader host (Some Sample.next_then_last)
    = parseLinkHeader host (Some Sample.last_then_next).
Proof.
  assert (Text.split Text.comma Sample.next_then_last
          ≡ₚ Text.split Text.comma Sample.last_then_next) as Hperm
    by (vm_compute; apply perm_swap).
  split; [exact Hperm|].
  exact (proj1 (parseLinkHeader_permutation host Sample.next_then_last Sample.last_then_next
                  Hperm next_last_consistent)).
Defined.

(** C4 does not hold as stated: an entry whose relation name is none of
    first, prev, next, last is recorded by [parseLinkHeader], and both
    parsers accept a negative page number; [parseLinkHeader] also records
    an infinite one. *)
Lemma link_parsers_record_other_entries :
  parseLinkHeader host (Some (Sample.entry "2" "foo"))
    = Normal {[ "foo" := num_of_Z 2 ]}
  ∧ ("foo" ∉ ["first"; "prev"; "next"; "last"])
  ∧ parseLinkHeader host (Some (Sample.entry "-1" "next"))
    = Normal {[ "next" := num_of_Z (-1) ]}
  ∧ parseNextFromLink host (Some (Sample.entry "-1" "next"))
    = Normal (Some (num_of_Z (-1)))
  ∧ positive_number (num_of_Z (-1)) = false
  ∧ parseLinkHeader host (Some (Sample.entry "Infinity" "next"))
    = Normal {[ "next" := S754_infinity false ]}
  ∧ Number_isFinite (S754_infinity false) = false.
Proof.
  split; [vm_compute; reflexivity|].
  split; [by apply not_elem_of_cons; repeat (split; [done|apply not_elem_of_cons]);
          split; [done|apply not_elem_of_nil]|].
  repeat split; vm_compute; reflexivity.
Qed.

Lemma link_parsers_witness :
  (∃ p, p ∈ Text.split Text.comma Sample.next_then_last
        ∧ link_entry_yields host p "last" (num_of_Z 5)
        ∧ truthy_number (num_of_Z 5) = true)
  ∧ (∃ p, p ∈ Text.split Text.comma Sample.next_then_last
          ∧ link_entry_yields host p "next" (num_of_Z 2)
          ∧ truthy_number (num_of_Z 2) = true
          ∧ Number_isFinite (num_of_Z 2) = true).
Proof.
  destruct (link_parsers_record_only_offered_entries host Sample.next_then_last) as [H1 H2].
  split.
  - apply (H1 {[ "next" := num_of_Z 2; "last" := num_of_Z 5 ]});
      vm_compute; reflexivity.
  - apply H2. vm_compute. reflexivity.
Defined.

(** ** The aggregation loop of the export route *)

Section Aggregation.

Context (js : Builtins) {World : Type}
        (fetch : World → request → World * completion response).

Lemma push_chunk_items (all : list value) (res : response) (chunk : value) :
  body_json res = Normal chunk →
  push_chunk all chunk = all ++ page_items res.
Proof.
  intros H. unfold page_items, push_chunk. rewrite H.
  destruct chunk as [| | | | |elems|]; try by rewrite app_nil_r.
  destruct elems; [by rewrite app_nil_r | done].
Qed.

(** A page that points on: the loop goes round once more. *)
Lemma loop_step_next username left w log page all w1 res n :
  fetch w (page_request username page) = (w1, Normal res) →
  page_with_next js res n →
  pages_loop js fetch username (S left) w log page all
  = pages_loop js fetch username left w1 (log ++ [page_request username page]) n
      (all ++ page_items res).
Proof.
  intros Hf (Hok & [chunk Hbody] & Hnext & Ht).
  cbn [pages_loop]. fold (page_request username page). rewrite Hf.
  rewrite Hok. cbn [negb]. rewrite Hbody, Hnext, Ht.
  by rewrite (push_chunk_items all res chunk).
Qed.

(** A page that does not point on: the loop is left by [break]. *)
Lemma loop_step_last username left w log page all w1 res :
  fetch w (page_request username page) = (w1, Normal res) →
  last_page js res →
  pages_loop js fetch username (S left) w log page all
  = (w1, log ++ [page_request username page],
     Normal (Finished (all ++ page_items res))).
Proof.
  intros Hf (Hok & [chunk Hbody] & o & Hnext & Ht).
  cbn [pages_loop]. fold (page_request username page). rewrite Hf.
  rewrite Hok. cbn [negb]. rewrite Hbody, Hnext.
  rewrite (push_chunk_items all res chunk) by done.
  destruct o as [n|]; [|done]. simpl in Ht. by rewrite Ht.
Qed.

(** The reply of the error branch is built for the statuses from 300 to
    599 other than 304; for any other status that is not a success,
    building it throws. *)
Lemma api_error_built (res : response) :
  ok res = false →
  api_error js res
  = if (300 <=? status res) && (status res <=? 599) && negb (status res =? 304)
    then Normal {| reply_body :=
                     Obj [ ("error",
                            Str ("GitHub API error (" +:+ pretty (status res) +:+ "): "
                                 +:+ text res)) ];
                   reply_status := status res |}
    else Throw (Response_error js (status res)).
Proof.
  unfold ok, api_error, NextResponse_json, null_body_status. intros Hok.
  destruct ((300 <=? status res) && (status res <=? 599) && negb (status res =? 304))
    eqn:Hc.
  - assert ((200 <=? status res) && (status res <=? 599)
            && negb ((status res =? 101) || (status res =? 103) || (status res =? 204)
                     || (status res =? 205) || (status res =? 304)) = true) as ->; [|done].
    apply andb_true_iff in Hc as [[H1%Z.leb_le H2%Z.leb_le]%andb_true_iff H3%negb_true_iff].
    apply Z.eqb_neq in H3.
    rewrite !andb_true_iff, negb_true_iff, !orb_false_iff, !Z.leb_le, !Z.eqb_neq. lia.
  - assert ((200 <=? status res) && (status res <=? 599)
            && negb ((status res =? 101) || (status res =? 103) || (status res =? 204)
                     || (status res =? 205) || (status res =? 304)) = false) as ->; [|done].
    apply andb_false_iff in Hok.
    rewrite !andb_false_iff, negb_false_iff, !Z.leb_gt, Z.eqb_eq in Hc.
    rewrite !Z.leb_gt in Hok.
    rewrite !andb_false_iff, negb_false_iff, !orb_true_iff, !Z.leb_gt, !Z.eqb_eq. lia.
Qed.


(** Following a walk of pages uses up one iteration and one request per
    page and appends the pages' records in order. *)
Lemma loop_walk username w page rs w2 page2 :
  walk js fetch username w page rs w2 page2 →
  ∃ reqs, length reqs = length rs
          ∧ ∀ left log all,
              pages_loop js fetch username (length rs + left) w log page all
              = pages_loop js fetch username left w2 (log ++ reqs) page2
                  (all ++ concat (map page_items rs)).
Proof.
  induction 1 as [w page|w page w1 res n rs w2 page2 Hf Hp Hw (reqs & Hlen & IH)].
  - exists []. split; [done|]. intros left log all. simpl.
    by rewrite !app_nil_r.
  - exists (page_request username page :: reqs). split; [simpl; by rewrite Hlen|].
    intros left log all. cbn [length Nat.add].
    rewrite (loop_step_next username _ w log page all w1 res n Hf Hp).
    rewrite IH. cbn [map concat]. by rewrite <- !app_assoc.
Qed.

(** On an endless chain every allowed iteration is used. *)
Lemma loop_endless username (Inv : World → number → Prop) :
  (∀ w0 page0, Inv w0 page0 →
     ∃ w1 res n,
       fetch w0 (page_request username page0) = (w1, Normal res)
       ∧ page_with_next js res n ∧ Inv w1 n) →
  ∀ left w page log all,
    Inv w page →
    ∃ w' reqs all',
      pages_loop js fetch username left w log page all = (w', log ++ reqs, Normal (Finished all'))
      ∧ length reqs = left.
Proof.
  intros Hstep left. induction left as [|left IH]; intros w page log all HI.
  - exists w, [], all. by rewrite app_nil_r.
  - destruct (Hstep w page HI) as (w1 & res & n & Hf & Hp & HI1).
    rewrite (loop_step_next username left w log page all w1 res n Hf Hp).
    destruct (IH w1 n (log ++ [page_request username page])
                (all ++ page_items res) HI1) as (w' & reqs & all' & -> & Hlen).
    exists w', (page_request username page :: reqs), all'.
    split; [by rewrite <- app_assoc | simpl; by rewrite Hlen].
Qed.

(** On an endless chain there is a walk of every length. *)
Lemma endless_walk username (n : nat) :
  ∀ w page,
    endless js fetch username w page →
    ∃ rs w2 page2,
      walk js fetch username w page rs w2 page2 ∧ length rs = n.
Proof.
  induction n as [|n IH]; intros w page (Inv & HI & Hstep).
  - exists [], w, page. split; [constructor | done].
  - destruct (Hstep w page HI) as (w1 & res & m & Hf & Hp & HI1).
    destruct (IH w1 m) as (rs & w2 & page2 & Hw & Hlen); [by exists Inv|].
    exists (res :: rs), w2, page2. split; [by econstructor | simpl; by rewrite Hlen].
Qed.

Lemma POST_finished username format w w1 log all :
  pages_loop js fetch username 100 w [] (num_of_Z 1) [] = (w1, log, Normal (Finished all)) →
  POST js fetch username format w
  = match export_file js format all with
    | Normal f =>
        {| reply := export_reply js format all;
           requests := log;
           written := [f];
           world_after := w1 |}
    | Throw e =>
        {| reply := caught_reply e; requests := log; written := []; world_after := w1 |}
    end.
Proof.
  intros H. unfold POST. rewrite H. destruct format; cbn; [done|].
  by destruct (toCSV js all).
Qed.

Lemma POST_returned username format w w1 log r :
  pages_loop js fetch username 100 w [] (num_of_Z 1) [] = (w1, log, Normal (Returned r)) →
  POST js fetch username format w
  = {| reply := r; requests := log; written := []; world_after := w1 |}.
Proof. intros H. unfold POST. by rewrite H. Qed.

Lemma POST_threw username format w w1 log e :
  pages_loop js fetch username 100 w [] (num_of_Z 1) [] = (w1, log, Throw e) →
  POST js fetch username format w
  = {| reply := caught_reply e; requests := log; written := []; world_after := w1 |}.
Proof. intros H. unfold POST. by rewrite H. Qed.

(** What a finished loop leaves: the ok reply and the file, or, when
    the text of the file cannot be made, the reply of the catch and no
    file. *)
Lemma POST_exported username format w w1 log all :
  pages_loop js fetch username 100 w [] (num_of_Z 1) [] = (w1, log, Normal (Finished all)) →
  match export_file js format all with
  | Normal f =>
      reply (POST js fetch username format w) = export_reply js format all
      ∧ written (POST js fetch username format w) = [f]
  | Throw e =>
      reply (POST js fetch username format w) = caught_reply e
      ∧ written (POST js fetch username format w) = []
  end
  ∧ requests (POST js fetch username format w) = log
  ∧ world_after (POST js fetch username format w) = w1.
Proof.
  intros H. rewrite (POST_finished username format w w1 log all H).
  by destruct (export_file js format all).
Qed.

(** The file of an export can be made for json, and for csv when every
    value written has a string form. *)
Lemma export_file_Normal format all :
  format = json
  ∨ Forall (λ r, Forall (λ v, stringable v = true) (record_values r)) all →
  ∃ f, export_file js format all = Normal f.
Proof.
  intros H. destruct format; [by eexists|].
  destruct H as [H|H]; [done|].
  destruct (toCSV_Normal js all H) as [text Ht].
  unfold export_file. rewrite Ht. by eexists.
Qed.

End Aggregation.

(** ** The export handler *)

Section ExportHandler.

Context (js : Builtins) {World : Type}
        (fetch : World → request → World * completion response).

(** C1, as the code has it: when the chain of next pointers never runs
    out, the handler makes exactly 100 page requests and then leaves the
    loop; it goes on to export the records of the 100 pages it has
    fetched, in page order: it writes the file and replies ok with
    their count, or, when the table cannot be made because a value has
    no string form, replies with the error and writes nothing.  The
    reply has no property truncated: that the cap was reached is not
    reported. *)
Theorem export_stops_at_page_cap (username : string) (format : Format) (w : World) :
  endless js fetch username w (num_of_Z 1) →
  length (requests (POST js fetch username format w)) = 100%nat
  ∧ (∃ rs w2 page2,
       walk js fetch username w (num_of_Z 1) rs w2 page2
       ∧ length rs = 100%nat
       ∧ match export_file js format (concat (map page_items rs)) with
         | Normal f =>
             reply (POST js fetch username format w)
               = export_reply js format (concat (map page_items rs))
             ∧ written (POST js fetch username format w) = [f]
         | Throw e =>
             reply (POST js fetch username format w) = caught_reply e
             ∧ written (POST js fetch username format w) = []
         end
       ∧ (format = json
          ∨ Forall (λ r, Forall (λ v, stringable v = true) (record_values r))
              (concat (map page_items rs)) →
          ∃ f, export_file js format (concat (map page_items rs)) = Normal f))
  ∧ get_opt (reply_body (reply (POST js fetch username format w))) "truncated"
    = Undefined.
Proof.
  intros Hend.
  destruct (endless_walk js fetch username 100 w (num_of_Z 1) Hend)
    as (rs & w2 & page2 & Hwalk & Hlen).
  destruct (loop_walk js fetch username w (num_of_Z 1) rs w2 page2 Hwalk)
    as (reqs & Hreqs & Hloop).
  assert (pages_loop js fetch username 100 w [] (num_of_Z 1) []
          = (w2, reqs, Normal (Finished (concat (map page_items rs))))) as H.
  { specialize (Hloop 0%nat [] []). by rewrite Nat.add_0_r, Hlen in Hloop. }
  destruct (POST_exported js fetch username format w _ _ _ H) as (Hex & Hrq & _).
  split; [by rewrite Hrq, Hreqs|]. split.
  - exists rs, w2, page2. split; [done|]. split; [done|]. split; [done|].
    apply export_file_Normal.
  - destruct (export_file js format (concat (map page_items rs))) as [f|e];
      destruct Hex as [-> _]; reflexivity.
Qed.

(** C2, as the code has it: for a chain of at most 100 successful pages,
    each pointing to the next and the last one carrying no next pointer,
    the handler requests each page once and exports the concatenation,
    in page order and without deduplication, of the raw records of the
    pages (a body that is not a non-empty array adds nothing): it writes
    the file and replies ok with their count.  For json this always
    happens, for csv when every value written has a string form;
    otherwise the handler replies with the error and writes nothing.
    The records are not normalized, and the reply has no property
    truncated. *)
Theorem export_collects_finite_chain (username : string) (format : Format)
    (w w2 w3 : World) (rs : list response) (page2 : number) (res : response) :
  walk js fetch username w (num_of_Z 1) rs w2 page2 →
  (length rs < 100)%nat →
  fetch w2 (page_request username page2) = (w3, Normal res) →
  last_page js res →
  match export_file js format (concat (map page_items (rs ++ [res]))) with
  | Normal f =>
      reply (POST js fetch username format w)
        = export_reply js format (concat (map page_items (rs ++ [res])))
      ∧ written (POST js fetch username format w) = [f]
  | Throw e =>
      reply (POST js fetch username format w) = caught_reply e
      ∧ written (POST js fetch username format w) = []
  end
  ∧ (format = json
     ∨ Forall (λ r, Forall (λ v, stringable v = true) (record_values r))
         (concat (map page_items (rs ++ [res]))) →
     ∃ f, export_file js format (concat (map page_items (rs ++ [res]))) = Normal f)
  ∧ length (requests (POST js fetch username format w)) = S (length rs)
  ∧ world_after (POST js fetch username format w) = w3.
Proof.
  intros Hwalk Hlen Hf Hlast.
  destruct (loop_walk js fetch username w (num_of_Z 1) rs w2 page2 Hwalk)
    as (reqs & Hreqs & Hloop).
  assert (∃ left, 100%nat = (length rs + S left)%nat) as [left Hl].
  { exists (99 - length rs)%nat. lia. }
  assert (pages_loop js fetch username 100 w [] (num_of_Z 1) []
          = (w3, reqs ++ [page_request username page2],
             Normal (Finished (concat (map page_items (rs ++ [res])))))) as H.
  { rewrite Hl, Hloop.
    rewrite (loop_step_last js fetch username left w2 _ page2 _ w3 res Hf Hlast).
    rewrite map_app, concat_app. cbn [map concat]. by rewrite app_nil_r. }
  destruct (POST_exported js fetch username format w _ _ _ H) as (Hex & Hrq & Hw).
  split; [done|]. split; [apply export_file_Normal|].
  split; [|done]. rewrite Hrq, length_app. simpl. lia.
Qed.


(** C10: a successful page whose JSON body is not a non-empty array adds
    nothing to the accumulated records and raises no failure; the Link
    header of that page still decides whether the loop goes on, and when
    it has no next pointer the loop ends normally: such a first page
    makes the handler write the empty export and reply ok with count 0. *)
Theorem empty_chunk_adds_nothing (username : string) (left : nat) (w w1 : World)
    (log : list request) (page : number) (all : list value)
    (res : response) (chunk : value) :
  fetch w (page_request username page) = (w1, Normal res) →
  ok res = true →
  body_json res = Normal chunk →
  (∀ x elems, chunk ≠ Arr (x :: elems)) →
  ∃ o, parseNextFromLink js (link res) = Normal o
       ∧ pages_loop js fetch username (S left) w log page all
         = (if truthy_page o
            then pages_loop js fetch username left w1
                   (log ++ [page_request username page]) (default page o) all
            else (w1, log ++ [page_request username page], Normal (Finished all)))
       ∧ (truthy_page o = false → page = num_of_Z 1 →
          ∀ format,
            ∃ f, export_file js format [] = Normal f
                 ∧ POST js fetch username format w
                   = {| reply := export_reply js format [];
                        requests := [page_request username page];
                        written := [f];
                        world_after := w1 |}).
Proof.
  intros Hf Hok Hbody Hchunk.
  destruct (parseNextFromLink_total js (link res)) as [o Ho].
  exists o. split; [done|].
  assert (∀ acc, push_chunk acc chunk = acc) as Hpush.
  { intros acc. unfold push_chunk.
    destruct chunk as [| | | | |elems|]; try done.
    destruct elems as [|x elems]; [done|]. by destruct (Hchunk x elems). }
  assert (∀ n acc lg,
            pages_loop js fetch username (S n) w lg page acc
            = (if truthy_page o
               then pages_loop js fetch username n w1
                      (lg ++ [page_request username page]) (default page o) acc
               else (w1, lg ++ [page_request username page], Normal (Finished acc))))
    as Hloop.
  { intros n acc lg. cbn [pages_loop]. fold (page_request username page).
    rewrite Hf, Hok. cbn [negb]. rewrite Hbody, Ho, Hpush.
    destruct o as [m|]; [|done]. simpl. by destruct (truthy_number m). }
  split; [apply Hloop|].
  intros Ht -> format.
  assert (pages_loop js fetch username 100 w [] (num_of_Z 1) []
          = (w1, [page_request username (num_of_Z 1)], Normal (Finished []))) as H.
  { by rewrite Hloop, Ht. }
  rewrite (POST_finished js fetch username format w _ _ _ H).
  destruct format; eexists; (split; [reflexivity|]); reflexivity.
Qed.

End ExportHandler.

(** ** The export handler on concrete remotes *)

Lemma same_number_eq (a b : number) : Host.same_number a b = true → a = b.
Proof.
  destruct a as [| | |sa ma ea], b as [| | |sb mb eb]; try done. simpl.
  intros [[Hs Hm]%andb_true_iff He]%andb_true_iff.
  apply Bool.eqb_prop in Hs as ->. apply Pos.eqb_eq in Hm as ->.
  by apply Z.eqb_eq in He as ->.
Qed.

(** The numbered remote serves the pages it is asked for, one after the
    other, as long as they point on. *)
Lemma numbered_walk (last : Z) (n : nat) :
  ∀ (k : Z) (w : nat),
    Sample.points_on last k n = true →
    walk host (Sample.numbered last) "octocat" w (num_of_Z k)
      (Sample.pages_from last k n) (n + w)%nat (num_of_Z (k + Z.of_nat n)).
Proof.
  induction n as [|n IH]; intros k w Hc.
  - simpl. rewrite Z.add_0_r. constructor.
  - cbn [Sample.points_on] in Hc.
    apply andb_true_iff in Hc
      as [[[[Hk Hn]%andb_true_iff Ht]%andb_true_iff Hi]%andb_true_iff Hc].
    apply Z.eqb_eq in Hi.
    destruct (parseNextFromLink host _) as [[m|]|] eqn:Hm; try done.
    apply same_number_eq in Hn as ->.
    cbn [Sample.pages_from].
    replace (k + Z.of_nat (S n)) with ((k + 1) + Z.of_nat n) by lia.
    replace (S n + w)%nat with (n + S w)%nat by lia.
    eapply walk_cons; [| |apply IH, Hc].
    + unfold Sample.numbered. cbn [req_page page_request]. by rewrite Hi.
    + split; [done|]. split; [by eexists|]. split.
      * cbn [link Sample.numbered_page]. rewrite Hk. exact Hm.
      * done.
Qed.

Lemma cyclic_endless (w : nat) (page : number) :
  endless host Sample.cyclic "octocat" w page.
Proof.
  exists (λ _ _, True). split; [done|].
  intros w0 page0 _. eexists (S w0), _, (num_of_Z 2).
  split; [reflexivity|]. split; [|done].
  split; [reflexivity|]. split; [by eexists|].
  split; [vm_compute; reflexivity | reflexivity].
Qed.

(** C1 does not hold as stated: on a cyclic chain the handler makes
    exactly 100 requests, but its reply is the ordinary ok reply and does
    not say that the result was truncated. *)
Lemma cyclic_chain_not_reported :
  endless host Sample.cyclic "octocat" 0%nat (num_of_Z 1)
  ∧ length (requests (POST host Sample.cyclic "octocat" json 0%nat)) = 100%nat
  ∧ reply (POST host Sample.cyclic "octocat" json 0%nat)
    = {| reply_body := Obj [ ("ok", Bool true);
                             ("count", Num (num_of_Z 100));
                             ("path", Str "/srv/stars/stars.json");
                             ("format", Str "json") ];
         reply_status := 200 |}
  ∧ get_opt (reply_body (reply (POST host Sample.cyclic "octocat" json 0%nat)))
      "truncated" ≠ Bool true.
Proof.
  split; [apply cyclic_endless|].
  split; [vm_compute; reflexivity|].
  split; [vm_compute; reflexivity|].
  vm_compute. discriminate.
Qed.

Lemma export_stops_at_page_cap_witness :
  endless host Sample.cyclic "octocat" 0%nat (num_of_Z 1)
  ∧ length (requests (POST host Sample.cyclic "octocat" csv 0%nat)) = 100%nat.
Proof.
  split; [apply cyclic_endless|].
  exact (proj1 (export_stops_at_page_cap host Sample.cyclic "octocat" csv 0%nat
                  (cyclic_endless 0%nat (num_of_Z 1)))).
Defined.

Lemma numbered_last_page (last : Z) : last_page host (Sample.numbered_page last last).
Proof.
  split; [done|]. split; [by eexists|].
  exists None. cbn [link Sample.numbered_page]. by rewrite Z.ltb_irrefl.
Qed.

(** C2 does not hold as stated: a remote with 101 pages, each successful
    and pointing to the next, the last one without a next pointer, is a
    finite chain; the handler stops after 100 requests and exports the
    100 records of the first 100 pages, not the 101 records of the chain. *)
Lemma export_caps_longer_chain :
  walk host (Sample.numbered 101) "octocat" 0%nat (num_of_Z 1)
    (Sample.pages_from 101 1 100) 100%nat (num_of_Z 101)
  ∧ Sample.numbered 101 100%nat (page_request "octocat" (num_of_Z 101))
    = (101%nat, Normal (Sample.numbered_page 101 101))
  ∧ last_page host (Sample.numbered_page 101 101)
  ∧ length (concat (map page_items
              (Sample.pages_from 101 1 100 ++ [Sample.numbered_page 101 101])))
    = 101%nat
  ∧ length (requests (POST host (Sample.numbered 101) "octocat" json 0%nat)) = 100%nat
  ∧ written (POST host (Sample.numbered 101) "octocat" json 0%nat)
    = [("/srv/stars/stars.json",
        JsonText (concat (map page_items (Sample.pages_from 101 1 100))))]
  ∧ get_opt (reply_body (reply (POST host (Sample.numbered 101) "octocat" json 0%nat)))
      "count" = Num (num_of_Z 100).
Proof.
  split.
  { apply (numbered_walk 101 100 1 0%nat). vm_compute. reflexivity. }
  split; [vm_compute; reflexivity|].
  split; [apply numbered_last_page|].
  repeat split; vm_compute; reflexivity.
Qed.

(** The exported records are the raw records of the remote, and a
    completed export says nothing about truncation. *)
Lemma export_keeps_raw_records :
  written (POST host Sample.single "octocat" json 0%nat)
    = [("/srv/stars/stars.json", JsonText [Sample.raw])]
  ∧ normalize Sample.raw ≠ Normal Sample.raw
  ∧ get_opt (reply_body (reply (POST host Sample.single "octocat" json 0%nat)))
      "truncated" = Undefined.
Proof.
  split; [vm_compute; reflexivity|].
  split; [vm_compute; discriminate | vm_compute; reflexivity].
Qed.

(** With csv, a record that holds a value without string form makes the
    export fail after the pages were fetched: the reply is the error
    with status 400 and no file is written, while the same export as
    json is written. *)
Lemma export_csv_needs_string_forms :
  reply (POST host Sample.awkward "octocat" csv 0%nat)
    = {| reply_body := Obj [("error", Str "Cannot convert object to primitive value")];
         reply_status := 400 |}
  ∧ written (POST host Sample.awkward "octocat" csv 0%nat) = []
  ∧ written (POST host Sample.awkward "octocat" json 0%nat)
    = [("/srv/stars/stars.json", JsonText [Sample.unprintable])].
Proof. repeat split; vm_compute; reflexivity. Qed.

Lemma export_collects_finite_chain_witness :
  walk host (Sample.numbered 3) "octocat" 0%nat (num_of_Z 1)
    (Sample.pages_from 3 1 2) 2%nat (num_of_Z 3)
  ∧ last_page host (Sample.numbered_page 3 3)
  ∧ reply (POST host (Sample.numbered 3) "octocat" json 0%nat)
    = export_reply host json
        (concat (map page_items (Sample.pages_from 3 1 2 ++ [Sample.numbered_page 3 3])))
  ∧ written (POST host (Sample.numbered 3) "octocat" json 0%nat)
    = [("/srv/stars/stars.json",
        JsonText (concat (map page_items
                    (Sample.pages_from 3 1 2 ++ [Sample.numbered_page 3 3]))))].
Proof.
  assert (walk host (Sample.numbered 3) "octocat" 0%nat (num_of_Z 1)
            (Sample.pages_from 3 1 2) 2%nat (num_of_Z 3)) as Hwalk.
  { apply (numbered_walk 3 2 1 0%nat). vm_compute. reflexivity. }
  split; [exact Hwalk|]. split; [apply numbered_last_page|].
  refine (proj1 (export_collects_finite_chain host (Sample.numbered 3)
                   "octocat" json 0%nat 2%nat 3%nat (Sample.pages_from 3 1 2)
                   (num_of_Z 3) (Sample.numbered_page 3 3)
                   Hwalk _ _ (numbered_last_page 3))).
  - simpl. lia.
  - vm_compute. reflexivity.
Defined.




Lemma empty_chunk_adds_nothing_witness :
  ok Sample.not_an_array = true
  ∧ POST host Sample.odd "octocat" json 0%nat
    = {| reply := export_reply host json [];
         requests := [page_request "octocat" (num_of_Z 1)];
         written := [("/srv/stars/stars.json", JsonText [])];
         world_after := 1%nat |}.
Proof.
  split; [reflexivity|].
  destruct (empty_chunk_adds_nothing host Sample.odd "octocat" 99 0%nat 1%nat []
              (num_of_Z 1) [] Sample.not_an_array (Obj [("message", Str "ok")]))
    as (o & Ho & _ & Hpost).
  - reflexivity.
  - reflexivity.
  - reflexivity.
  - intros x elems. discriminate.
  - destruct (Hpost ltac:(simpl in Ho; by injection Ho as <-) eq_refl json)
      as (f & Hf & HP).
    injection Hf as <-. exact HP.
Defined.

(** ** Tables read back *)

Section Tables.

Context (js : Builtins).

Import Text.

Lemma includes_app (c : ascii) (s t : string) :
  includes c (s +:+ t) = includes c s || includes c t.
Proof.
  induction s as [|a s IH]; [done|]. rewrite app_cons. simpl.
  by rewrite IH, orb_assoc.
Qed.

Lemma includes_double_quotes (c : ascii) (s : string) :
  c ≠ dquote → includes c (double_quotes s) = includes c s.
Proof.
  intros Hc. induction s as [|a s IH]; [done|]. cbn [double_quotes].
  destruct (char_eqb a dquote) eqn:Ha; cbn [includes]; rewrite IH; [|done].
  apply char_eqb_true in Ha as ->.
  by rewrite (proj2 (char_eqb_false dquote c)) by congruence.
Qed.

Lemma includes_quoted (c : ascii) (s : string) :
  c ≠ dquote → includes c (quoted s) = includes c s.
Proof.
  intros Hc. unfold quoted. cbn [includes]. rewrite includes_app. cbn [includes].
  rewrite includes_double_quotes by done.
  rewrite (proj2 (char_eqb_false dquote c)) by congruence.
  cbn [orb]. by rewrite !orb_false_r.
Qed.

Lemma escape_clean (c : ascii) (s : string) :
  c ≠ dquote → includes c s = false → includes c (escape s) = false.
Proof.
  intros Hc Hs. unfold escape.
  destruct (_ || _); [|done]. by rewrite includes_quoted.
Qed.

Lemma join_clean (c : ascii) (sep : string) (l : list string) :
  includes c sep = false →
  Forall (λ f, includes c f = false) l →
  includes c (join sep l) = false.
Proof.
  intros Hsep. induction 1 as [|f l Hf Hl IH]; [done|].
  destruct l as [|g l]; [done|].
  rewrite join_cons by done. rewrite !includes_app, Hf, Hsep. by rewrite IH.
Qed.

(** A field without comma and double quote is read as it stands. *)
Lemma read_row_plain (s : string) :
  includes dquote s = false → includes comma s = false →
  read_row false s = [s]
  ∧ ∀ t, read_row false (s +:+ String comma t) = s :: read_row false t.
Proof.
  induction s as [|a s IH]; intros Hq Hc.
  - split; [done|]. intros t. rewrite app_empty. done.
  - simpl in Hq, Hc.
    apply orb_false_iff in Hq as [Hq Hq'], Hc as [Hc Hc'].
    destruct (IH Hq' Hc') as [E1 E2]. split.
    + simpl. by rewrite Hc, Hq, E1.
    + intros t. rewrite app_cons. simpl. by rewrite Hc, Hq, E2.
Qed.

Lemma char_eqb_refl (a : ascii) : char_eqb a a = true.
Proof. by apply char_eqb_true. Qed.

Lemma read_row_doubled (r : string) :
  read_row true (String dquote (String dquote r)) = push_char dquote (read_row true r).
Proof. cbn [read_row]. by rewrite !char_eqb_refl. Qed.

Lemma read_row_inside (a : ascii) (r : string) :
  char_eqb a dquote = false →
  read_row true (String a r) = push_char a (read_row true r).
Proof. intros Ha. cbn [read_row]. by rewrite Ha. Qed.

Lemma read_row_open (r : string) :
  read_row false (String dquote r) = read_row true r.
Proof. cbn [read_row]. by rewrite char_eqb_refl. Qed.

(** Inside a quoted field the doubled quotes are read as single ones up
    to the closing quote. *)
Lemma read_row_quoted (s : string) :
  read_row true (double_quotes s +:+ String dquote EmptyString) = [s]
  ∧ ∀ t, read_row true (double_quotes s +:+ String dquote (String comma t))
         = s :: read_row false t.
Proof.
  induction s as [|a s [E1 E2]].
  - split; [done|]. intros t. rewrite app_empty. done.
  - cbn [double_quotes]. destruct (char_eqb a dquote) eqn:Ha.
    + apply char_eqb_true in Ha as ->.
      split; [|intros t]; rewrite !app_cons, read_row_doubled, ?E1, ?E2; done.
    + split; [|intros t]; rewrite !app_cons, read_row_inside, ?E1, ?E2; done.
Qed.

Lemma read_row_of_quoted (s : string) :
  read_row false (quoted s) = [s]
  ∧ ∀ t, read_row false (quoted s +:+ String comma t) = s :: read_row false t.
Proof.
  unfold quoted. destruct (read_row_quoted s) as [E1 E2]. split.
  - by rewrite read_row_open.
  - intros t. rewrite app_cons, app_assoc_str, app_cons, app_empty.
    by rewrite read_row_open.
Qed.

Lemma read_row_escape (s : string) :
  read_row false (escape s) = [s]
  ∧ ∀ t, read_row false (escape s +:+ String comma t) = s :: read_row false t.
Proof.
  unfold escape.
  destruct (includes dquote s) eqn:Hq; [apply read_row_of_quoted|].
  destruct (includes comma s) eqn:Hc; [apply read_row_of_quoted|].
  destruct (includes LF s); [apply read_row_of_quoted|].
  by apply read_row_plain.
Qed.

(** A row of escaped fields reads back as the fields. *)
Lemma read_row_join (fields : list string) :
  fields ≠ [] →
  read_row false (join "," (map escape fields)) = fields.
Proof.
  induction fields as [|f fields IH]; [done|]. intros _.
  destruct fields as [|g fields].
  - simpl. apply read_row_escape.
  - cbn [map]. rewrite join_cons by done.
    change ("," +:+ ?t) with (String comma t).
    rewrite (proj2 (read_row_escape f)). f_equal. by apply IH.
Qed.

End Tables.

Section TableLines.

Context (js : Builtins).

Import Text.

Lemma split_plain (c : ascii) (s : string) :
  includes c s = false →
  split c s = [s] ∧ ∀ t, split c (s +:+ String c t) = s :: split c t.
Proof.
  induction s as [|a s IH]; intros Hs.
  - split; [done|]. intros t. rewrite app_empty. cbn [split].
    by rewrite char_eqb_refl.
  - cbn [includes] in Hs. apply orb_false_iff in Hs as [Ha Hs].
    destruct (IH Hs) as [E1 E2]. split.
    + cbn [split]. by rewrite Ha, E1.
    + intros t. rewrite app_cons. cbn [split]. by rewrite Ha, E2.
Qed.

(** Lines without line feed, each followed by a line feed, split back
    into the lines and a final empty piece. *)
Lemma split_lines (lines : list string) :
  Forall (λ l, includes LF l = false) lines →
  lines ≠ [] →
  split LF (join newline lines +:+ newline) = lines ++ [EmptyString].
Proof.
  induction 1 as [|l lines Hl Hlines IH]; [done|]. intros _.
  destruct lines as [|l2 lines].
  - cbn [join app]. unfold newline.
    by rewrite (proj2 (split_plain LF l Hl)).
  - rewrite join_cons by done. rewrite !app_assoc_str.
    unfold newline at 1. rewrite app_cons, app_empty.
    rewrite (proj2 (split_plain LF l Hl)). cbn [app]. f_equal. by apply IH.
Qed.

(** The texts of fields hold no line break, and neither does the row
    written from them. *)
Lemma fields_clean (vals : list value) (fields : list string) :
  Forall2 (λ v f, field_text js v = Normal f) vals fields →
  Forall (λ f, includes CR f = false ∧ includes LF f = false) fields.
Proof.
  induction 1 as [|v f vals fields Hf _ IH]; constructor; [|done].
  by apply (field_text_clean js v).
Qed.

Lemma csv_row_clean (c : ascii) (fields : list string) :
  c = LF ∨ c = CR →
  Forall (λ f, includes CR f = false ∧ includes LF f = false) fields →
  includes c (join "," (map escape fields)) = false.
Proof.
  intros Hc Hall. apply join_clean.
  - by destruct Hc as [-> | ->].
  - apply Forall_forall. intros g [f [-> Hf]]%list_elem_of_fmap.
    rewrite Forall_forall in Hall. destruct (Hall f Hf) as [Hcr Hlf].
    apply escape_clean; by destruct Hc as [-> | ->].
Qed.

(** A row made of the escaped texts of some values reads back as these
    texts and holds no line break. *)
Lemma row_of_fields (vals : list value) (row : list string) :
  vals ≠ [] →
  (fields ← map_completion (field_text js) vals ;;; Normal (map escape fields))
  = Normal row →
  Forall2 (λ v f, field_text js v = Normal f) vals (read_row false (join "," row))
  ∧ includes LF (join "," row) = false
  ∧ includes CR (join "," row) = false.
Proof.
  intros Hne.
  destruct (map_completion (field_text js) vals) as [fields|e] eqn:Hm; [|done].
  cbn [cbind]. intros [= <-].
  apply map_completion_Normal in Hm.
  assert (fields ≠ []) as Hf.
  { intros ->. apply Forall2_nil_inv_r in Hm. done. }
  rewrite read_row_join by done.
  pose proof (fields_clean vals fields Hm) as Hclean.
  split; [done|]. split; apply csv_row_clean; auto.
Qed.

Lemma toCSV_row_Normal (r : value) (row : list string) :
  toCSV_row js r = Normal row →
  Forall2 (λ v f, field_text js v = Normal f) (record_values r)
    (read_row false (join "," row))
  ∧ includes LF (join "," row) = false
  ∧ includes CR (join "," row) = false.
Proof. rewrite toCSV_row_fields. by apply row_of_fields. Qed.

Lemma toCSVFromRepos_row_reads (r : RepoItem.t) (row : list string) :
  toCSVFromRepos_row js r = Normal row →
  Forall2 (λ v f, field_text js v = Normal f) (item_values r)
    (read_row false (join "," row))
  ∧ includes LF (join "," row) = false
  ∧ includes CR (join "," row) = false.
Proof. rewrite toCSVFromRepos_row_fields. by apply row_of_fields. Qed.

(** The lines of a table whose rows hold no line feed. *)
Lemma table_lines (header : string) (rows : list string) :
  includes LF header = false →
  Forall (λ l, includes LF l = false) rows →
  split LF (join newline (header :: rows) +:+ newline) = header :: rows ++ [EmptyString].
Proof.
  intros Hh Hrows. rewrite split_lines; [done| |done]. by constructor.
Qed.

(** X1: when every value written has a string form, [toCSV] returns a
    table with one line for the header and one line per record, in the
    order of the records, each line ended by a line feed and none
    holding a line break of its own: splitting the text at the line
    feeds gives the header, the rows and a final empty piece, and the
    text has no carriage return.  Otherwise [toCSV] throws the TypeError
    of the conversion, and some value of a record has no string form. *)
Theorem toCSV_lines (all : list value) :
  match toCSV js all with
  | Normal text =>
      ∃ rows,
        Forall2 (λ r row, toCSV_row js r = Normal row) all rows
        ∧ split LF text
          = join "," toCSV_headers :: map (join ",") rows ++ [EmptyString]
        ∧ length (split LF text) = (length all + 2)%nat
        ∧ includes CR text = false
  | Throw e =>
      e = not_primitive
      ∧ Exists (λ r, Exists (λ v, stringable v = false) (record_values r)) all
  end.
Proof.
  destruct (toCSV js all) as [text|e] eqn:Ht; [|by apply (toCSV_Throw js)].
  rewrite toCSV_rows in Ht.
  destruct (map_completion (toCSV_row js) all) as [rows|e] eqn:Hm; [|done].
  assert (text = join newline (join "," toCSV_headers :: map (join ",") rows)
                 +:+ newline) as -> by (cbn [cbind] in Ht; congruence).
  apply map_completion_Normal in Hm.
  assert (Forall (λ l, includes LF l = false ∧ includes CR l = false)
            (map (join ",") rows)) as Hclean.
  { clear Ht. induction Hm as [|r row all rows Hr _ IH]; constructor; [|done].
    by destruct (toCSV_row_Normal r row Hr) as (_ & ? & ?). }
  assert (split LF (join newline (join "," toCSV_headers :: map (join ",") rows)
                    +:+ newline)
          = join "," toCSV_headers :: map (join ",") rows ++ [EmptyString]) as Hs.
  { apply table_lines; [by vm_compute|].
    eapply Forall_impl; [exact Hclean|]. by intros l [? _]. }
  exists rows. split; [done|]. split; [exact Hs|]. split.
  - rewrite Hs. cbn [length]. rewrite length_app, length_map.
    rewrite <- (Forall2_length _ _ _ Hm). simpl. lia.
  - rewrite includes_app. rewrite join_clean; [done|done|].
    constructor; [by vm_compute|].
    eapply Forall_impl; [exact Hclean|]. by intros l [_ ?].
Qed.

(** X2: a row written by [toCSV], read back by the rules of RFC 4180,
    gives exactly eight fields: the texts of the eight values of the
    record, whatever commas and double quotes they hold; a value that is
    [null] or absent reads back as the empty field.  The row is written
    unless one of the eight values has no string form, and then the
    TypeError of the conversion is thrown. *)
Theorem toCSV_row_reads_back (r : value) :
  match toCSV_row js r with
  | Normal row =>
      Forall2 (λ v field, field_text js v = Normal field) (record_values r)
        (read_row false (join "," row))
      ∧ length (read_row false (join "," row)) = 8%nat
  | Throw e =>
      e = not_primitive ∧ Exists (λ v, stringable v = false) (record_values r)
  end
  ∧ (∀ v, nullish v = true → field_text js v = Normal EmptyString).
Proof.
  split.
  - destruct (toCSV_row js r) as [row|e] eqn:Hr; [|by apply (toCSV_row_Throw js)].
    destruct (toCSV_row_Normal r row Hr) as (H & _ & _).
    split; [exact H|]. by rewrite <- (Forall2_length _ _ _ H).
  - intros v Hv. unfold field_text. by rewrite Hv.
Qed.

(** X3: [toCSVFromRepos] always returns its table; the table splits at
    the line feeds into the header, one row per item in the order of the
    items, and a final empty piece; and each row reads back as the eight
    texts of the item's values. *)
Theorem toCSVFromRepos_reads_back (repos : list RepoItem.t) :
  ∃ text rows,
    toCSVFromRepos js repos = Normal text
    ∧ Forall2 (λ r row,
                 toCSVFromRepos_row js r = Normal row
                 ∧ Forall2 (λ v field, field_text js v = Normal field) (item_values r)
                     (read_row false (join "," row)))
        repos rows
    ∧ split LF text
      = join "," toCSVFromRepos_headers :: map (join ",") rows ++ [EmptyString].
Proof.
  destruct (toCSVFromRepos_Normal js repos) as (rows & Hm & Ht).
  apply map_completion_Normal in Hm.
  eexists _, rows. split; [exact Ht|]. split.
  - eapply Forall2_impl; [exact Hm|]. intros r row Hr. split; [done|].
    by destruct (toCSVFromRepos_row_reads r row Hr) as (? & _ & _).
  - apply table_lines; [by vm_compute|].
    clear Ht. induction Hm as [|r row repos rows Hr _ IH]; constructor; [|done].
    by destruct (toCSVFromRepos_row_reads r row Hr) as (_ & ? & _).
Qed.

End TableLines.

(** ** More on the export handler *)

Section ExportMore.

Context (js : Builtins) {World : Type}
        (fetch : World → request → World * completion response).

(** What the loop asks for, whatever the remote answers: at most one
    request per allowed iteration, all for the same user and page size,
    the first one for the page the loop starts from. *)
Lemma loop_requests (username : string) (left : nat) :
  ∀ w log page all,
    ∃ reqs,
      (pages_loop js fetch username left w log page all).1.2 = log ++ reqs
      ∧ (length reqs ≤ left)%nat
      ∧ Forall (λ rq, req_username rq = username ∧ req_per_page rq = 100) reqs
      ∧ (left ≠ 0%nat → head reqs = Some (page_request username page)).
Proof.
  induction left as [|left IH]; intros w log page all.
  - exists []. simpl. by rewrite app_nil_r.
  - cbn [pages_loop]. fold (page_request username page).
    destruct (fetch w (page_request username page)) as [w1 fetched].
    assert (∃ reqs,
              log ++ [page_request username page] = log ++ reqs
              ∧ (length reqs ≤ S left)%nat
              ∧ Forall (λ rq, req_username rq = username ∧ req_per_page rq = 100) reqs
              ∧ (S left ≠ 0%nat → head reqs = Some (page_request username page)))
      as Hone.
    { exists [page_request username page]. split; [done|]. split; [simpl; lia|].
      split; [by repeat constructor | done]. }
    destruct fetched as [res|e]; [|exact Hone].
    destruct (negb (ok res)); [exact Hone|].
    destruct (body_json res) as [chunk|e]; [|exact Hone].
    destruct (parseNextFromLink js (link res)) as [[n|]|e]; [|exact Hone..].
    destruct (truthy_number n); [|exact Hone].
    destruct (IH w1 (log ++ [page_request username page]) n (push_chunk all chunk))
      as (reqs & Hlog & Hlen & Hall & _).
    exists (page_request username page :: reqs).
    split; [by rewrite Hlog, <- app_assoc|]. split; [simpl; lia|].
    split; [by constructor | done].
Qed.

(** How the loop can end: with an error reply for a page whose status
    is not a success, with the records collected, or with a thrown
    error. *)
Lemma loop_returned (username : string) (left : nat) :
  ∀ w log page all w' log' r,
    pages_loop js fetch username left w log page all = (w', log', Normal (Returned r)) →
    ∃ res, api_error js res = Normal r ∧ ok res = false.
Proof.
  induction left as [|left IH]; intros w log page all w' log' r; [done|].
  cbn [pages_loop].
  destruct (fetch w _) as [w1 fetched].
  destruct fetched as [res|e]; [|done].
  destruct (ok res) eqn:Hok; cbn [negb].
  - destruct (body_json res) as [chunk|e]; [|done].
    destruct (parseNextFromLink js (link res)) as [[n|]|e]; [|done..].
    destruct (truthy_number n); [|done]. apply IH.
  - destruct (api_error js res) as [r'|e] eqn:Hr; [|done].
    intros [= _ _ <-]. by exists res.
Qed.

(** X4: whatever the remote answers, one run of the export handler makes
    at least one and at most 100 requests, every one of them for the
    given user with page size 100, the first one for page 1. *)
Theorem POST_request_bound (username : string) (format : Format) (w : World) :
  (1 ≤ length (requests (POST js fetch username format w)) ≤ 100)%nat
  ∧ Forall (λ rq, req_username rq = username ∧ req_per_page rq = 100)
      (requests (POST js fetch username format w))
  ∧ head (requests (POST js fetch username format w))
    = Some (page_request username (num_of_Z 1)).
Proof.
  destruct (loop_requests username 100 w [] (num_of_Z 1) [])
    as (reqs & Hlog & Hlen & Hall & Hhead).
  assert (requests (POST js fetch username format w) = reqs) as ->.
  { unfold POST.
    destruct (pages_loop js fetch username 100 w [] (num_of_Z 1) [])
      as [[w1 log] exit].
    simpl in Hlog. subst log.
    destruct exit as [[r|all]|e]; cbn; [done| |done].
    destruct format; cbn; [done|]. by destruct (toCSV js all). }
  specialize (Hhead ltac:(done)).
  split; [|done]. split; [|done].
  destruct reqs; [done | simpl; lia].
Qed.

(** X5: a run of the export handler writes a file exactly when it
    replies with status 200; the reply then is the ok reply whose count
    and path are those of the one file written.  Every other reply is an
    error object with another status, and nothing is written. *)
Theorem POST_reply_matches_file (username : string) (format : Format) (w : World) :
  (reply_status (reply (POST js fetch username format w)) = 200
   ∧ ∃ all f,
       export_file js format all = Normal f
       ∧ reply (POST js fetch username format w) = export_reply js format all
       ∧ written (POST js fetch username format w) = [f])
  ∨ (reply_status (reply (POST js fetch username format w)) ≠ 200
     ∧ written (POST js fetch username format w) = []
     ∧ ∃ msg, reply_body (reply (POST js fetch username format w))
              = Obj [("error", Str msg)]).
Proof.
  destruct (pages_loop js fetch username 100 w [] (num_of_Z 1) [])
    as [[w1 log] exit] eqn:Hloop.
  destruct exit as [[r|all]|e].
  - right. rewrite (POST_returned js fetch username format w w1 log r Hloop).
    apply loop_returned in Hloop as (res & Hr & Hok).
    rewrite (api_error_built js res Hok) in Hr.
    destruct ((300 <=? status res) && (status res <=? 599) && negb (status res =? 304))
      eqn:Hc; [|done].
    injection Hr as <-. cbn [reply written reply_status reply_body].
    split; [|split; [done | by eexists]].
    intros Hs. unfold ok in Hok. rewrite Hs in Hok. done.
  - rewrite (POST_finished js fetch username format w w1 log all Hloop).
    destruct (export_file js format all) as [f|e] eqn:Hf.
    + left. cbn [reply written]. split; [done | by exists all, f].
    + right. cbn [reply written reply_status reply_body caught_reply].
      split; [done|]. split; [done | by eexists].
  - right. rewrite (POST_threw js fetch username format w w1 log e Hloop).
    cbn [reply written reply_status reply_body caught_reply].
    split; [done|]. split; [done | by eexists].
Qed.

(** X6: when, after any number of successful pages, a request is
    rejected or is answered by a successful page whose body is not JSON,
    the handler replies with status 400 and the message of the error (or
    Unknown error when the message is empty) and writes nothing: the
    records of the earlier pages are dropped. *)
Theorem POST_thrown_error (username : string) (format : Format)
    (w w2 w3 : World) (rs : list response) (page2 : number)
    (fetched : completion response) (e : exn) :
  walk js fetch username w (num_of_Z 1) rs w2 page2 →
  (length rs < 100)%nat →
  fetch w2 (page_request username page2) = (w3, fetched) →
  fetched = Throw e
  ∨ (∃ res, fetched = Normal res ∧ ok res = true ∧ body_json res = Throw e) →
  reply (POST js fetch username format w)
    = {| reply_body :=
           Obj [("error", Str (if truthy_string (message e) then message e
                               else "Unknown error"))];
         reply_status := 400 |}
  ∧ written (POST js fetch username format w) = []
  ∧ length (requests (POST js fetch username format w)) = S (length rs).
Proof.
  intros Hwalk Hlen Hf Hthrow.
  destruct (loop_walk js fetch username w (num_of_Z 1) rs w2 page2 Hwalk)
    as (reqs & Hreqs & Hloop).
  assert (∃ left, 100%nat = (length rs + S left)%nat) as [left Hl].
  { exists (99 - length rs)%nat. lia. }
  assert (pages_loop js fetch username 100 w [] (num_of_Z 1) []
          = (w3, reqs ++ [page_request username page2], Throw e)) as H.
  { rewrite Hl, Hloop. cbn [pages_loop]. fold (page_request username page2).
    rewrite Hf. destruct Hthrow as [->|(res & -> & Hok & Hbody)]; [done|].
    by rewrite Hok, Hbody. }
  rewrite (POST_threw js fetch username format w _ _ _ H).
  cbn [reply written requests caught_reply].
  split; [done|]. split; [done|]. rewrite length_app. simpl. lia.
Qed.

End ExportMore.

Lemma broken_walk :
  walk host Demo.broken "octocat" 0%nat (num_of_Z 1)
    (Sample.pages_from 5 1 1) 1%nat (num_of_Z 2).
Proof.
  eapply (walk_cons _ _ _ _ _ 1%nat (Sample.numbered_page 5 1) (num_of_Z 2)).
  { vm_compute. reflexivity. }
  { split; [done|]. split; [by eexists|]. split; vm_compute; reflexivity. }
  apply walk_nil.
Qed.

Lemma POST_thrown_error_witness :
  reply (POST host Demo.broken "octocat" json 0%nat)
    = {| reply_body := Obj [("error", Str "Unexpected token < in JSON at position 0")];
         reply_status := 400 |}
  ∧ written (POST host Demo.broken "octocat" json 0%nat) = [].
Proof.
  pose proof (POST_thrown_error host Demo.broken "octocat" json 0%nat 1%nat 2%nat
                (Sample.pages_from 5 1 1) (num_of_Z 2) (Normal Demo.garbled)
                (Error "Unexpected token < in JSON at position 0") broken_walk) as H.
  destruct H as (Hreply & Hwritten & _).
  - simpl. lia.
  - vm_compute. reflexivity.
  - right. exists Demo.garbled. by repeat split.
  - split; [exact Hreply | exact Hwritten].
Defined.

(** ** More on the Link-header parsers *)

Section ParsersMore.

Context (js : Builtins).

Import Text.

Lemma write_entry_lookup_other (info : gmap string number) (p rel : string) :
  (∀ m, link_entry js p ≠ Some (rel, m)) →
  write_entry js info p !! rel = info !! rel.
Proof.
  intros Hp. unfold write_entry.
  destruct (link_entry js p) as [[r n]|] eqn:E; [|done].
  unfold set_prop. case_decide; [done|].
  apply lookup_insert_ne. intros ->. by apply (Hp n).
Qed.

Lemma write_entry_lookup_same (info : gmap string number) (p rel : string) (n : number) :
  link_entry js p = Some (rel, n) → rel ≠ "__proto__" →
  write_entry js info p !! rel = Some n.
Proof.
  intros Hp Hrel. unfold write_entry, set_prop. rewrite Hp.
  case_decide; [done|]. apply lookup_insert_eq.
Qed.

Lemma fold_write_other (parts : list string) (rel : string) :
  Forall (λ q, ∀ m, link_entry js q ≠ Some (rel, m)) parts →
  ∀ info, fold_left (write_entry js) parts info !! rel = info !! rel.
Proof.
  induction 1 as [|q parts Hq Hparts IH]; intros info; [done|].
  simpl. rewrite IH. by apply write_entry_lookup_other.
Qed.

Lemma fold_write_is_Some (parts : list string) (rel : string) :
  rel ≠ "__proto__" →
  ∀ info,
    is_Some (info !! rel) ∨ (∃ p n, p ∈ parts ∧ link_entry js p = Some (rel, n)) →
    is_Some (fold_left (write_entry js) parts info !! rel).
Proof.
  intros Hrel. induction parts as [|q parts IH]; intros info H.
  - destruct H as [H|(p & n & Hp & _)]; [done | by apply elem_of_nil in Hp].
  - simpl. apply IH.
    assert ((∃ m, link_entry js q = Some (rel, m))
            ∨ ¬ (∃ m, link_entry js q = Some (rel, m))) as [[m Hq]|Hq].
    { destruct (link_entry js q) as [[r m]|]; [|right; by intros [m Hm]].
      destruct (decide (r = rel)) as [->|Hne]; [left; eauto|].
      right. intros [m' Hm]. congruence. }
    + left. by rewrite (write_entry_lookup_same info q rel m).
    + destruct H as [H|(p & n & Hp & Hl)].
      * left. rewrite write_entry_lookup_other; [done|]. intros m Hm. apply Hq. eauto.
      * apply elem_of_cons in Hp as [->|Hp]; [destruct Hq; eauto|]. right. eauto.
Qed.

Lemma first_next_consistent (parts : list string) (p : string) (m : number) :
  consistent_entries js parts →
  p ∈ parts → link_entry js p = Some ("next", m) → Number_isFinite m = true →
  first_next js parts = Some m.
Proof.
  induction parts as [|q parts IH]; intros Hc Hp Hl Hfin.
  - by apply elem_of_nil in Hp.
  - simpl. destruct (next_of_entry js q) as [k|] eqn:Hq.
    + f_equal. unfold next_of_entry in Hq.
      destruct (link_entry js q) as [[rel k']|] eqn:Hlq; [|done].
      destruct (bool_decide (rel = "next")) eqn:Hrel; [|done].
      apply bool_decide_eq_true in Hrel as ->.
      destruct (Number_isFinite k'); [|done]. simpl in Hq. injection Hq as ->.
      apply (Hc q p "next" k m); [apply list_elem_of_here|done..].
    + apply elem_of_cons in Hp as [->|Hp].
      * unfold next_of_entry in Hq. rewrite Hl, Hfin in Hq. done.
      * apply IH; [|done..]. intros p1 p2 rel n1 n2 H1 H2.
        apply (Hc p1 p2 rel n1 n2); by apply list_elem_of_further.
Qed.

(** X7: on a header whose entries do not give one relation name
    different pages, the two parsers agree: [parseNextFromLink] returns
    the page that [parseLinkHeader] records under next when that page is
    finite, and [undefined] when there is none or it is infinite. *)
Theorem next_parsers_agree (l : string) (info : gmap string number) :
  consistent_entries js (split comma l) →
  parseLinkHeader js (Some l) = Normal info →
  parseNextFromLink js (Some l)
  = Normal (match info !! "next" with
            | Some m => if Number_isFinite m then Some m else None
            | None => None
            end).
Proof.
  intros Hc Hparse. rewrite parseLinkHeader_fold in Hparse. injection Hparse as <-.
  rewrite parseNextFromLink_first. f_equal.
  destruct (fold_left _ _ _ !! "next") as [m|] eqn:Hm.
  - apply fold_write_lookup in Hm as [Hm|(p & Hp & Hl)];
      [by rewrite lookup_empty in Hm|].
    destruct (Number_isFinite m) eqn:Hfin.
    + by apply (first_next_consistent _ p).
    + destruct (first_next js (split comma l)) as [k|] eqn:Hk; [|done].
      apply first_next_elem in Hk as (q & Hq & Hlq & Hfk).
      rewrite (Hc q p "next" k m Hq Hp Hlq Hl) in Hfk. congruence.
  - destruct (first_next js (split comma l)) as [k|] eqn:Hk; [|done].
    apply first_next_elem in Hk as (q & Hq & Hlq & _).
    assert (is_Some (fold_left (write_entry js) (split comma l) ∅ !! "next")) as [x Hx].
    { apply fold_write_is_Some; [done|]. right. eauto. }
    congruence.
Qed.

(** X8: when several entries offer one relation name other than
    __proto__ (a name that is never recorded), [parseLinkHeader] keeps
    the page of the last of them, and [parseNextFromLink] returns the
    page of the first entry that offers next with a finite page. *)
Theorem last_entry_wins (l : string) (before after : list string)
    (p rel : string) (n : number) :
  split comma l = before ++ p :: after →
  link_entry js p = Some (rel, n) →
  rel ≠ "__proto__" →
  (Forall (λ q, ∀ m, link_entry js q ≠ Some (rel, m)) after →
   ∃ info, parseLinkHeader js (Some l) = Normal info ∧ info !! rel = Some n)
  ∧ (rel = "next" → Number_isFinite n = true →
     Forall (λ q, next_of_entry js q = None) before →
     parseNextFromLink js (Some l) = Normal (Some n)).
Proof.
  intros Hsplit Hp Hrel. split.
  - intros Hafter. eexists. split; [apply parseLinkHeader_fold|].
    rewrite Hsplit, fold_left_app. cbn [fold_left].
    rewrite fold_write_other by done. by apply write_entry_lookup_same.
  - intros -> Hfin Hbefore. rewrite parseNextFromLink_first, Hsplit. f_equal.
    clear Hsplit. induction Hbefore as [|q before Hq _ IH].
    + simpl. unfold next_of_entry. by rewrite Hp, Hfin.
    + simpl. by rewrite Hq.
Qed.

Lemma split_nonempty (c : ascii) (s : string) : split c s ≠ [].
Proof.
  destruct s as [|a s]; [done|]. cbn [split].
  destruct (char_eqb a c); [done|]. by destruct (split c s).
Qed.

Lemma split_app (c : ascii) (s t : string) :
  split c (s +:+ String c t) = split c s ++ split c t.
Proof.
  induction s as [|a s IH].
  - rewrite app_empty. cbn [split]. by rewrite char_eqb_refl.
  - rewrite app_cons. cbn [split]. destruct (char_eqb a c); [by rewrite IH|].
    rewrite IH. pose proof (split_nonempty c s). by destruct (split c s).
Qed.

Lemma split_pieces_clean (c d : ascii) (s : string) :
  includes d s = false → Forall (λ q, includes d q = false) (split c s).
Proof.
  induction s as [|a s IH]; intros Hs; [by repeat constructor|].
  cbn [includes] in Hs. apply orb_false_iff in Hs as [Ha Hs].
  specialize (IH Hs). cbn [split]. destruct (char_eqb a c); [by constructor|].
  destruct (split c s) as [|h t]; [by repeat constructor; cbn; rewrite Ha|].
  inversion IH as [|?? Hh Ht]; subst. constructor; [|done].
  cbn [includes]. by rewrite Ha, Hh.
Qed.

(** An entry without a semicolon offers nothing. *)
Lemma link_entry_no_semicolon (q : string) :
  includes semicolon q = false → link_entry js q = None.
Proof.
  intros Hq. unfold link_entry. by rewrite (proj1 (split_plain semicolon q Hq)).
Qed.

Lemma fold_write_none (parts : list string) (info : gmap string number) :
  Forall (λ q, link_entry js q = None) parts →
  fold_left (write_entry js) parts info = info.
Proof.
  intros H. revert info. induction H as [|q parts Hq _ IH]; intros info; [done|].
  simpl. unfold write_entry at 2. rewrite Hq. apply IH.
Qed.

Lemma first_next_app_none (junk parts : list string) :
  Forall (λ q, link_entry js q = None) junk →
  first_next js (junk ++ parts) = first_next js parts
  ∧ first_next js (parts ++ junk) = first_next js parts.
Proof.
  intros H. split.
  - induction H as [|q junk Hq _ IH]; [done|].
    simpl. unfold next_of_entry. by rewrite Hq.
  - induction parts as [|p parts IH].
    + simpl. induction H as [|q junk Hq _ IHj]; [done|].
      simpl. unfold next_of_entry. by rewrite Hq.
    + simpl. by rewrite IH.
Qed.

(** X9: text between commas that has no semicolon is skipped, wherever
    it stands: adding it after or before a header changes neither the
    cursor of [parseLinkHeader] nor the page of [parseNextFromLink]. *)
Theorem entries_without_semicolon_ignored (l junk : string) :
  includes semicolon junk = false →
  parseLinkHeader js (Some (l +:+ String comma junk)) = parseLinkHeader js (Some l)
  ∧ parseLinkHeader js (Some (junk +:+ String comma l)) = parseLinkHeader js (Some l)
  ∧ parseNextFromLink js (Some (l +:+ String comma junk)) = parseNextFromLink js (Some l)
  ∧ parseNextFromLink js (Some (junk +:+ String comma l)) = parseNextFromLink js (Some l).
Proof.
  intros Hjunk.
  assert (Forall (λ q, link_entry js q = None) (split comma junk)) as Hnone.
  { eapply Forall_impl; [by apply split_pieces_clean|].
    intros q Hq. by apply link_entry_no_semicolon. }
  rewrite !parseLinkHeader_fold, !parseNextFromLink_first, !split_app.
  rewrite !fold_left_app.
  rewrite (fold_write_none (split comma junk) ∅) by done.
  rewrite fold_write_none by done.
  destruct (first_next_app_none (split comma junk) (split comma l) Hnone) as [-> ->].
  done.
Qed.

End ParsersMore.

Lemma next_parsers_agree_witness :
  parseNextFromLink host (Some Sample.next_then_last) = Normal (Some (num_of_Z 2)).
Proof.
  exact (next_parsers_agree host Sample.next_then_last
           {[ "next" := num_of_Z 2; "last" := num_of_Z 5 ]}
           next_last_consistent parseLinkHeader_example).
Defined.

Lemma last_entry_wins_witness :
  (∃ info, parseLinkHeader host (Some Sample.next2_next3) = Normal info
           ∧ info !! "next" = Some (num_of_Z 3))
  ∧ parseNextFromLink host (Some Sample.next3_next2) = Normal (Some (num_of_Z 3)).
Proof.
  split.
  - refine (proj1 (last_entry_wins host Sample.next2_next3
                     [Sample.entry "2" "next"] [] (Sample.entry "3" "next")
                     "next" (num_of_Z 3) _ _ _) _).
    + vm_compute. reflexivity.
    + vm_compute. reflexivity.
    + done.
    + constructor.
  - refine (proj2 (last_entry_wins host Sample.next3_next2
                     [] [Sample.entry "2" "next"] (Sample.entry "3" "next")
                     "next" (num_of_Z 3) _ _ _) _ _ _).
    + vm_compute. reflexivity.
    + vm_compute. reflexivity.
    + done.
    + reflexivity.
    + reflexivity.
    + constructor.
Defined.

Lemma entries_without_semicolon_ignored_witness :
  parseLinkHeader host (Some Demo.with_junk)
  = parseLinkHeader host (Some Sample.next_then_last).
Proof.
  refine (proj1 (entries_without_semicolon_ignored host Sample.next_then_last
                   "junk" _)).
  vm_compute. reflexivity.
Defined.

(** ** The starred route *)

Lemma get_nullish (v : value) (k : string) :
  nullish v = true → ∃ e, get v k = Throw e.
Proof. destruct v; try done; intros _; by eexists. Qed.

Lemma get_defined (v : value) (k : string) :
  nullish v = false → get v k = Normal (get_opt v k).
Proof. by destruct v. Qed.

Lemma normalize_defined (r : value) :
  has_owner r = true → normalize r = Normal (normalized_record r).
Proof.
  unfold has_owner. intros [Hr Ho]%andb_true_iff.
  apply negb_true_iff in Hr, Ho.
  unfold normalize. rewrite !(get_defined r) by done. cbn [cbind].
  rewrite !(get_defined (get_opt r "owner")) by done. done.
Qed.

Lemma normalize_throws (r : value) :
  has_owner r = false → ∃ e, normalize r = Throw e.
Proof.
  unfold has_owner. intros H. apply andb_false_iff in H as [Hr|Ho].
  - apply negb_false_iff in Hr.
    destruct (get_nullish r "id" Hr) as [e He]. exists e.
    unfold normalize. by rewrite He.
  - apply negb_false_iff in Ho. destruct (nullish r) eqn:Hr.
    + destruct (get_nullish r "id" Hr) as [e He]. exists e.
      unfold normalize. by rewrite He.
    + destruct (get_nullish (get_opt r "owner") "login" Ho) as [e He]. exists e.
      unfold normalize. rewrite !(get_defined r) by done. cbn [cbind].
      by rewrite He.
Qed.

(** X10: the normalisation returns exactly for the records that have an
    owner (neither the record nor its owner being [null] or absent), and
    then gives the object whose properties id, name, fullName, url,
    description, stars, language and owner (login, avatarUrl, url) hold
    the record's id, name, full_name, html_url, description,
    stargazers_count, language and owner login, avatar_url, html_url;
    for every other record it throws. *)
Theorem normalize_returns_iff (r v : value) :
  (normalize r = Normal v ↔ has_owner r = true ∧ v = normalized_record r)
  ∧ (has_owner r = false ↔ ∃ e, normalize r = Throw e).
Proof.
  destruct (has_owner r) eqn:H.
  - rewrite (normalize_defined r H). split.
    + split; [by intros [= <-] | by intros [_ ->]].
    + split; [done | by intros [e He]].
  - destruct (normalize_throws r H) as [e He]. rewrite He. split.
    + split; [done | by intros [? _]].
    + split; [by eexists | done].
Qed.


Lemma map_completion_throws (elems : list value) :
  Exists (λ r, has_owner r = false) elems →
  ∃ e, map_completion normalize elems = Throw e.
Proof.
  induction 1 as [r elems Hr|r elems _ [e IH]].
  - destruct (normalize_throws r Hr) as [e He]. exists e.
    cbn [map_completion]. by rewrite He.
  - cbn [map_completion]. destruct (normalize r) as [v|e']; [|by eexists].
    cbn [cbind]. rewrite IH. by eexists.
Qed.

Section StarredRouteFacts.

Context (js : Builtins) {World : Type}
        (fetch_upstream : World → request → World * completion upstream).


(** X12: when the upstream answers with a success status but the body is
    not an array, or one of its records has no owner, the handler
    replies with status 400 and an error object: no item of the page is
    sent, not even the records before the faulty one. *)
Theorem GET_all_or_nothing (username : string) (page : number) (per_page : Z)
    (w w1 : World) (up : upstream) (data : value) :
  fetch_upstream w {| req_username := username; req_page := page;
                      req_per_page := per_page |} = (w1, Normal up) →
  ok (page_response up) = true →
  body_json (page_response up) = Normal data →
  (∀ elems, data = Arr elems → Exists (λ r, has_owner r = false) elems) →
  ∃ msg, GET js fetch_upstream username page per_page w
         = (w1, {| reply_body := Obj [("error", Str msg)]; reply_status := 400 |}).
Proof.
  intros Hf Hok Hbody Hbad.
  assert (∃ e, normalize_all data = Throw e) as [e He].
  { destruct data as [| | | | |elems|]; cbn [normalize_all get cbind];
      try (by eexists).
    apply map_completion_throws. by apply Hbad. }
  exists (message e). unfold GET. rewrite Hf. cbn [cbind]. rewrite Hok. cbn [negb].
  rewrite Hbody. cbn [cbind]. by rewrite He.
Qed.

(** X13: when the upstream answers with a status from 300 to 599 other
    than 304, the handler replies with that status and the message
    GitHub API error with the status and the raw body; for any other
    status that is not a success the reply cannot be built, and the
    handler replies with status 400 and the message of the error thrown;
    when the request is rejected, it replies with status 400 and the
    message of the error. *)
Theorem GET_upstream_error (username : string) (page : number) (per_page : Z)
    (w w1 : World) (fetched : completion upstream) :
  fetch_upstream w {| req_username := username; req_page := page;
                      req_per_page := per_page |} = (w1, fetched) →
  (∀ up, fetched = Normal up → ok (page_response up) = false) →
  GET js fetch_upstream username page per_page w
  = (w1,
     match fetched with
     | Normal up =>
         if (300 <=? status (page_response up)) && (status (page_response up) <=? 599)
            && negb (status (page_response up) =? 304)
         then {| reply_body :=
                   Obj [("error",
                         Str ("GitHub API error (" +:+ pretty (status (page_response up))
                              +:+ "): " +:+ text (page_response up)))];
                 reply_status := status (page_response up) |}
         else {| reply_body :=
                   Obj [("error",
                         Str (message (Response_error js (status (page_response up)))))];
                 reply_status := 400 |}
     | Throw e => {| reply_body := Obj [("error", Str (message e))];
                     reply_status := 400 |}
     end).
Proof.
  intros Hf Hbad. unfold GET. rewrite Hf.
  destruct fetched as [up|e]; [|done].
  cbn [cbind]. rewrite (Hbad up eq_refl). cbn [negb].
  rewrite (api_error_built js _ (Hbad up eq_refl)).
  by destruct ((300 <=? status (page_response up))
               && (status (page_response up) <=? 599)
               && negb (status (page_response up) =? 304)).
Qed.

End StarredRouteFacts.


Lemma GET_all_or_nothing_witness :
  ∃ msg,
    GET host (Demo.upstream_of (Arr [Sample.raw; Demo.orphan])) "octocat"
      (num_of_Z 1) 30 0%nat
    = (1%nat, {| reply_body := Obj [("error", Str msg)]; reply_status := 400 |}).
Proof.
  refine (GET_all_or_nothing host (Demo.upstream_of (Arr [Sample.raw; Demo.orphan]))
            "octocat" (num_of_Z 1) 30 0%nat 1%nat _ _ eq_refl _ _ _).
  - reflexivity.
  - reflexivity.
  - intros elems [= <-]. apply Exists_cons_tl, Exists_cons_hd. reflexivity.
Defined.

Lemma GET_upstream_error_witness :
  GET host Demo.upstream_missing "octocat" (num_of_Z 1) 30 0%nat
  = (1%nat,
     {| reply_body := Obj [("error", Str "GitHub API error (404): Not Found")];
        reply_status := 404 |})
  ∧ GET host Demo.upstream_stale "octocat" (num_of_Z 1) 30 0%nat
    = (1%nat,
       {| reply_body :=
            Obj [("error", Str "Response constructor: Invalid response status code 304")];
          reply_status := 400 |}).
Proof.
  split.
  - refine (GET_upstream_error host Demo.upstream_missing "octocat" (num_of_Z 1) 30
              0%nat 1%nat _ eq_refl _).
    intros up [= <-]. reflexivity.
  - refine (GET_upstream_error host Demo.upstream_stale "octocat" (num_of_Z 1) 30
              0%nat 1%nat _ eq_refl _).
    intros up [= <-]. reflexivity.
Defined.

(** ** The page component *)

Section PageFacts.

Context (js : Builtins) {World : Type}
        (api_starred : World → page_query → World * completion response)
        (api_export : World → string → Format → World * completion response).

Import AppPage.

Lemma setRate_id (v : state) : setRate (rate v) v = v.
Proof. by destruct v. Qed.

Lemma sys_eta (σ : @sys World) :
  {| view := view σ; remote := remote σ; starred_log := starred_log σ;
     export_log := export_log σ |} = σ.
Proof. by destruct σ. Qed.

(** Every page number of a cursor is truthy. *)
Lemma cursor_truthy (data : value) (info : gmap string number) (k : string) (n : number) :
  parseLinkHeader_of js data = Normal info → info !! k = Some n →
  truthy_number n = true.
Proof.
  intros Hparse Hk.
  assert (∀ l, parseLinkHeader_value js l = Normal info → truthy_number n = true) as Hv.
  { intros l Hl.
    destruct l as [| |b|m|s|elems|props];
      cbn [parseLinkHeader_value truthy] in Hl.
    - injection Hl as <-. by rewrite lookup_empty in Hk.
    - injection Hl as <-. by rewrite lookup_empty in Hk.
    - destruct b; [done|]. injection Hl as <-. by rewrite lookup_empty in Hk.
    - destruct (truthy_number m); [done|].
      injection Hl as <-. by rewrite lookup_empty in Hk.
    - rewrite parseLinkHeader_fold in Hl. injection Hl as <-.
      apply fold_write_lookup in Hk as [Hk|(p & _ & Hp)];
        [by rewrite lookup_empty in Hk|].
      by apply link_entry_sound in Hp as [_ Ht].
    - done.
    - done. }
  unfold parseLinkHeader_of in Hparse.
  destruct data; try done; cbn [get cbind] in Hparse; by eapply Hv.
Qed.

(** *** One page *)

Lemma fetchPage_ok (user : string) (pg pp : number) (σ : sys) w1 res data info :
  api_starred (remote σ) {| q_username := user; q_page := pg; q_per_page := pp |}
    = (w1, Normal res) →
  ok res = true → body_json res = Normal data → nullish data = false →
  parseLinkHeader_of js data = Normal info →
  fetchPage js api_starred user pg pp σ
  = ({| view := {| items := get_opt data "items"; error := Null; loading := false;
                   loadingAll := loadingAll (view σ); exporting := exporting (view σ);
                   currentUser := currentUser (view σ); page := pg; perPage := pp;
                   pageInfo := info;
                   rate := coalesce (get_opt data "rate") Null |};
        remote := w1;
        starred_log := starred_log σ
                       ++ [{| q_username := user; q_page := pg; q_per_page := pp |}];
        export_log := export_log σ |}, Normal tt).
Proof.
  intros Hf Hok Hbody Hdata Hparse.
  unfold fetchPage, try_catch_finally, abind, update, lift, fetch_starred.
  cbn [view remote starred_log export_log]. rewrite Hf. cbn.
  rewrite Hbody. cbn. rewrite Hok. cbn.
  rewrite !(get_defined data) by done. cbn. rewrite Hparse. done.
Qed.

Lemma fetchPage_not_ok (user : string) (pg pp : number) (σ : sys) w1 res data :
  api_starred (remote σ) {| q_username := user; q_page := pg; q_per_page := pp |}
    = (w1, Normal res) →
  ok res = false → body_json res = Normal data → nullish data = false →
  fetchPage js api_starred user pg pp σ
  = ({| view := {| items := Arr [];
                   error := or_else (get_opt data "error") (Str "Failed to fetch");
                   loading := false;
                   loadingAll := loadingAll (view σ); exporting := exporting (view σ);
                   currentUser := currentUser (view σ);
                   page := page (view σ); perPage := perPage (view σ);
                   pageInfo := ∅;
                   rate := coalesce (get_opt data "rate") Null |};
        remote := w1;
        starred_log := starred_log σ
                       ++ [{| q_username := user; q_page := pg; q_per_page := pp |}];
        export_log := export_log σ |}, Normal tt).
Proof.
  intros Hf Hok Hbody Hdata.
  unfold fetchPage, try_catch_finally, abind, update, lift, fetch_starred.
  cbn [view remote starred_log export_log]. rewrite Hf. cbn.
  rewrite Hbody. cbn. rewrite Hok. cbn.
  rewrite !(get_defined data) by done. done.
Qed.

Lemma fetchPage_thrown (user : string) (pg pp : number) (σ : sys) w1 fetched e :
  api_starred (remote σ) {| q_username := user; q_page := pg; q_per_page := pp |}
    = (w1, fetched) →
  fetched = Throw e ∨ (∃ res, fetched = Normal res ∧ body_json res = Throw e) →
  fetchPage js api_starred user pg pp σ
  = ({| view := {| items := Arr []; error := Str (error_message e); loading := false;
                   loadingAll := loadingAll (view σ); exporting := exporting (view σ);
                   currentUser := currentUser (view σ);
                   page := page (view σ); perPage := perPage (view σ);
                   pageInfo := ∅; rate := rate (view σ) |};
        remote := w1;
        starred_log := starred_log σ
                       ++ [{| q_username := user; q_page := pg; q_per_page := pp |}];
        export_log := export_log σ |}, Normal tt).
Proof.
  intros Hf Hthrow.
  unfold fetchPage, try_catch_finally, abind, update, lift, fetch_starred.
  cbn [view remote starred_log export_log]. rewrite Hf.
  destruct Hthrow as [->|(res & -> & Hbody)]; cbn; [done|].
  rewrite Hbody. done.
Qed.

Lemma fetchPage_log (user : string) (pg pp : number) (σ : sys) :
  starred_log (fetchPage js api_starred user pg pp σ).1
  = starred_log σ ++ [{| q_username := user; q_page := pg; q_per_page := pp |}].
Proof.
  unfold fetchPage, try_catch_finally, abind, update, lift, fetch_starred.
  cbn [view remote starred_log export_log].
  destruct (api_starred (remote σ) _) as [w1 [res|e]]; cbn; [|done].
  destruct (body_json res) as [data|e]; cbn; [|done].
  destruct (ok res); cbn.
  - destruct (get data "items") as [its|e]; cbn; [|done].
    destruct (parseLinkHeader_of js data) as [info|e]; cbn; [|done].
    by destruct (get data "rate") as [rt|e].
  - destruct (get data "error") as [err|e]; cbn; [|done].
    by destruct (get data "rate") as [rt|e].
Qed.

(** X14: whatever the server answers, a call of [fetchPage] sends
    exactly one request, for the user, page and page size it was given,
    sends nothing to the export route, leaves the user and the two other
    busy flags as they were, and ends with [loading] false. *)
Theorem fetchPage_settles (user : string) (pg pp : number) (σ : sys) :
  loading (view (run (fetchPage js api_starred user pg pp) σ)) = false
  ∧ starred_log (run (fetchPage js api_starred user pg pp) σ)
    = starred_log σ ++ [{| q_username := user; q_page := pg; q_per_page := pp |}]
  ∧ export_log (run (fetchPage js api_starred user pg pp) σ) = export_log σ
  ∧ currentUser (view (run (fetchPage js api_starred user pg pp) σ))
    = currentUser (view σ)
  ∧ loadingAll (view (run (fetchPage js api_starred user pg pp) σ))
    = loadingAll (view σ)
  ∧ exporting (view (run (fetchPage js api_starred user pg pp) σ))
    = exporting (view σ).
Proof.
  unfold run, fetchPage, try_catch_finally, abind, update, lift, fetch_starred.
  cbn [view remote starred_log export_log].
  destruct (api_starred (remote σ) _) as [w1 [res|e]]; cbn; [|done].
  destruct (body_json res) as [data|e]; cbn; [|done].
  destruct (ok res); cbn.
  - destruct (get data "items") as [its|e]; cbn; [|done].
    destruct (parseLinkHeader_of js data) as [info|e]; cbn; [|done].
    by destruct (get data "rate") as [rt|e].
  - destruct (get data "error") as [err|e]; cbn; [|done].
    by destruct (get data "rate") as [rt|e].
Qed.

(** X15: when the starred route answers with a success status and a
    body that is not [null], [fetchPage] shows the items of the body,
    the cursor parsed from its link, the page and page size asked for and
    the rate of the body ([null] when it has none), and clears the error. *)
Theorem fetchPage_shows (user : string) (pg pp : number) (σ : sys) w1 res data info :
  api_starred (remote σ) {| q_username := user; q_page := pg; q_per_page := pp |}
    = (w1, Normal res) →
  ok res = true → body_json res = Normal data → nullish data = false →
  parseLinkHeader_of js data = Normal info →
  view (run (fetchPage js api_starred user pg pp) σ)
  = {| items := get_opt data "items"; error := Null; loading := false;
       loadingAll := loadingAll (view σ); exporting := exporting (view σ);
       currentUser := currentUser (view σ); page := pg; perPage := pp;
       pageInfo := info; rate := coalesce (get_opt data "rate") Null |}.
Proof.
  intros Hf Hok Hbody Hdata Hparse. unfold run.
  by rewrite (fetchPage_ok user pg pp σ w1 res data info).
Qed.

(** X16: when the starred route answers with a status that is not a
    success, [fetchPage] shows the error of the body (or Failed to fetch)
    and the rate of the body; when the request is rejected or the body
    is not JSON, it shows the message of the error.  Either way the
    items become the empty array and the cursor the empty cursor, and the
    page and the page size shown stay as they were. *)
Theorem fetchPage_failure (user : string) (pg pp : number) (σ : sys) w1 fetched :
  api_starred (remote σ) {| q_username := user; q_page := pg; q_per_page := pp |}
    = (w1, fetched) →
  (∀ res, fetched = Normal res →
     (ok res = false ∧ ∃ data, body_json res = Normal data ∧ nullish data = false)
     ∨ ∃ e, body_json res = Throw e) →
  items (view (run (fetchPage js api_starred user pg pp) σ)) = Arr []
  ∧ pageInfo (view (run (fetchPage js api_starred user pg pp) σ)) = ∅
  ∧ page (view (run (fetchPage js api_starred user pg pp) σ)) = page (view σ)
  ∧ perPage (view (run (fetchPage js api_starred user pg pp) σ)) = perPage (view σ)
  ∧ error (view (run (fetchPage js api_starred user pg pp) σ))
    = match fetched with
      | Throw e => Str (error_message e)
      | Normal res =>
          match body_json res with
          | Throw e => Str (error_message e)
          | Normal data => or_else (get_opt data "error") (Str "Failed to fetch")
          end
      end.
Proof.
  intros Hf Hbad. unfold run. destruct fetched as [res|e].
  - destruct (Hbad res eq_refl) as [(Hok & data & Hbody & Hdata)|[e Hbody]].
    + rewrite (fetchPage_not_ok user pg pp σ w1 res data) by done.
      by rewrite Hbody.
    + rewrite (fetchPage_thrown user pg pp σ w1 (Normal res) e Hf);
        [by rewrite Hbody | right; eauto].
  - rewrite (fetchPage_thrown user pg pp σ w1 (Throw e) e Hf); [done | by left].
Qed.

(** X17: after a page has been shown, [handleNext] sends one request for
    the page the cursor names under next, with the page size shown and
    for the current user, and sends none when the cursor has no next;
    [handlePrev] does the same with prev. *)
Theorem navigation_follows_cursor (user u : string) (pg pp : number) (σ : sys)
    w1 res data info :
  api_starred (remote σ) {| q_username := user; q_page := pg; q_per_page := pp |}
    = (w1, Normal res) →
  ok res = true → body_json res = Normal data → nullish data = false →
  parseLinkHeader_of js data = Normal info →
  currentUser (view σ) = Some u → u ≠ EmptyString →
  starred_log (run (handleNext js api_starred)
                 (run (fetchPage js api_starred user pg pp) σ))
    = starred_log (run (fetchPage js api_starred user pg pp) σ)
      ++ match info !! "next" with
         | Some n => [{| q_username := u; q_page := n; q_per_page := pp |}]
         | None => []
         end
  ∧ starred_log (run (handlePrev js api_starred)
                   (run (fetchPage js api_starred user pg pp) σ))
    = starred_log (run (fetchPage js api_starred user pg pp) σ)
      ++ match info !! "prev" with
         | Some n => [{| q_username := u; q_page := n; q_per_page := pp |}]
         | None => []
         end.
Proof.
  intros Hf Hok Hbody Hdata Hparse Hu Hne.
  assert (truthy_string u = true) as Htu by (by destruct u).
  pose proof (fetchPage_ok user pg pp σ w1 res data info Hf Hok Hbody Hdata Hparse) as E.
  assert (∀ h k,
    h = (λ σ0 : sys,
           if negb (known_user (currentUser (view σ0)))
              || negb (truthy_page (pageInfo (view σ0) !! k))
           then (σ0, Normal tt)
           else fetchPage js api_starred (default EmptyString (currentUser (view σ0)))
                  (default S754_nan (pageInfo (view σ0) !! k))
                  (perPage (view σ0)) σ0) →
    starred_log (run h (run (fetchPage js api_starred user pg pp) σ))
    = starred_log (run (fetchPage js api_starred user pg pp) σ)
      ++ match info !! k with
         | Some n => [{| q_username := u; q_page := n; q_per_page := pp |}]
         | None => []
         end) as Hnav.
  { intros h k ->.
    assert (run (fetchPage js api_starred user pg pp) σ
            = (fetchPage js api_starred user pg pp σ).1) as -> by done.
    rewrite E. cbn [fst]. unfold run.
    cbn [view currentUser pageInfo perPage starred_log]. rewrite Hu. cbn [known_user].
    rewrite Htu. cbn [negb orb default].
    destruct (info !! k) as [n|] eqn:Hk; cbn [truthy_page negb default].
    - rewrite (cursor_truthy data info k n Hparse Hk). cbn [negb].
      rewrite fetchPage_log. done.
    - cbn [fst starred_log]. by rewrite app_nil_r. }
  split; by apply Hnav.
Qed.

End PageFacts.

Lemma fetchPage_shows_witness :
  AppPage.view (AppPage.run
                  (AppPage.fetchPage host (Demo.starred_api 3 0) "octocat"
                     (num_of_Z 1) (num_of_Z 30))
                  (Demo.start (Some "octocat")))
  = {| AppPage.items := Arr [Obj [("id", Num (num_of_Z 1))]];
       AppPage.error := Null;
       AppPage.loading := false;
       AppPage.loadingAll := false;
       AppPage.exporting := false;
       AppPage.currentUser := Some "octocat";
       AppPage.page := num_of_Z 1;
       AppPage.perPage := num_of_Z 30;
       AppPage.pageInfo := {[ "next" := num_of_Z 2 ]};
       AppPage.rate := Obj [("remaining", Num (num_of_Z 59))] |}.
Proof.
  refine (fetchPage_shows host (Demo.starred_api 3 0) "octocat" (num_of_Z 1)
            (num_of_Z 30) (Demo.start (Some "octocat")) 1%nat (Demo.reply_page 3 1)
            _ {[ "next" := num_of_Z 2 ]} eq_refl eq_refl eq_refl eq_refl _).
  vm_compute. reflexivity.
Defined.

Lemma fetchPage_failure_witness :
  AppPage.items (AppPage.view (AppPage.run
      (AppPage.fetchPage host (Demo.starred_api 3 2) "octocat" (num_of_Z 2) (num_of_Z 30))
      (Demo.start (Some "octocat")))) = Arr []
  ∧ AppPage.error (AppPage.view (AppPage.run
      (AppPage.fetchPage host (Demo.starred_api 3 2) "octocat" (num_of_Z 2) (num_of_Z 30))
      (Demo.start (Some "octocat")))) = Str "boom"
  ∧ AppPage.error (AppPage.view (AppPage.run
      (AppPage.fetchPage host Demo.starred_down "octocat" (num_of_Z 2) (num_of_Z 30))
      (Demo.start (Some "octocat")))) = Str "Failed to fetch".
Proof.
  split; [|split].
  - refine (proj1 (fetchPage_failure host (Demo.starred_api 3 2) "octocat" (num_of_Z 2)
                     (num_of_Z 30) (Demo.start (Some "octocat")) 1%nat
                     (Normal Demo.reply_error) eq_refl _)).
    intros res [= <-]. left. split; [reflexivity|]. eexists. split; reflexivity.
  - refine (proj2 (proj2 (proj2 (proj2
              (fetchPage_failure host (Demo.starred_api 3 2) "octocat" (num_of_Z 2)
                 (num_of_Z 30) (Demo.start (Some "octocat")) 1%nat
                 (Normal Demo.reply_error) eq_refl _))))).
    intros res [= <-]. left. split; [reflexivity|]. eexists. split; reflexivity.
  - refine (proj2 (proj2 (proj2 (proj2
              (fetchPage_failure host Demo.starred_down "octocat" (num_of_Z 2)
                 (num_of_Z 30) (Demo.start (Some "octocat")) 1%nat
                 (Throw (Error "Failed to fetch")) eq_refl _))))).
    intros res [=].
Defined.

Lemma navigation_follows_cursor_witness :
  AppPage.starred_log
    (AppPage.run (AppPage.handleNext host (Demo.starred_api 3 0))
       (AppPage.run (AppPage.fetchPage host (Demo.starred_api 3 0) "octocat"
                       (num_of_Z 1) (num_of_Z 30))
          (Demo.start (Some "octocat"))))
  = [ {| q_username := "octocat"; q_page := num_of_Z 1; q_per_page := num_of_Z 30 |};
      {| q_username := "octocat"; q_page := num_of_Z 2; q_per_page := num_of_Z 30 |} ]
  ∧ AppPage.starred_log
      (AppPage.run (AppPage.handlePrev host (Demo.starred_api 3 0))
         (AppPage.run (AppPage.fetchPage host (Demo.starred_api 3 0) "octocat"
                         (num_of_Z 1) (num_of_Z 30))
            (Demo.start (Some "octocat"))))
    = [ {| q_username := "octocat"; q_page := num_of_Z 1; q_per_page := num_of_Z 30 |} ].
Proof.
  refine (navigation_follows_cursor host (Demo.starred_api 3 0) "octocat" "octocat"
            (num_of_Z 1) (num_of_Z 30) (Demo.start (Some "octocat")) 1%nat
            (Demo.reply_page 3 1) _ {[ "next" := num_of_Z 2 ]}
            eq_refl eq_refl eq_refl eq_refl _ eq_refl _).
  - vm_compute. reflexivity.
  - discriminate.
Defined.

(** *** All pages *)

Section FetchAllFacts.

Context (js : Builtins) {World : Type}
        (api_starred : World → page_query → World * completion response)
        (api_export : World → string → Format → World * completion response).

Import AppPage.

Lemma page_chunk_spread (data : value) (l : list value) :
  spread (or_else (get_opt data "items") (Arr [])) = Normal l → page_chunk data = l.
Proof. intros H. unfold page_chunk. by rewrite H. Qed.

(** A readable reply that points on: the loop goes round once more. *)
Lemma starred_loop_next (user : string) (left : nat) (pg : number) (all : list value)
    (σ : sys) w1 res data info n :
  api_starred (remote σ) (all_query user pg) = (w1, Normal res) →
  readable js res data info → info !! "next" = Some n →
  starred_loop js api_starred user (S left) pg all σ
  = starred_loop js api_starred user left n (all ++ page_chunk data)
      {| view := setRate (coalesce (get_opt data "rate") Null) (view σ);
         remote := w1;
         starred_log := starred_log σ ++ [all_query user pg];
         export_log := export_log σ |}.
Proof.
  intros Hf (Hok & Hbody & Hdata & [l Hl] & Hparse) Hn.
  cbn [starred_loop]. fold (all_query user pg).
  unfold abind at 1, fetch_starred at 1. rewrite Hf.
  unfold abind at 1, lift at 1. rewrite Hbody. rewrite Hok. cbn [negb].
  unfold abind, lift, update. cbn [view remote starred_log export_log].
  rewrite !(get_defined data) by done. rewrite Hl, Hparse, Hn.
  rewrite (cursor_truthy js data info "next" n Hparse Hn).
  by rewrite (page_chunk_spread data l Hl).
Qed.

(** A readable reply that does not point on: the loop is left. *)
Lemma starred_loop_last (user : string) (left : nat) (pg : number) (all : list value)
    (σ : sys) w1 res data info :
  api_starred (remote σ) (all_query user pg) = (w1, Normal res) →
  readable js res data info → info !! "next" = None →
  starred_loop js api_starred user (S left) pg all σ
  = ({| view := setRate (coalesce (get_opt data "rate") Null) (view σ);
        remote := w1;
        starred_log := starred_log σ ++ [all_query user pg];
        export_log := export_log σ |}, Normal (all ++ page_chunk data)).
Proof.
  intros Hf (Hok & Hbody & Hdata & [l Hl] & Hparse) Hn.
  cbn [starred_loop]. fold (all_query user pg).
  unfold abind at 1, fetch_starred at 1. rewrite Hf.
  unfold abind at 1, lift at 1. rewrite Hbody. rewrite Hok. cbn [negb].
  unfold abind, lift, update, pure. cbn [view remote starred_log export_log].
  rewrite !(get_defined data) by done. rewrite Hl, Hparse, Hn.
  by rewrite (page_chunk_spread data l Hl).
Qed.

(** A reply with a status that is not a success: the error is set and
    the loop is left with what it has. *)
Lemma starred_loop_error (user : string) (left : nat) (pg : number) (all : list value)
    (σ : sys) w1 res data :
  api_starred (remote σ) (all_query user pg) = (w1, Normal res) →
  ok res = false → body_json res = Normal data → nullish data = false →
  starred_loop js api_starred user (S left) pg all σ
  = ({| view := setError (or_else (get_opt data "error") (Str "Failed to fetch")) (view σ);
        remote := w1;
        starred_log := starred_log σ ++ [all_query user pg];
        export_log := export_log σ |}, Normal all).
Proof.
  intros Hf Hok Hbody Hdata.
  cbn [starred_loop]. fold (all_query user pg).
  unfold abind at 1, fetch_starred at 1. rewrite Hf.
  unfold abind at 1, lift at 1. rewrite Hbody. rewrite Hok. cbn [negb].
  unfold abind, lift, update, pure. cbn [view remote starred_log export_log].
  by rewrite !(get_defined data) by done.
Qed.

(** A rejected request or a body that is not JSON: the loop throws. *)
Lemma starred_loop_thrown (user : string) (left : nat) (pg : number) (all : list value)
    (σ : sys) w1 fetched e :
  api_starred (remote σ) (all_query user pg) = (w1, fetched) →
  fetched = Throw e ∨ (∃ res, fetched = Normal res ∧ body_json res = Throw e) →
  starred_loop js api_starred user (S left) pg all σ
  = ({| view := view σ; remote := w1;
        starred_log := starred_log σ ++ [all_query user pg];
        export_log := export_log σ |}, Throw e).
Proof.
  intros Hf Hthrow.
  cbn [starred_loop]. fold (all_query user pg).
  unfold abind at 1, fetch_starred at 1. rewrite Hf.
  destruct Hthrow as [->|(res & -> & Hbody)]; [done|].
  unfold abind at 1, lift at 1. by rewrite Hbody.
Qed.

Lemma rate_after_app (ds : list value) (d : value) (r0 : value) :
  rate_after (ds ++ [d]) r0 = coalesce (get_opt d "rate") Null.
Proof. unfold rate_after. by rewrite fold_left_app. Qed.

(** Following readable replies uses up one iteration and one request per
    reply, appends their items in order and leaves the rate of the last. *)
Lemma starred_loop_browse (user : string) w pg ds w2 pg2 :
  browse js api_starred user w pg ds w2 pg2 →
  ∃ qs, length qs = length ds
        ∧ ∀ left all (σ : sys),
            remote σ = w →
            starred_loop js api_starred user (length ds + left) pg all σ
            = starred_loop js api_starred user left pg2
                (all ++ concat (map page_chunk ds))
                {| view := setRate (rate_after ds (rate (view σ))) (view σ);
                   remote := w2;
                   starred_log := starred_log σ ++ qs;
                   export_log := export_log σ |}.
Proof.
  induction 1 as [w pg|w pg w1 res data info n ds w2 pg2 Hf Hr Hn Hb (qs & Hlen & IH)].
  - exists []. split; [done|]. intros left all σ <-. cbn [length Nat.add map concat].
    unfold rate_after. cbn [fold_left]. rewrite setRate_id, !app_nil_r.
    by rewrite sys_eta.
  - exists (all_query user pg :: qs). split; [simpl; by rewrite Hlen|].
    intros left all σ Hw. subst w. cbn [length Nat.add].
    rewrite (starred_loop_next user _ pg all σ w1 res data info n Hf Hr Hn).
    rewrite IH by done. cbn [view remote starred_log export_log map concat].
    unfold rate_after. cbn [fold_left rate setRate].
    by rewrite <- !app_assoc.
Qed.

(** What the loop sends and leaves alone, whatever the server answers. *)
Lemma starred_loop_bound (user : string) (left : nat) :
  ∀ pg all (σ : sys),
    ∃ qs, starred_log (starred_loop js api_starred user left pg all σ).1
          = starred_log σ ++ qs
          ∧ (length qs ≤ left)%nat
          ∧ Forall (λ q, q_username q = user ∧ q_per_page q = num_of_Z 100) qs
          ∧ export_log (starred_loop js api_starred user left pg all σ).1
            = export_log σ.
Proof.
  induction left as [|left IH]; intros pg all σ.
  - exists []. cbn. by rewrite app_nil_r.
  - assert (∀ σ1 : @sys World,
              starred_log σ1 = starred_log σ ++ [all_query user pg] →
              export_log σ1 = export_log σ →
              ∃ qs, starred_log σ1 = starred_log σ ++ qs
                    ∧ (length qs ≤ S left)%nat
                    ∧ Forall (λ q, q_username q = user ∧ q_per_page q = num_of_Z 100) qs
                    ∧ export_log σ1 = export_log σ) as Hone.
    { intros σ1 H1 H2. exists [all_query user pg]. split; [done|].
      split; [simpl; lia|]. split; [by repeat constructor | done]. }
    destruct (starred_loop js api_starred user (S left) pg all σ) as [σ1 r] eqn:E.
    cbn [fst]. cbn [starred_loop] in E. fold (all_query user pg) in E.
    unfold abind at 1, fetch_starred at 1 in E.
    destruct (api_starred (remote σ) (all_query user pg)) as [w1 [res|e]];
      [|injection E as <- <-; by apply Hone].
    unfold abind at 1, lift at 1 in E.
    destruct (body_json res) as [j|e]; [|injection E as <- <-; by apply Hone].
    destruct (ok res); cbn [negb] in E.
    + unfold abind at 1, lift at 1 in E.
      destruct (get j "rate") as [rt|e]; [|injection E as <- <-; by apply Hone].
      unfold abind at 1, update at 1 in E.
      cbn [view remote starred_log export_log] in E.
      unfold abind at 1, lift at 1 in E.
      destruct (get j "items") as [its|e]; [|injection E as <- <-; by apply Hone].
      unfold abind at 1, lift at 1 in E.
      destruct (spread _) as [chunk|e]; [|injection E as <- <-; by apply Hone].
      unfold abind at 1, lift at 1 in E.
      destruct (parseLinkHeader_of js j) as [info|e];
        [|injection E as <- <-; by apply Hone].
      destruct (info !! "next") as [n|];
        [|unfold pure in E; injection E as <- <-; by apply Hone].
      destruct (truthy_number n);
        [|unfold pure in E; injection E as <- <-; by apply Hone].
      match type of E with
      | starred_loop _ _ _ left n ?a ?s = _ =>
          destruct (IH n a s) as (qs & Hlog & Hlen & Hall & Hexp)
      end.
      rewrite E in Hlog, Hexp. cbn [fst starred_log export_log] in Hlog, Hexp.
      exists (all_query user pg :: qs).
      rewrite Hlog, Hexp.
      split; [by rewrite <- app_assoc|]. split; [simpl; lia|].
      split; [by constructor | done].
    + unfold abind at 1, lift at 1 in E.
      destruct (get j "error") as [err|e];
        unfold abind, update, pure in E; injection E as <- <-; by apply Hone.
Qed.

(** What [handleFetchAll] does once the export route has accepted: the
    loop runs on the state left by the export, and what it returns or
    throws decides what is shown. *)
Lemma handleFetchAll_after_export (form : string) (fmt : Format) (σ : sys)
    (user : string) w0 xres xdata :
  default form (currentUser (view σ)) = user → truthy_string user = true →
  api_export (remote σ) user fmt = (w0, Normal xres) →
  ok xres = true → body_json xres = Normal xdata →
  run (handleFetchAll js api_starred api_export form fmt) σ
  = let out := starred_loop js api_starred user 100 (num_of_Z 1) []
                 {| view := setError Null (setLoadingAll true (view σ));
                    remote := w0;
                    starred_log := starred_log σ;
                    export_log := export_log σ ++ [(user, fmt)] |} in
    {| view :=
         setLoadingAll false
           match out.2 with
           | Normal all =>
               setPageInfo ∅ (setPerPage (num_of_Z 100) (setPage (num_of_Z 1)
                 (setCurrentUser (Some user) (setItems (Arr all) (view out.1)))))
           | Throw e => setError (Str (error_message e)) (view out.1)
           end;
       remote := remote out.1;
       starred_log := starred_log out.1;
       export_log := export_log out.1 |}.
Proof.
  intros Hu Ht Hx Hok Hbody.
  unfold run, handleFetchAll. rewrite Hu, Ht. cbn [negb].
  unfold try_catch_finally.
  unfold abind at 1 2 3 4, update at 1 2, fetch_export at 1, lift at 1.
  cbn [view remote starred_log export_log]. rewrite Hx, Hbody, Hok. cbn [negb].
  unfold abind at 1.
  destruct (starred_loop js api_starred user 100 (num_of_Z 1) [] _) as [σ2 [all|e]];
    by cbn.
Qed.

(** X18: when the export route refuses, rejects the request or answers
    with a body that is not JSON, [handleFetchAll] sends nothing to the
    starred route and leaves the items, the page and the cursor shown as
    they were; it shows the error of the body (or Export failed), or the
    message of the error thrown. *)
Theorem handleFetchAll_export_failure (form : string) (fmt : Format) (σ : sys)
    (user : string) w0 fetched :
  default form (currentUser (view σ)) = user → user ≠ EmptyString →
  api_export (remote σ) user fmt = (w0, fetched) →
  (∀ res, fetched = Normal res →
     (ok res = false ∧ ∃ data, body_json res = Normal data ∧ nullish data = false)
     ∨ ∃ e, body_json res = Throw e) →
  run (handleFetchAll js api_starred api_export form fmt) σ
  = {| view :=
         setLoadingAll false
           (setError
              match fetched with
              | Throw e => Str (error_message e)
              | Normal res =>
                  match body_json res with
                  | Throw e => Str (error_message e)
                  | Normal data => or_else (get_opt data "error") (Str "Export failed")
                  end
              end (view σ));
       remote := w0;
       starred_log := starred_log σ;
       export_log := export_log σ ++ [(user, fmt)] |}.
Proof.
  intros Hu Hne Hx Hbad.
  assert (truthy_string user = true) as Ht by (by destruct user).
  unfold run, handleFetchAll. rewrite Hu, Ht. cbn [negb].
  unfold try_catch_finally, abind, update, fetch_export, lift.
  cbn [view remote starred_log export_log]. rewrite Hx.
  destruct fetched as [res|e]; [|done].
  destruct (Hbad res eq_refl) as [(Hok & data & Hbody & Hdata)|[e Hbody]];
    rewrite Hbody; [|done].
  rewrite Hok. cbn [negb]. by rewrite (get_defined data) by done.
Qed.

(** X19: when the export route accepts and the starred route answers
    with at most 99 readable pages that point on and then one that does
    not, [handleFetchAll] shows the items of all these pages in order,
    as page 1 with page size 100 and an empty cursor, with the rate of
    the last page and no error, and has sent one request per page. *)
Theorem handleFetchAll_collects (form : string) (fmt : Format) (σ : sys)
    (user : string) w0 xres xdata ds w1 pg w2 res d info :
  default form (currentUser (view σ)) = user → user ≠ EmptyString →
  api_export (remote σ) user fmt = (w0, Normal xres) →
  ok xres = true → body_json xres = Normal xdata →
  browse js api_starred user w0 (num_of_Z 1) ds w1 pg →
  (length ds < 100)%nat →
  api_starred w1 (all_query user pg) = (w2, Normal res) →
  readable js res d info → info !! "next" = None →
  view (run (handleFetchAll js api_starred api_export form fmt) σ)
  = {| items := Arr (concat (map page_chunk (ds ++ [d])));
       error := Null;
       loading := loading (view σ);
       loadingAll := false;
       exporting := exporting (view σ);
       currentUser := Some user;
       page := num_of_Z 1;
       perPage := num_of_Z 100;
       pageInfo := ∅;
       rate := coalesce (get_opt d "rate") Null |}
  ∧ remote (run (handleFetchAll js api_starred api_export form fmt) σ) = w2
  ∧ length (starred_log (run (handleFetchAll js api_starred api_export form fmt) σ))
    = (length (starred_log σ) + S (length ds))%nat.
Proof.
  intros Hu Hne Hx Hok Hbody Hb Hlen Hf Hr Hn.
  assert (truthy_string user = true) as Ht by (by destruct user).
  rewrite (handleFetchAll_after_export form fmt σ user w0 xres xdata) by done.
  destruct (starred_loop_browse user _ _ _ _ _ Hb) as (qs & Hqs & Hloop).
  replace 100%nat with (length ds + S (99 - length ds))%nat by lia.
  rewrite Hloop by done.
  rewrite (starred_loop_last user _ pg _ _ w2 res d info) by done.
  cbn. rewrite map_app, concat_app. cbn. rewrite app_nil_r.
  rewrite !length_app, Hqs. cbn. split; [done|]. split; [done|lia].
Qed.

(** X20: when the export route accepts and the first 100 replies of the
    starred route are readable and all point on, [handleFetchAll] stops
    there: it has sent 100 requests and shows the items of these 100
    pages, with no error. *)
Theorem handleFetchAll_stops_at_cap (form : string) (fmt : Format) (σ : sys)
    (user : string) w0 xres xdata ds w1 pg :
  default form (currentUser (view σ)) = user → user ≠ EmptyString →
  api_export (remote σ) user fmt = (w0, Normal xres) →
  ok xres = true → body_json xres = Normal xdata →
  browse js api_starred user w0 (num_of_Z 1) ds w1 pg →
  length ds = 100%nat →
  items (view (run (handleFetchAll js api_starred api_export form fmt) σ))
    = Arr (concat (map page_chunk ds))
  ∧ error (view (run (handleFetchAll js api_starred api_export form fmt) σ)) = Null
  ∧ remote (run (handleFetchAll js api_starred api_export form fmt) σ) = w1
  ∧ length (starred_log (run (handleFetchAll js api_starred api_export form fmt) σ))
    = (length (starred_log σ) + 100)%nat.
Proof.
  intros Hu Hne Hx Hok Hbody Hb Hlen.
  assert (truthy_string user = true) as Ht by (by destruct user).
  rewrite (handleFetchAll_after_export form fmt σ user w0 xres xdata) by done.
  destruct (starred_loop_browse user _ _ _ _ _ Hb) as (qs & Hqs & Hloop).
  specialize (Hloop 0%nat []
                {| view := setError Null (setLoadingAll true (view σ));
                   remote := w0;
                   starred_log := starred_log σ;
                   export_log := export_log σ ++ [(user, fmt)] |} eq_refl).
  rewrite Nat.add_0_r, Hlen in Hloop. rewrite Hloop.
  cbn. rewrite !length_app, Hqs, Hlen. done.
Qed.

(** X21: when the export route accepts and the starred route, after
    some readable pages that point on, answers with a status that is not
    a success, [handleFetchAll] shows the error of that reply (or Failed
    to fetch) together with the items of the pages before it. *)
Theorem handleFetchAll_partial (form : string) (fmt : Format) (σ : sys)
    (user : string) w0 xres xdata ds w1 pg w2 res data :
  default form (currentUser (view σ)) = user → user ≠ EmptyString →
  api_export (remote σ) user fmt = (w0, Normal xres) →
  ok xres = true → body_json xres = Normal xdata →
  browse js api_starred user w0 (num_of_Z 1) ds w1 pg →
  (length ds < 100)%nat →
  api_starred w1 (all_query user pg) = (w2, Normal res) →
  ok res = false → body_json res = Normal data → nullish data = false →
  view (run (handleFetchAll js api_starred api_export form fmt) σ)
  = {| items := Arr (concat (map page_chunk ds));
       error := or_else (get_opt data "error") (Str "Failed to fetch");
       loading := loading (view σ);
       loadingAll := false;
       exporting := exporting (view σ);
       currentUser := Some user;
       page := num_of_Z 1;
       perPage := num_of_Z 100;
       pageInfo := ∅;
       rate := rate_after ds (rate (view σ)) |}.
Proof.
  intros Hu Hne Hx Hok Hbody Hb Hlen Hf Hnok Hjson Hdata.
  assert (truthy_string user = true) as Ht by (by destruct user).
  rewrite (handleFetchAll_after_export form fmt σ user w0 xres xdata) by done.
  destruct (starred_loop_browse user _ _ _ _ _ Hb) as (qs & Hqs & Hloop).
  replace 100%nat with (length ds + S (99 - length ds))%nat by lia.
  rewrite Hloop by done.
  rewrite (starred_loop_error user _ pg _ _ w2 res data) by done.
  done.
Qed.

(** X22: when the export route accepts and the starred route, after
    some readable pages that point on, rejects the request or answers
    with a body that is not JSON, [handleFetchAll] shows the message of
    the error and keeps the items, the user, the page and the cursor
    that were shown before; the pages already read are dropped. *)
Theorem handleFetchAll_thrown (form : string) (fmt : Format) (σ : sys)
    (user : string) w0 xres xdata ds w1 pg w2 fetched e :
  default form (currentUser (view σ)) = user → user ≠ EmptyString →
  api_export (remote σ) user fmt = (w0, Normal xres) →
  ok xres = true → body_json xres = Normal xdata →
  browse js api_starred user w0 (num_of_Z 1) ds w1 pg →
  (length ds < 100)%nat →
  api_starred w1 (all_query user pg) = (w2, fetched) →
  fetched = Throw e ∨ (∃ res, fetched = Normal res ∧ body_json res = Throw e) →
  view (run (handleFetchAll js api_starred api_export form fmt) σ)
  = {| items := items (view σ);
       error := Str (error_message e);
       loading := loading (view σ);
       loadingAll := false;
       exporting := exporting (view σ);
       currentUser := currentUser (view σ);
       page := page (view σ);
       perPage := perPage (view σ);
       pageInfo := pageInfo (view σ);
       rate := rate_after ds (rate (view σ)) |}.
Proof.
  intros Hu Hne Hx Hok Hbody Hb Hlen Hf Hthrow.
  assert (truthy_string user = true) as Ht by (by destruct user).
  rewrite (handleFetchAll_after_export form fmt σ user w0 xres xdata) by done.
  destruct (starred_loop_browse user _ _ _ _ _ Hb) as (qs & Hqs & Hloop).
  replace 100%nat with (length ds + S (99 - length ds))%nat by lia.
  rewrite Hloop by done.
  rewrite (starred_loop_thrown user _ pg _ _ w2 fetched e) by done.
  done.
Qed.

(** X23: whatever the two routes answer, [handleFetchAll] for a user
    name that is not empty sends exactly one export request, for that
    user and the chosen format, and at most 100 requests to the starred
    route, each for that user with page size 100, and ends with
    [loadingAll] false; for an empty user name it does nothing. *)
Theorem handleFetchAll_bounds (form : string) (fmt : Format) (σ : sys) :
  if truthy_string (default form (currentUser (view σ))) then
    loadingAll (view (run (handleFetchAll js api_starred api_export form fmt) σ)) = false
    ∧ export_log (run (handleFetchAll js api_starred api_export form fmt) σ)
      = export_log σ ++ [(default form (currentUser (view σ)), fmt)]
    ∧ ∃ qs, starred_log (run (handleFetchAll js api_starred api_export form fmt) σ)
            = starred_log σ ++ qs
            ∧ (length qs ≤ 100)%nat
            ∧ Forall (λ q, q_username q = default form (currentUser (view σ))
                           ∧ q_per_page q = num_of_Z 100) qs
  else run (handleFetchAll js api_starred api_export form fmt) σ = σ.
Proof.
  unfold run.
  destruct (truthy_string (default form (currentUser (view σ)))) eqn:Ht;
    [|unfold handleFetchAll; by rewrite Ht].
  destruct (handleFetchAll js api_starred api_export form fmt σ) as [σ' r] eqn:E.
  cbn [fst]. unfold handleFetchAll in E. rewrite Ht in E. cbn [negb] in E.
  set (user := default form (currentUser (view σ))) in *.
  assert (∃ qs, starred_log σ = starred_log σ ++ qs ∧ (length qs ≤ 100)%nat
                ∧ Forall (λ q, q_username q = user ∧ q_per_page q = num_of_Z 100) qs)
    as Hnone.
  { exists []. rewrite app_nil_r. split; [done|]. split; [simpl; lia | constructor]. }
  unfold try_catch_finally in E.
  unfold abind at 1 2 3 4, update at 1 2, fetch_export at 1, lift at 1 in E.
  cbn [view remote starred_log export_log] in E.
  destruct (api_export (remote σ) user fmt) as [w0 [xres|e]];
    [|cbn in E; injection E as <- <-; by cbn].
  destruct (body_json xres) as [xdata|e]; [|cbn in E; injection E as <- <-; by cbn].
  destruct (ok xres); cbn [negb] in E.
  - unfold abind at 1 in E.
    match type of E with
    | context [starred_loop _ _ _ _ ?p ?a ?s] =>
        destruct (starred_loop_bound user 100 p a s)
          as (qs & Hlog & Hlen & Hall & Hexp);
        destruct (starred_loop js api_starred user 100 p a s) as [σ2 [all|e]]
    end; cbn [fst starred_log export_log] in Hlog, Hexp; cbn in E;
      injection E as <- <-; cbn; rewrite Hexp;
      (split; [done|]); (split; [done|]); exists qs; by rewrite Hlog.
  - unfold abind, lift, update in E.
    destruct (get xdata "error") as [err|e]; cbn in E; injection E as <- <-; by cbn.
Qed.

End FetchAllFacts.

Lemma cycle_readable :
  AppPage.readable host (Demo.reply_page 2 1) (Demo.page_body 2 1)
    {[ "next" := num_of_Z 2 ]}.
Proof.
  split; [reflexivity|]. split; [reflexivity|]. split; [reflexivity|].
  split; [by eexists|]. vm_compute. reflexivity.
Qed.

Lemma cycle_browse (n : nat) :
  ∀ (w : nat) (pg : number),
    ∃ pg2, AppPage.browse host Demo.starred_cycle "octocat" w pg
             (replicate n (Demo.page_body 2 1)) (n + w)%nat pg2.
Proof.
  induction n as [|n IH]; intros w pg.
  - exists pg. constructor.
  - destruct (IH (S w) (num_of_Z 2)) as [pg2 Hb]. exists pg2.
    replace (S n + w)%nat with (n + S w)%nat by lia.
    cbn [replicate].
    eapply AppPage.browse_cons; [reflexivity | apply cycle_readable | reflexivity | exact Hb].
Qed.

Lemma three_pages_browse :
  AppPage.browse host (Demo.starred_api 3 0) "octocat" 1%nat (num_of_Z 1)
    [Demo.page_body 3 1; Demo.page_body 3 2] 3%nat (num_of_Z 3).
Proof.
  eapply AppPage.browse_cons with (info := {[ "next" := num_of_Z 2 ]});
    [reflexivity| |reflexivity|].
  { split; [reflexivity|]. split; [reflexivity|]. split; [reflexivity|].
    split; [by eexists|]. vm_compute. reflexivity. }
  eapply AppPage.browse_cons with (info := {[ "next" := num_of_Z 3 ]});
    [reflexivity| |reflexivity|].
  { split; [reflexivity|]. split; [reflexivity|]. split; [reflexivity|].
    split; [by eexists|]. vm_compute. reflexivity. }
  constructor.
Qed.

Lemma one_page_browse :
  AppPage.browse host (Demo.starred_api 3 2) "octocat" 1%nat (num_of_Z 1)
    [Demo.page_body 3 1] 2%nat (num_of_Z 2).
Proof.
  eapply AppPage.browse_cons with (info := {[ "next" := num_of_Z 2 ]});
    [reflexivity| |reflexivity|].
  { split; [reflexivity|]. split; [reflexivity|]. split; [reflexivity|].
    split; [by eexists|]. vm_compute. reflexivity. }
  constructor.
Qed.

Lemma handleFetchAll_export_failure_witness :
  AppPage.run (AppPage.handleFetchAll host (Demo.starred_api 3 0) Demo.export_refused
                 "octocat" csv) (Demo.start None)
  = {| AppPage.view :=
         AppPage.setError (Str "Username is required") AppPage.initial;
       AppPage.remote := 1%nat;
       AppPage.starred_log := [];
       AppPage.export_log := [("octocat", csv)] |}.
Proof.
  refine (handleFetchAll_export_failure host (Demo.starred_api 3 0) Demo.export_refused
            "octocat" csv (Demo.start None) "octocat" 1%nat _ eq_refl _ eq_refl _).
  - discriminate.
  - intros res [= <-]. left. split; [reflexivity|]. eexists. split; reflexivity.
Defined.

Lemma handleFetchAll_collects_witness :
  AppPage.view
    (AppPage.run (AppPage.handleFetchAll host (Demo.starred_api 3 0) Demo.export_ok
                    "ignored" json) (Demo.start (Some "octocat")))
  = {| AppPage.items := Arr [ Obj [("id", Num (num_of_Z 1))];
                              Obj [("id", Num (num_of_Z 2))];
                              Obj [("id", Num (num_of_Z 3))] ];
       AppPage.error := Null;
       AppPage.loading := false;
       AppPage.loadingAll := false;
       AppPage.exporting := false;
       AppPage.currentUser := Some "octocat";
       AppPage.page := num_of_Z 1;
       AppPage.perPage := num_of_Z 100;
       AppPage.pageInfo := ∅;
       AppPage.rate := Obj [("remaining", Num (num_of_Z 57))] |}.
Proof.
  refine (proj1 (handleFetchAll_collects host (Demo.starred_api 3 0) Demo.export_ok
                   "ignored" json (Demo.start (Some "octocat")) "octocat" 1%nat _ _
                   _ 3%nat (num_of_Z 3) 4%nat (Demo.reply_page 3 3)
                   (Demo.page_body 3 3) ∅
                   eq_refl _ eq_refl eq_refl eq_refl three_pages_browse _ eq_refl _ _)).
  - discriminate.
  - simpl. lia.
  - split; [reflexivity|]. split; [reflexivity|]. split; [reflexivity|].
    split; [by eexists|]. vm_compute. reflexivity.
  - reflexivity.
Defined.

Lemma handleFetchAll_stops_at_cap_witness :
  AppPage.items (AppPage.view
    (AppPage.run (AppPage.handleFetchAll host Demo.starred_cycle Demo.export_ok
                    "octocat" json) (Demo.start None)))
  = Arr (replicate 100 (Obj [("id", Num (num_of_Z 1))]))
  ∧ length (AppPage.starred_log
      (AppPage.run (AppPage.handleFetchAll host Demo.starred_cycle Demo.export_ok
                      "octocat" json) (Demo.start None))) = 100%nat.
Proof.
  destruct (cycle_browse 100 1%nat (num_of_Z 1)) as [pg2 Hb].
  destruct (handleFetchAll_stops_at_cap host Demo.starred_cycle Demo.export_ok
              "octocat" json (Demo.start None) "octocat" 1%nat _ _ _ _ _
              eq_refl ltac:(discriminate) eq_refl eq_refl eq_refl Hb eq_refl)
    as (Hitems & _ & _ & Hlog).
  split; [exact Hitems | exact Hlog].
Defined.

Lemma handleFetchAll_partial_witness :
  AppPage.view
    (AppPage.run (AppPage.handleFetchAll host (Demo.starred_api 3 2) Demo.export_ok
                    "octocat" json) (Demo.start None))
  = {| AppPage.items := Arr [ Obj [("id", Num (num_of_Z 1))] ];
       AppPage.error := Str "boom";
       AppPage.loading := false;
       AppPage.loadingAll := false;
       AppPage.exporting := false;
       AppPage.currentUser := Some "octocat";
       AppPage.page := num_of_Z 1;
       AppPage.perPage := num_of_Z 100;
       AppPage.pageInfo := ∅;
       AppPage.rate := Obj [("remaining", Num (num_of_Z 59))] |}.
Proof.
  refine (handleFetchAll_partial host (Demo.starred_api 3 2) Demo.export_ok
            "octocat" json (Demo.start None) "octocat" 1%nat _ _
            _ 2%nat (num_of_Z 2) 3%nat Demo.reply_error _
            eq_refl _ eq_refl eq_refl eq_refl one_page_browse _ eq_refl
            eq_refl eq_refl eq_refl).
  - discriminate.
  - simpl. lia.
Defined.

Lemma handleFetchAll_thrown_witness :
  AppPage.view
    (AppPage.run (AppPage.handleFetchAll host Demo.starred_down Demo.export_ok
                    "octocat" json) (Demo.start None))
  = AppPage.setError (Str "Failed to fetch") AppPage.initial.
Proof.
  refine (handleFetchAll_thrown host Demo.starred_down Demo.export_ok
            "octocat" json (Demo.start None) "octocat" 1%nat _ _
            [] 1%nat (num_of_Z 1) 2%nat (Throw (Error "Failed to fetch"))
            (Error "Failed to fetch")
            eq_refl _ eq_refl eq_refl eq_refl (AppPage.browse_nil _ _ _ _ _) _ eq_refl _).
  - discriminate.
  - simpl. lia.
  - by left.
Defined.

(** *** The other handlers *)

Section OtherHandlers.

Context (js : Builtins) {World : Type}
        (api_starred : World → page_query → World * completion response)
        (api_export : World → string → Format → World * completion response).

Import AppPage.

(** What [fetchPage] leaves alone, whatever the server answers. *)
Lemma fetchPage_frame (user : string) (pg pp : number) (σ : sys) :
  currentUser (view (fetchPage js api_starred user pg pp σ).1) = currentUser (view σ)
  ∧ (perPage (view (fetchPage js api_starred user pg pp σ).1) = pp
     ∨ perPage (view (fetchPage js api_starred user pg pp σ).1) = perPage (view σ)).
Proof.
  destruct (fetchPage js api_starred user pg pp σ) as [σ' r] eqn:E. cbn [fst].
  unfold fetchPage, try_catch_finally, abind, update, lift, fetch_starred in E.
  cbn [view remote starred_log export_log] in E.
  destruct (api_starred (remote σ) _) as [w1 [res|e]]; cbn in E;
    [|injection E as <- <-; cbn; auto].
  destruct (body_json res) as [data|e]; cbn in E; [|injection E as <- <-; cbn; auto].
  destruct (ok res); cbn in E.
  - destruct (get data "items") as [its|e]; cbn in E;
      [|injection E as <- <-; cbn; auto].
    destruct (parseLinkHeader_of js data) as [info|e]; cbn in E;
      [|injection E as <- <-; cbn; auto].
    destruct (get data "rate") as [rt|e]; cbn in E; injection E as <- <-; cbn; auto.
  - destruct (get data "error") as [err|e]; cbn in E;
      [|injection E as <- <-; cbn; auto].
    destruct (get data "rate") as [rt|e]; cbn in E; injection E as <- <-; cbn; auto.
Qed.

(** X24: whatever the server answers, [handlePerPageChange] leaves the
    page size shown at the number chosen, and when a user is known
    (the current one, else the one in the form) it sends exactly one
    request, for page 1 of that user with that page size; with no user
    it sends none. *)
Theorem handlePerPageChange_sets_size (selected form : string) (σ : sys) :
  perPage (view (run (handlePerPageChange js api_starred selected form) σ))
    = Number_of_string js selected
  ∧ starred_log (run (handlePerPageChange js api_starred selected form) σ)
    = starred_log σ
      ++ (if truthy_string (default form (currentUser (view σ)))
          then [{| q_username := default form (currentUser (view σ));
                   q_page := num_of_Z 1;
                   q_per_page := Number_of_string js selected |}]
          else []).
Proof.
  unfold run, handlePerPageChange. cbv zeta.
  unfold abind at 1, update at 1.
  destruct (truthy_string (default form (currentUser (view σ)))).
  - match goal with
    | |- context [fetchPage js api_starred ?u ?g ?pp ?s] =>
        pose proof (fetchPage_frame u g pp s) as [_ Hpp];
        pose proof (fetchPage_log js api_starred u g pp s) as Hlog
    end.
    cbn [view perPage setPerPage starred_log] in Hpp, Hlog.
    split; [by destruct Hpp | exact Hlog].
  - cbn. by rewrite app_nil_r.
Qed.

(** X25: whatever the server answers, [onSubmit] makes the submitted
    name the current user and sends exactly one request, for page 1 of
    that user with the page size shown. *)
Theorem onSubmit_first_page (username : string) (σ : sys) :
  currentUser (view (run (onSubmit js api_starred username) σ)) = Some username
  ∧ starred_log (run (onSubmit js api_starred username) σ)
    = starred_log σ ++ [{| q_username := username; q_page := num_of_Z 1;
                           q_per_page := perPage (view σ) |}].
Proof.
  unfold run, onSubmit. unfold abind at 1, update at 1.
  match goal with
  | |- context [fetchPage js api_starred ?u ?g ?pp ?s] =>
      pose proof (fetchPage_frame u g pp s) as [Hu _];
      pose proof (fetchPage_log js api_starred u g pp s) as Hlog
  end.
  cbn [view currentUser setCurrentUser starred_log] in Hu, Hlog.
  split; [exact Hu | exact Hlog].
Qed.

(** X26: [handleExport] never talks to the starred route and changes
    nothing of what is shown but the error: for a user name that is not
    empty it sends exactly one export request, for that user and the
    chosen format, and ends with [exporting] false; for an empty user
    name it does nothing. *)
Theorem handleExport_only_exports (form : string) (fmt : Format) (σ : sys) :
  if truthy_string (default form (currentUser (view σ))) then
    (∃ err, view (run (handleExport api_export form fmt) σ)
            = setExporting false (setError err (view σ)))
    ∧ export_log (run (handleExport api_export form fmt) σ)
      = export_log σ ++ [(default form (currentUser (view σ)), fmt)]
    ∧ starred_log (run (handleExport api_export form fmt) σ) = starred_log σ
  else run (handleExport api_export form fmt) σ = σ.
Proof.
  unfold run.
  destruct (truthy_string (default form (currentUser (view σ)))) eqn:Ht;
    [|unfold handleExport; by rewrite Ht].
  destruct (handleExport api_export form fmt σ) as [σ' r] eqn:E. cbn [fst].
  unfold handleExport in E. rewrite Ht in E. cbn [negb] in E.
  unfold try_catch_finally, abind, update, lift, fetch_export, pure in E.
  cbn [view remote starred_log export_log] in E.
  destruct (api_export (remote σ) _ fmt) as [w0 [xres|e]]; cbn in E;
    [|injection E as <- <-; cbn; split; [by eexists | done]].
  destruct (body_json xres) as [xdata|e]; cbn in E;
    [|injection E as <- <-; cbn; split; [by eexists | done]].
  destruct (ok xres); cbn in E.
  - injection E as <- <-. cbn. split; [by eexists | done].
  - destruct (get xdata "error") as [err|e]; cbn in E;
      injection E as <- <-; cbn; (split; [by eexists | done]).
Qed.

End OtherHandlers.

(** ** The dashboard *)

Section DashboardFacts.

Import Dashboard.

Context (js : Builtins) (localeCompare : string → string → number).

Lemma insert_sorted_perm {A} (after : A → A → bool) (x : A) (l : list A) :
  insert_sorted after x l ≡ₚ x :: l.
Proof.
  induction l as [|y l IH]; [done|]. cbn [insert_sorted].
  destruct (after x y); [|done].
  rewrite IH. apply Permutation_swap.
Qed.

Lemma Array_sort_perm {A} (after : A → A → bool) (l : list A) :
  Array_sort after l ≡ₚ l.
Proof.
  induction l as [|x l IH]; [done|]. cbn [Array_sort foldr].
  rewrite insert_sorted_perm. by apply Permutation_skip.
Qed.

Lemma filter_all {A} (P : A → Prop) `{!∀ x, Decision (P x)} (l : list A) :
  (∀ x, P x) → filter P l = l.
Proof.
  intros HP. induction l as [|x l IH]; [done|].
  rewrite filter_cons_True by done. by rewrite IH.
Qed.

Lemma strip_prefix_Some (p s rest : string) :
  Text.strip_prefix p s = Some rest ↔ s = p +:+ rest.
Proof.
  revert s. induction p as [|a p IH]; intros s.
  - cbn [Text.strip_prefix]. rewrite app_empty. split; [by intros [= ->] | by intros ->].
  - rewrite app_cons. destruct s as [|b s]; cbn [Text.strip_prefix]; [done|].
    destruct (Text.char_eqb a b) eqn:Hab.
    + apply char_eqb_true in Hab as ->. rewrite IH. split; [by intros -> | by intros [= ->]].
    + apply char_eqb_false in Hab. split; [done | by intros [= -> _]].
Qed.

(** [includes] is the test that the text occurs. *)
Lemma includes_text_occurs (q s : string) :
  includes_text q s = true ↔ ∃ a b, s = a +:+ q +:+ b.
Proof.
  induction s as [|c s IH].
  - cbn [includes_text]. destruct (Text.strip_prefix q EmptyString) as [rest|] eqn:Hp.
    + apply strip_prefix_Some in Hp. split; [|done]. intros _.
      exists EmptyString, rest. by rewrite app_empty.
    + split; [done|]. intros (a & b & Hab).
      destruct a as [|x a]; [|by rewrite app_cons in Hab].
      rewrite app_empty in Hab. apply strip_prefix_Some in Hab. congruence.
  - cbn [includes_text]. destruct (Text.strip_prefix q (String c s)) as [rest|] eqn:Hp.
    + apply strip_prefix_Some in Hp. split; [|done]. intros _.
      exists EmptyString, rest. by rewrite app_empty.
    + rewrite IH. split.
      * intros (a & b & ->). exists (String c a), b. by rewrite app_cons.
      * intros (a & b & Hab). destruct a as [|x a].
        -- rewrite app_empty in Hab. apply strip_prefix_Some in Hab. congruence.
        -- rewrite app_cons in Hab. injection Hab as -> ->. by exists a, b.
Qed.

Lemma matches_occurs (q : string) (r : RepoItem.t) :
  matches q r = true
  ↔ Exists (λ field, ∃ a b, toLowerCase field = a +:+ q +:+ b) (searched r).
Proof.
  unfold matches, searched. rewrite !orb_true_iff, !includes_text_occurs.
  rewrite !Exists_cons, Exists_nil. tauto.
Qed.

Lemma toCSVFromRepos_line_count (repos : list RepoItem.t) :
  ∃ text, toCSVFromRepos js repos = Normal text
          ∧ length (Text.split Text.LF text) = (length repos + 2)%nat.
Proof.
  destruct (toCSVFromRepos_Normal js repos) as (rows & Hm & Ht).
  apply map_completion_Normal in Hm.
  eexists. split; [exact Ht|].
  rewrite table_lines.
  - cbn [length]. rewrite length_app, length_map.
    rewrite <- (Forall2_length _ _ _ Hm). simpl. lia.
  - by vm_compute.
  - clear Ht. induction Hm as [|r row repos rows Hr _ IH]; constructor; [|done].
    by destruct (toCSVFromRepos_row_reads js r row Hr) as (_ & ? & _).
Qed.

(** X27: the displayed items are a rearrangement of the items the view
    lets through: sorting neither drops nor repeats an item, in username
    mode or with a blank query nothing is filtered out, and this holds
    for either sort order and for any [localeCompare]. *)
Theorem displayedItems_permutation (items : option (list RepoItem.t))
    (searchMode : SearchMode) (filterQuery : string) (sortBy : SortBy) :
  displayedItems localeCompare items searchMode filterQuery sortBy
  ≡ₚ filter (λ r, passes searchMode filterQuery r = true) (default [] items).
Proof.
  unfold displayedItems. cbv zeta.
  assert (match searchMode with
          | within =>
              if truthy_string (Text.trim filterQuery)
              then filter (λ r, matches (toLowerCase (Text.trim filterQuery)) r = true)
                     (default [] items)
              else default [] items
          | by_username => default [] items
          end
          = filter (λ r, passes searchMode filterQuery r = true) (default [] items)) as ->.
  { destruct searchMode; cbn [passes].
    - by rewrite filter_all.
    - destruct (truthy_string (Text.trim filterQuery)); cbn [negb orb]; [done|].
      by rewrite filter_all. }
  destruct sortBy; apply Array_sort_perm.
Qed.

(** X28: when searching within the results with a query that is not
    blank, an item is displayed exactly when it is one of the items and
    its full name, its description or its language, put in lower case,
    holds the trimmed query put in lower case. *)
Theorem displayedItems_within (items : list RepoItem.t) (filterQuery : string)
    (sortBy : SortBy) (r : RepoItem.t) :
  Text.trim filterQuery ≠ EmptyString →
  r ∈ displayedItems localeCompare (Some items) within filterQuery sortBy
  ↔ r ∈ items
    ∧ Exists (λ field, ∃ a b, toLowerCase field
                              = a +:+ toLowerCase (Text.trim filterQuery) +:+ b)
        (searched r).
Proof.
  intros Hq. unfold displayedItems. cbv zeta. cbn [default].
  assert (truthy_string (Text.trim filterQuery) = true) as ->
    by (by destruct (Text.trim filterQuery)).
  rewrite <- matches_occurs.
  assert (∀ after, r ∈ Array_sort after
                        (filter (λ r, matches (toLowerCase (Text.trim filterQuery)) r = true)
                           items)
                   ↔ r ∈ items ∧ matches (toLowerCase (Text.trim filterQuery)) r = true)
    as Hin.
  { intros after. rewrite Array_sort_perm, list_elem_of_filter. tauto. }
  destruct sortBy; apply Hin.
Qed.

(** X29: exporting the displayed items never throws; it is refused
    exactly when the view lets no item through; otherwise the file is
    named after the format, the message counts the items the view lets
    through, and a CSV file has one line for the header and one per such
    item. *)
Theorem exportCurrent_of_view (items : option (list RepoItem.t))
    (searchMode : SearchMode) (filterQuery : string) (sortBy : SortBy) (fmt : Format) :
  let shown := filter (λ r, passes searchMode filterQuery r = true) (default [] items) in
  let displayed := displayedItems localeCompare items searchMode filterQuery sortBy in
  match exportCurrent js displayed fmt with
  | Normal (Refused msg) => shown = [] ∧ msg = "Nothing to export in current view"
  | Normal (Downloaded name content mime success) =>
      shown ≠ []
      ∧ name = "stars_current." +:+ Format_string fmt
      ∧ success = "Exported " +:+ pretty (length shown) +:+ " repos to "
                  +:+ match fmt with csv => "CSV" | json => "JSON" end
      ∧ match content with
        | CsvDownload text =>
            fmt = csv
            ∧ toCSVFromRepos js displayed = Normal text
            ∧ length (Text.split Text.LF text) = (length shown + 2)%nat
        | JsonDownload data => fmt = json ∧ data ≡ₚ shown
        end
  | Throw _ => False
  end.
Proof.
  intros shown displayed.
  assert (displayed ≡ₚ shown) as Hperm.
  { unfold displayed, shown, displayedItems. cbv zeta.
    destruct sortBy; rewrite Array_sort_perm;
      (destruct searchMode; cbn [passes];
       [by rewrite filter_all
       |destruct (truthy_string (Text.trim filterQuery)); cbn [negb orb];
        [done | by rewrite filter_all]]). }
  assert (length displayed = length shown) as Hlen by (by rewrite Hperm).
  unfold exportCurrent. destruct (length displayed =? 0)%nat eqn:H0.
  - apply Nat.eqb_eq in H0. split; [|done].
    apply length_zero_iff_nil. congruence.
  - apply Nat.eqb_neq in H0.
    assert (shown ≠ []) as Hne.
    { intros E. rewrite E in Hlen. simpl in Hlen. lia. }
    destruct fmt.
    + split; [done|]. split; [done|]. split; [by rewrite Hlen|]. done.
    + destruct (toCSVFromRepos_line_count displayed) as (text & Ht & Hl).
      rewrite Ht. cbn [cbind].
      split; [done|]. split; [done|]. split; [by rewrite Hlen|].
      split; [done|]. split; [done|]. by rewrite Hl, Hlen.
Qed.

End DashboardFacts.

Lemma displayedItems_within_witness :
  Demo.repo 7 "y/rocq-tools" None
    ∈ Dashboard.displayedItems (λ _ _, num_of_Z 0) (Some Demo.repos) Dashboard.within
        " ROCQ " Dashboard.stars_desc
  ↔ Demo.repo 7 "y/rocq-tools" None ∈ Demo.repos
    ∧ Exists (λ field, ∃ a b, Dashboard.toLowerCase field
                              = a +:+ Dashboard.toLowerCase (Text.trim " ROCQ ") +:+ b)
        (Dashboard.searched (Demo.repo 7 "y/rocq-tools" None)).
Proof.
  apply (displayedItems_within (λ _ _, num_of_Z 0) Demo.repos " ROCQ "
           Dashboard.stars_desc (Demo.repo 7 "y/rocq-tools" None)).
  vm_compute. discriminate.
Defined.
